(** * game-of-domains: the block-scan engine of crossing-the-narrow-sea

    A shallow embedding of [scan-runner.ts] (the ordered-commit engine
    [runScan]) and of [capture-consensus.ts] (the earlier, naive consensus
    capture script), with the properties their specification states.

    Heights are JavaScript numbers that only ever hold integers here; they
    are modelled as [Z].  The [Set<number>] of completed heights is a
    [gset Z].  JavaScript runs one continuation at a time, so the code
    between two [await]s is one atomic transition; which worker is resumed
    next, and whether the promise it awaited was fulfilled or rejected, is
    the environment's choice, given to the model as a schedule. *)

From Stdlib Require Import ZArith List Lia Bool.
From stdpp Require Import base decidable list gmap sets strings.
Import ListNotations.
Local Open Scope Z_scope.

(** ** The Checkpoint Store (module [./sqlite], an external collaborator) *)

(** Modelled from the spec: the functions [getLastProcessedBlockHeight] and
    [setLastProcessedBlockHeight] of [./sqlite], which is not among the
    sources.  The spec gives [get(chainId) -> height | absent] and
    [set(chainId, height) -> void], durable once it returns, and lets [set]
    throw.  One chain is scanned per run, so the store is the one record of
    that chain.  [writeLog] lists the values written, oldest first;
    [faults] is the environment's script for the coming calls of [set]:
    [true] makes that call throw (and store nothing), an exhausted script
    means the call succeeds. *)
Record Db := mkDb {
  lastProcessed : option Z;
  writeLog : list Z;
  faults : list bool
}.

(** How a piece of code ends: normally, by a thrown exception, or (for the
    loops of the model only) with its fuel used up. *)
Inductive completion := Normal | Thrown | OutOfFuel.

(** The state of the promise an [async] function returned. *)
Inductive promise := Pending | Resolved | Rejected.

(** Modelled from the spec: [getLastProcessedBlockHeight(db, chain)], the
    [get] of the Checkpoint Store; absent is [None]. *)
Definition getLastProcessedBlockHeight (db : Db) : option Z := lastProcessed db.

(** Modelled from the spec: [setLastProcessedBlockHeight(db, chain, h)], the
    [set] of the Checkpoint Store: it throws when the script says so and
    stores [h] otherwise. *)
Definition setLastProcessedBlockHeight (db : Db) (h : Z) : completion * Db :=
  match faults db with
  | true :: fs => (Thrown, mkDb (lastProcessed db) (writeLog db) fs)
  | false :: fs => (Normal, mkDb (Some h) (writeLog db ++ [h]) fs)
  | [] => (Normal, mkDb (Some h) (writeLog db ++ [h]) [])
  end.

(** A store none of whose coming writes throws. *)
Definition reliable (d : Db) : Prop := true ∉ faults d.

(** What the environment does to a suspended worker: the block source
    answers and the event sink then returns ([RpcOk]); the block source
    fails ([RpcFail]); the block source answers and the event sink throws
    ([SinkFail]); the commit mutex lets the worker in, which runs the
    function it passed ([Commit]); the worker is resumed with the settled
    promise of [markCompleted] ([Resume]); the backoff timer fires
    ([Wake]). *)
Inductive event := RpcOk | RpcFail | SinkFail | Commit | Resume | Wake.

(** [Math.max(start, resumeFrom ?? start)], the same expression in both
    scripts. *)
Definition scanStart (start : Z) (resumeFrom : option Z) : Z :=
  Z.max start (match resumeFrom with Some c => c | None => start end).

(** * [scan-runner.ts] *)
Module ScanRunner.

(** The fields of [RunScanOptions] the control flow reads.  [end] is a
    keyword, hence [end_]. *)
Record RunScanOptions := mkOptions {
  start : Z;
  end_ : Z;
  blockConcurrency : Z;
  retryBackoffMs : Z;
  retryMaxBackoffMs : Z
}.

(** ** The height queue (lines 63-68) *)

(** [Array.from({ length: Math.max(end - scanStart + 1, 0) }, (_, i) => scanStart + i)] *)
Definition heightQueue (s e : Z) : list Z :=
  map (fun i => s + Z.of_nat i) (seq 0 (Z.to_nat (Z.max (e - s + 1) 0))).

(** [heightQueue.length > 0 ? heightQueue.shift()! : null]: the result and
    the queue left behind.  The body has no [await], so a call is atomic. *)
Definition getNextHeight (q : list Z) : option Z * list Z :=
  match q with
  | [] => (None, [])
  | h :: q' => (Some h, q')
  end.

(** [n] successive calls of [getNextHeight], whoever makes them. *)
Fixpoint drain (n : nat) (q : list Z) : list (option Z) * list Z :=
  match n with
  | O => ([], q)
  | S n' =>
      let '(r, q1) := getNextHeight q in
      let '(rs, q2) := drain n' q1 in
      (r :: rs, q2)
  end.

(** The heights among the results of a series of calls. *)
Definition issued (rs : list (option Z)) : list Z := omap id rs.

(** ** The ordered commit tracker (lines 70-81) *)

Record Tracker := mkTracker {
  nextToCommit : Z;
  completedHeights : gset Z;
  db : Db
}.

(** The [while (completedHeights.has(nextToCommit))] loop.  Each turn
    deletes a member of the set, so the size of the set bounds the number of
    turns; [commitLoop_fuel] shows that this fuel is never used up. *)
Fixpoint commitLoop (fuel : nat) (t : Tracker) : completion * Tracker :=
  if decide (nextToCommit t ∈ completedHeights t) then
    match fuel with
    | O => (OutOfFuel, t)
    | S fuel' =>
        let pending := completedHeights t ∖ {[nextToCommit t]} in
        match setLastProcessedBlockHeight (db t) (nextToCommit t) with
        | (Normal, db') => commitLoop fuel' (mkTracker (nextToCommit t + 1) pending db')
        | (c, db') => (c, mkTracker (nextToCommit t) pending db')
        end
    end
  else (Normal, t).

(** The function run under the commit mutex: [completedHeights.add(height)],
    then the loop. *)
Definition markCompleted (height : Z) (t : Tracker) : completion * Tracker :=
  let added := {[height]} ∪ completedHeights t in
  commitLoop (size added) (mkTracker (nextToCommit t) added (db t)).

(** A series of [markCompleted] calls in the order the mutex serves them.  A
    call that throws leaves the tracker as it was at the throw, and the
    calls after it find it so. *)
Definition markAll (hs : list Z) (t : Tracker) : Tracker :=
  fold_left (fun t h => snd (markCompleted h t)) hs t.

(** [let nextToCommit = scanStart; const completedHeights = new Set()] *)
Definition initTracker (s : Z) (d : Db) : Tracker := mkTracker s ∅ d.

(** ** The worker (lines 83-118) and the mutex (lines 20-37) *)

(** Where a worker is suspended: in the [try] block awaiting the block
    source; in the [try] block awaiting [markCompleted(h)], either queued at
    the mutex (the event sink has returned) or with the function run and its
    completion [c] not yet delivered; in the [catch] block awaiting
    [sleep(backoff)]; or it has returned.  ([await getNextHeight()] also
    suspends the worker, with the height already taken and nothing shared
    touched before the block source is called, so this suspension is not
    kept apart.) *)
Inductive wstate :=
| Fetching (h backoff : Z)
| Committing (h backoff : Z)
| Committed (h backoff : Z) (c : completion)
| Sleeping (h backoff : Z)
| Finished.

(** [mutexQueue] is the chain of promises [tail] of [createMutex]: the
    workers that have called [runExclusive] and not yet run their function,
    in the order of their calls.  The function has no [await], so the mutex
    is released in the transition that runs it. *)
Record World := mkWorld {
  workers : list wstate;
  queue : list Z;
  tracker : Tracker;
  mutexQueue : list nat;
  sinkCalls : list (Z * completion);  (* the calls of [processXdmEvents]: height, how it ended *)
  sleeps : list (Z * Z)               (* (height, delay) of every [sleep(backoff)] *)
}.

(** The head of the outer loop: [const h = await getNextHeight()],
    [if (h == null) return], [let backoff = retryBackoffMs], and the first
    call of the block source. *)
Definition nextJob (o : RunScanOptions) (q : list Z) : wstate * list Z :=
  match getNextHeight q with
  | (Some h, q') => (Fetching h (retryBackoffMs o), q')
  | (None, q') => (Finished, q')
  end.

(** The [catch] block up to its [await sleep(backoff)]. *)
Definition catch (i : nat) (h backoff : Z) (w : World) : World :=
  mkWorld (<[i := Sleeping h backoff]> (workers w)) (queue w) (tracker w)
          (mutexQueue w) (sinkCalls w) (sleeps w ++ [(h, backoff)]).

(** [runExclusive] as worker [i] sees it: the worker runs its function when
    it is the first of those waiting; the others are left waiting. *)
Definition runExclusive (i : nat) (waiting : list nat) : option (list nat) :=
  match waiting with
  | j :: others => if decide (j = i) then Some others else None
  | [] => None
  end.

(** [worker]: one transition of worker [i]; [None] when the event is not
    one the worker is waiting for. *)
Definition worker (o : RunScanOptions) (i : nat) (ev : event) (w : World) : option World :=
  match workers w !! i with
  | Some (Fetching h b) =>
      match ev with
      | RpcFail => Some (catch i h b w)
      | SinkFail =>
          Some (catch i h b (mkWorld (workers w) (queue w) (tracker w) (mutexQueue w)
                                     (sinkCalls w ++ [(h, Thrown)]) (sleeps w)))
      | RpcOk =>
          Some (mkWorld (<[i := Committing h b]> (workers w)) (queue w) (tracker w)
                        (mutexQueue w ++ [i]) (sinkCalls w ++ [(h, Normal)]) (sleeps w))
      | _ => None
      end
  | Some (Committing h b) =>
      match ev, runExclusive i (mutexQueue w) with
      | Commit, Some waiting =>
          match markCompleted h (tracker w) with
          | (OutOfFuel, _) => None
          | (c, t') =>
              Some (mkWorld (<[i := Committed h b c]> (workers w)) (queue w) t'
                            waiting (sinkCalls w) (sleeps w))
          end
      | _, _ => None
      end
  | Some (Committed h b c) =>
      match ev, c with
      | Resume, Normal =>
          let '(ws, q') := nextJob o (queue w) in
          Some (mkWorld (<[i := ws]> (workers w)) q' (tracker w) (mutexQueue w)
                        (sinkCalls w) (sleeps w))
      | Resume, Thrown => Some (catch i h b w)
      | _, _ => None
      end
  | Some (Sleeping h b) =>
      match ev with
      | Wake =>
          Some (mkWorld (<[i := Fetching h (Z.min (b * 2) (retryMaxBackoffMs o))]> (workers w))
                        (queue w) (tracker w) (mutexQueue w) (sinkCalls w) (sleeps w))
      | _ => None
      end
  | _ => None
  end.

Fixpoint exec (o : RunScanOptions) (sched : list (nat * event)) (w : World) : option World :=
  match sched with
  | [] => Some w
  | (i, ev) :: sched' =>
      match worker o i ev w with
      | Some w' => exec o sched' w'
      | None => None
      end
  end.

(** ** The orchestrator (lines 56-70, 120) *)

(** [Array.from({ length: blockConcurrency }, () => worker())]: each worker
    runs to its first suspension as it is created. *)
Fixpoint spawn (o : RunScanOptions) (n : nat) (q : list Z) : list wstate * list Z :=
  match n with
  | O => ([], q)
  | S n' =>
      let '(ws, q1) := nextJob o q in
      let '(rest, q2) := spawn o n' q1 in
      (ws :: rest, q2)
  end.

Definition initWorld (o : RunScanOptions) (d : Db) : World :=
  let resumeFrom := getLastProcessedBlockHeight d in
  let s := scanStart (start o) resumeFrom in
  let '(ws, q) := spawn o (Z.to_nat (blockConcurrency o)) (heightQueue s (end_ o)) in
  mkWorld ws q (initTracker s d) [] [] [].

Definition isFinished (ws : wstate) : bool :=
  match ws with Finished => true | _ => false end.

(** [await Promise.all(...)]: no worker ever rejects (every exception of the
    loop body is raised inside its [try]), so the promise of [runScan] is
    fulfilled once all workers have returned and is pending until then. *)
Definition joined (w : World) : promise :=
  if forallb isFinished (workers w) then Resolved else Pending.

(** [runScan] after [getApi] and [openDb] have returned, under a schedule:
    the state of its promise and the world when the schedule has been
    played; [None] when the schedule asks for a transition that is not
    enabled. *)
Definition runScan (o : RunScanOptions) (d : Db) (sched : list (nat * event))
  : option (promise * World) :=
  match exec o sched (initWorld o d) with
  | Some w => Some (joined w, w)
  | None => None
  end.

(** The delays of the sleeps for height [h], in order. *)
Definition delaysOf (h : Z) (sl : list (Z * Z)) : list Z :=
  map snd (filter (fun p => p.1 = h) sl).

(** The backoff after [n] failures in a row: [let backoff = retryBackoffMs],
    then [backoff = Math.min(backoff * 2, retryMaxBackoffMs)] each time. *)
Fixpoint backoffAt (o : RunScanOptions) (n : nat) : Z :=
  match n with
  | O => retryBackoffMs o
  | S n' => Z.min (backoffAt o n' * 2) (retryMaxBackoffMs o)
  end.

End ScanRunner.

(** * [capture-consensus.ts], the naive consensus capture *)
Module CaptureConsensus.

(** The numbers [Number(process.env.X)] can give, as far as [main] tells
    them apart: [NaN], or an integer. *)
Inductive jsnum := NaN | Num (z : Z).

(** JavaScript truthiness of a number: [NaN] and [0] are falsy. *)
Definition truthy (x : jsnum) : bool :=
  match x with
  | NaN => false
  | Num z => negb (z =? 0)
  end.

(** An environment variable as [Number] reads it: not set ([undefined]), a
    string that is no numeric literal, or a string that reads as the
    integer [z] (the empty string reads as 0).  Strings that read as a
    number that is no integer are left out: heights are integers. *)
Inductive envval := Unset | NotNumeric | Numeral (z : Z).

(** [Number(process.env.X)] *)
Definition Number (v : envval) : jsnum :=
  match v with
  | Unset => NaN
  | NotNumeric => NaN
  | Numeral z => Num z
  end.

(** The module-level constants (lines 8-17). *)
Record Config := mkConfig {
  CONSENSUS_START_HEIGHT : envval;
  CONSENSUS_END_HEIGHT : envval;
  RETRY_BACKOFF_MS : Z;
  RETRY_MAX_BACKOFF_MS : Z;
  BLOCK_CONCURRENCY : Z
}.

Definition START (c : Config) : jsnum := Number (CONSENSUS_START_HEIGHT c).
Definition END (c : Config) : jsnum := Number (CONSENSUS_END_HEIGHT c).

(** The integer a number holds; [main] only uses it past the check that
    rules [NaN] out. *)
Definition valueOf (x : jsnum) : Z :=
  match x with
  | NaN => 0
  | Num z => z
  end.

(** Where a worker is suspended: in the [try] block awaiting the block
    source, in the [catch] block awaiting [sleep(backoff)]; or it has
    returned. *)
Inductive wstate :=
| Fetching (h backoff : Z)
| Sleeping (h backoff : Z)
| Finished.

Record World := mkWorld {
  workers : list wstate;
  nextHeight : Z;
  db : Db;
  sinkCalls : list (Z * completion);  (* the calls of [processXdmEvents]: height, how it ended *)
  sleeps : list (Z * Z)               (* (height, delay) of every [sleep(backoff)] *)
}.

(** [getNextHeight] (lines 36-41): the result and the new [nextHeight]. *)
Definition getNextHeight (e : Z) (nextHeight : Z) : option Z * Z :=
  if e <? nextHeight then (None, nextHeight)
  else (Some nextHeight, nextHeight + 1).

(** The head of the outer loop, up to the first call of the block source. *)
Definition nextJob (c : Config) (nextHeight : Z) : wstate * Z :=
  match getNextHeight (valueOf (END c)) nextHeight with
  | (Some h, n') => (Fetching h (RETRY_BACKOFF_MS c), n')
  | (None, n') => (Finished, n')
  end.

(** The [catch] block up to its [await sleep(backoff)]. *)
Definition catch (i : nat) (h backoff : Z) (w : World) : World :=
  mkWorld (<[i := Sleeping h backoff]> (workers w)) (nextHeight w) (db w)
          (sinkCalls w) (sleeps w ++ [(h, backoff)]).

(** [if (h % 100 === 0) { ...; setLastProcessedBlockHeight(db, 'consensus', h) }]
    (lines 54-57); [%] is the remainder of truncated division. *)
Definition checkpoint (h : Z) (d : Db) : completion * Db :=
  if Z.rem h 100 =? 0 then setLastProcessedBlockHeight d h else (Normal, d).

(** [worker]: one transition of worker [i]; [None] when the event is not
    one the worker is waiting for.  When the block source has answered, the
    rest of the [try] block has no [await]: the checkpoint is written, the
    event sink is called, and after [break] the next height is taken, all in
    one transition. *)
Definition worker (c : Config) (i : nat) (ev : event) (w : World) : option World :=
  match workers w !! i with
  | Some (Fetching h b) =>
      match ev with
      | RpcFail => Some (catch i h b w)
      | RpcOk | SinkFail =>
          match checkpoint h (db w) with
          | (Normal, d') =>
              match ev with
              | RpcOk =>
                  let '(ws, n') := nextJob c (nextHeight w) in
                  Some (mkWorld (<[i := ws]> (workers w)) n' d'
                                (sinkCalls w ++ [(h, Normal)]) (sleeps w))
              | _ =>
                  Some (catch i h b (mkWorld (workers w) (nextHeight w) d'
                                             (sinkCalls w ++ [(h, Thrown)]) (sleeps w)))
              end
          | (_, d') =>
              Some (catch i h b (mkWorld (workers w) (nextHeight w) d' (sinkCalls w) (sleeps w)))
          end
      | _ => None
      end
  | Some (Sleeping h b) =>
      match ev with
      | Wake =>
          Some (mkWorld (<[i := Fetching h (Z.min (b * 2) (RETRY_MAX_BACKOFF_MS c))]> (workers w))
                        (nextHeight w) (db w) (sinkCalls w) (sleeps w))
      | _ => None
      end
  | _ => None
  end.

Fixpoint exec (c : Config) (sched : list (nat * event)) (w : World) : option World :=
  match sched with
  | [] => Some w
  | (i, ev) :: sched' =>
      match worker c i ev w with
      | Some w' => exec c sched' w'
      | None => None
      end
  end.

(** [Array.from({ length: BLOCK_CONCURRENCY }, () => worker())] *)
Fixpoint spawn (c : Config) (n : nat) (nextHeight : Z) : list wstate * Z :=
  match n with
  | O => ([], nextHeight)
  | S n' =>
      let '(ws, n1) := nextJob c nextHeight in
      let '(rest, n2) := spawn c n' n1 in
      (ws :: rest, n2)
  end.

Definition isFinished (ws : wstate) : bool :=
  match ws with Finished => true | _ => false end.

Definition joined (w : World) : promise :=
  if forallb isFinished (workers w) then Resolved else Pending.

Definition required : string :=
  "CONSENSUS_RPC_URL, CONSENSUS_START_HEIGHT, CONSENSUS_END_HEIGHT are required".

(** What a call of [main] has come to: it threw before anything else
    happened, or it got as far as the worker pool. *)
Inductive outcome :=
| Threw (message : string)
| Ran (p : promise) (w : World).

(** [main] (lines 20-82), [getApi] and [openDb] having returned, under a
    schedule.  [rpcEndpoints] is an array, which is truthy. *)
Definition main (c : Config) (d : Db) (sched : list (nat * event)) : option outcome :=
  let rpcEndpoints := true in
  if negb rpcEndpoints || negb (truthy (START c)) || negb (truthy (END c)) then
    Some (Threw required)
  else
    let resumeFrom := getLastProcessedBlockHeight d in
    let s := scanStart (valueOf (START c)) resumeFrom in
    let '(ws, n) := spawn c (Z.to_nat (BLOCK_CONCURRENCY c)) s in
    match exec c sched (mkWorld ws n d [] []) with
    | Some w => Some (Ran (joined w) w)
    | None => None
    end.

End CaptureConsensus.

Import ScanRunner.

(** * Specification predicates *)

(** What one run of the commit loop does, in terms of the number [k] of
    values it wrote. *)
Record flushed (t : Tracker) (c : completion) (t' : Tracker) (k : Z) : Prop := {
  fl_nonneg : 0 ≤ k;
  fl_cursor : nextToCommit t' = nextToCommit t + k;
  fl_prefix : ∀ j, nextToCommit t ≤ j < nextToCommit t' → j ∈ completedHeights t;
  fl_log : writeLog (db t') = writeLog (db t) ++ seqZ (nextToCommit t) k;
  fl_last : lastProcessed (db t') =
            if decide (k = 0) then lastProcessed (db t) else Some (nextToCommit t' - 1);
  fl_exit : nextToCommit t' ∉ completedHeights t';
  fl_fuel : c ≠ OutOfFuel;
  fl_sub : completedHeights t' ⊆ completedHeights t;
  fl_keep : ∀ j, j ∈ completedHeights t → j < nextToCommit t ∨ nextToCommit t' < j →
                 j ∈ completedHeights t';
  fl_normal : c = Normal → ∀ j, j ∈ completedHeights t' ↔
                                 j ∈ completedHeights t ∧ ¬ (nextToCommit t ≤ j < nextToCommit t');
  fl_thrown : c = Thrown → nextToCommit t' ∈ completedHeights t ∧
                           ∃ fs, faults (db t) = replicate (Z.to_nat k) false ++ true :: fs;
  fl_reliable : reliable (db t) → c = Normal ∧ reliable (db t')
}.

(** What holds of the tracker after the calls [hs], from the start [s] of the
    scan and the store [d0] found at the start; the store may throw. *)
Record tracked (s : Z) (d0 : Db) (hs : list Z) (t : Tracker) : Prop := {
  tr_start : s ≤ nextToCommit t;
  tr_prefix : ∀ j, s ≤ j < nextToCommit t → j ∈ hs;
  tr_pending : ∀ j, j ∈ completedHeights t → j ∈ hs;
  tr_exit : nextToCommit t ∉ completedHeights t;
  tr_log : writeLog (db t) = writeLog d0 ++ seqZ s (nextToCommit t - s);
  tr_last : lastProcessed (db t) =
            if decide (nextToCommit t = s) then lastProcessed d0 else Some (nextToCommit t - 1);
  tr_reliable : reliable d0 → reliable (db t);
  tr_all : reliable d0 → ∀ j, j ∈ hs → nextToCommit t ≤ j → j ∈ completedHeights t
}.

(** The invariant the spec gives for the pending completion set: every
    member is above the commit cursor and at most the end of the run. *)
Definition pendingInvariant (e : Z) (t : Tracker) : Prop :=
  ∀ j, j ∈ completedHeights t → nextToCommit t < j ≤ e.


(** The order on checkpoints: an absent checkpoint is below every height. *)
Definition ckpt_le (a b : option Z) : Prop :=
  match a, b with
  | None, _ => True
  | Some x, Some y => x ≤ y
  | Some _, None => False
  end.

(** Successive values each one more than the one before. *)
Definition stepsByOne (ws : list Z) : Prop :=
  ∀ (i : nat) a b, ws !! i = Some a → ws !! S i = Some b → b = a + 1.

Definition strictlyIncreasing (ws : list Z) : Prop :=
  ∀ (i j : nat) a b, (i < j)%nat → ws !! i = Some a → ws !! j = Some b → a < b.

(** The event sink has returned normally for height [h]. *)
Definition processed (h : Z) (w : World) : Prop := (h, Normal) ∈ sinkCalls w.

(** Every worker awaiting the commit mutex has had its height processed. *)
Definition sunk (w : World) : Prop :=
  ∀ (i : nat) h b, workers w !! i = Some (Committing h b) → processed h w.

(** The first [n] delays of a height. *)
Definition backoffSeq (o : RunScanOptions) (n : nat) : list Z :=
  map (backoffAt o) (seq 0 n).

(** The height a worker holds. *)
Definition heightOf (ws : wstate) : option Z :=
  match ws with
  | Fetching h _ | Committing h _ | Committed h _ _ | Sleeping h _ => Some h
  | Finished => None
  end.

(** The backoff of a worker agrees with the sleeps of its height so far. *)
Definition wellDelayed (o : RunScanOptions) (sl : list (Z * Z)) (ws : wstate) : Prop :=
  match ws with
  | Fetching h b | Committing h b | Committed h b _ =>
      ∃ n, delaysOf h sl = backoffSeq o n ∧ b = backoffAt o n
  | Sleeping h b =>
      ∃ n, delaysOf h sl = backoffSeq o (S n) ∧ b = backoffAt o n
  | Finished => True
  end.

(** The invariant of the pool: no height is held twice or held and queued,
    and the sleeps of every height are the backoff sequence. *)
Record pooled (o : RunScanOptions) (ws : list wstate) (q : list Z) (sl : list (Z * Z))
  : Prop := {
  po_unique : ∀ (i j : nat) si sj h,
      ws !! i = Some si → ws !! j = Some sj →
      heightOf si = Some h → heightOf sj = Some h → i = j;
  po_disjoint : ∀ (i : nat) si h, ws !! i = Some si → heightOf si = Some h → h ∉ q;
  po_nodup : NoDup q;
  po_worker : ∀ (i : nat) si, ws !! i = Some si → wellDelayed o sl si;
  po_queued : ∀ h, h ∈ q → delaysOf h sl = [];
  po_delays : ∀ h, ∃ n, delaysOf h sl = backoffSeq o n
}.

(** The kinds of transition of a worker of [runScan], as a relation
    ([worker_stepped] shows that it is the graph of [worker]). *)
Inductive stepped (o : RunScanOptions) (i : nat) (w : World) : event → World → Prop :=
| st_rpc_fail h b :
    workers w !! i = Some (Fetching h b) →
    stepped o i w RpcFail (catch i h b w)
| st_sink_fail h b :
    workers w !! i = Some (Fetching h b) →
    stepped o i w SinkFail
      (catch i h b (mkWorld (workers w) (queue w) (tracker w) (mutexQueue w)
                            (sinkCalls w ++ [(h, Thrown)]) (sleeps w)))
| st_rpc_ok h b :
    workers w !! i = Some (Fetching h b) →
    stepped o i w RpcOk
      (mkWorld (<[i := Committing h b]> (workers w)) (queue w) (tracker w)
               (mutexQueue w ++ [i]) (sinkCalls w ++ [(h, Normal)]) (sleeps w))
| st_commit h b c t' waiting :
    workers w !! i = Some (Committing h b) →
    mutexQueue w = i :: waiting →
    markCompleted h (tracker w) = (c, t') →
    stepped o i w Commit
      (mkWorld (<[i := Committed h b c]> (workers w)) (queue w) t'
               waiting (sinkCalls w) (sleeps w))
| st_resume h b :
    workers w !! i = Some (Committed h b Normal) →
    stepped o i w Resume
      (mkWorld (<[i := (nextJob o (queue w)).1]> (workers w)) (nextJob o (queue w)).2
               (tracker w) (mutexQueue w) (sinkCalls w) (sleeps w))
| st_resume_thrown h b :
    workers w !! i = Some (Committed h b Thrown) →
    stepped o i w Resume (catch i h b w)
| st_wake h b :
    workers w !! i = Some (Sleeping h b) →
    stepped o i w Wake
      (mkWorld (<[i := Fetching h (Z.min (b * 2) (retryMaxBackoffMs o))]> (workers w))
               (queue w) (tracker w) (mutexQueue w) (sinkCalls w) (sleeps w)).

(** Some worker holds height [h]. *)
Definition held (ws : list wstate) (h : Z) : Prop :=
  ∃ (i : nat) st, ws !! i = Some st ∧ heightOf st = Some h.

(** The bookkeeping of a run over [s..e] whose store is reliable, [hs] being
    the completion notices so far: every height of the range is queued, held
    or reported; nothing outside the range is; a worker back from
    [markCompleted] has reported its height; and once a worker has returned
    the queue is empty. *)
Record progress (s e : Z) (ws : list wstate) (q : list Z) (hs : list Z) : Prop := {
  pg_cover : ∀ h, s ≤ h ≤ e → h ∈ q ∨ held ws h ∨ h ∈ hs;
  pg_queue : ∀ h, h ∈ q → s ≤ h ≤ e;
  pg_held : ∀ h, held ws h → s ≤ h ≤ e;
  pg_reported : ∀ h, h ∈ hs → s ≤ h ≤ e;
  pg_done : ∀ (i : nat) h b c, ws !! i = Some (Committed h b c) → c = Normal ∧ h ∈ hs;
  pg_idle : ∀ (i : nat), ws !! i = Some Finished → q = []
}.

(** * Further notions for the worker pool of [runScan] *)

(** The worlds a run of [runScan] passes through. *)
Inductive reachable (o : RunScanOptions) (d : Db) : World → Prop :=
| reach_init : reachable o d (initWorld o d)
| reach_step w i ev w' :
    reachable o d w → worker o i ev w = Some w' → reachable o d w'.

(** The heights for which the event sink has returned, in the order of its
    returns. *)
Definition normalHeights (sc : list (Z * completion)) : list Z :=
  omap (λ p, match p.2 with Normal => Some p.1 | _ => None end) sc.

(** The heights of the workers waiting at the commit mutex, in the order of
    the queue. *)
Definition waitingHeights (ws : list wstate) (mq : list nat) : list Z :=
  omap (λ i : nat, ws !! i ≫= heightOf) mq.

(** The mutex queue holds exactly the workers that await their turn to
    commit, each once; and no worker has come back from a commit loop that
    ran out of fuel. *)
Record queued (w : World) : Prop := {
  qu_nodup : NoDup (mutexQueue w);
  qu_committing : ∀ i : nat,
      i ∈ mutexQueue w ↔ ∃ h b, workers w !! i = Some (Committing h b);
  qu_fuel : ∀ (i : nat) h b, workers w !! i ≠ Some (Committed h b OutOfFuel)
}.

Definition isCommitting (st : wstate) : bool :=
  match st with Committing _ _ => true | _ => false end.

Definition outOfFuel (st : wstate) : bool :=
  match st with Committed _ _ OutOfFuel => true | _ => false end.

(** Everything a run touches lies in its range [s..e]. *)
Record ranged (s e : Z) (w : World) : Prop := {
  rg_queue : ∀ h, h ∈ queue w → s ≤ h ≤ e;
  rg_held : ∀ h, held (workers w) h → s ≤ h ≤ e;
  rg_sink : ∀ h c, (h, c) ∈ sinkCalls w → s ≤ h ≤ e;
  rg_sleeps : ∀ h b, (h, b) ∈ sleeps w → s ≤ h ≤ e
}.

(** The worker is still to call the event sink for its height (again, if
    it is retrying). *)
Definition beforeSink (st : wstate) : bool :=
  match st with Fetching _ _ | Sleeping _ _ => true | _ => false end.

(** With a reliable store no height is processed twice: a height for which
    the event sink has returned is neither queued nor held by a worker that
    is still to call the sink, and every commit has returned normally. *)
Record once (w : World) : Prop := {
  on_nodup : NoDup (normalHeights (sinkCalls w));
  on_queue : ∀ h, h ∈ normalHeights (sinkCalls w) → h ∉ queue w;
  on_fresh : ∀ (i : nat) st h,
      workers w !! i = Some st → heightOf st = Some h → beforeSink st = true →
      h ∉ normalHeights (sinkCalls w);
  on_reliable : reliable (db (tracker w));
  on_normal : ∀ (i : nat) h b c, workers w !! i = Some (Committed h b c) → c = Normal
}.

(** * The consensus capture with locks (the script that follows [runScan]
      in [scan-runner.ts], lines 123-231)

    The constants and the startup check are those of [capture-consensus.ts];
    the height counter is its [getNextHeight], here run as a callback on the
    promise chain [allocationLock]; the body of [markCompleted] is that of
    [runScan], here run as a callback on the promise chain [commitLock]. *)
Module CaptureOrdered.

(** What the environment does to a suspended worker; as for [runScan], and
    [Alloc]: the callback the worker put on [allocationLock] runs. *)
Inductive event := Alloc | RpcOk | RpcFail | SinkFail | Commit | Resume | Wake.

(** Where a worker is suspended: awaiting [getNextHeight()]; in the [try]
    block awaiting the block source; in the [try] block awaiting
    [markCompleted(h)], with its callback still to come or settled with [c];
    in the [catch] block awaiting [sleep(backoff)]; or it has returned. *)
Inductive wstate :=
| Allocating
| Fetching (h backoff : Z)
| Committing (h backoff : Z)
| Committed (h backoff : Z) (c : completion)
| Sleeping (h backoff : Z)
| Finished.

(** [allocationLock] and [commitLock] are the two promise chains: the
    workers whose callbacks are still to run, in the order in which they
    were chained.  [commitRejected] tells whether the last promise of
    [commitLock] that has settled was rejected: [p.then(f)] on a rejected
    [p] does not call [f] and is rejected in turn. *)
Record World := mkWorld {
  workers : list wstate;
  nextHeight : Z;
  allocationLock : list nat;
  tracker : Tracker;
  commitLock : list nat;
  commitRejected : bool;
  sinkCalls : list (Z * completion);
  sleeps : list (Z * Z)
}.

(** The [catch] block up to its [await sleep(backoff)]. *)
Definition catch (i : nat) (h backoff : Z) (w : World) : World :=
  mkWorld (<[i := Sleeping h backoff]> (workers w)) (nextHeight w) (allocationLock w)
          (tracker w) (commitLock w) (commitRejected w)
          (sinkCalls w) (sleeps w ++ [(h, backoff)]).

(** The first of a chain, if it is worker [i]. *)
Definition first (i : nat) (chain : list nat) : option (list nat) :=
  match chain with
  | j :: others => if decide (j = i) then Some others else None
  | [] => None
  end.

(** [worker]: one transition of worker [i]; [None] when the event is not
    one the worker is waiting for. *)
Definition worker (c : CaptureConsensus.Config) (i : nat) (ev : event) (w : World)
  : option World :=
  match workers w !! i with
  | Some Allocating =>
      match ev, first i (allocationLock w) with
      | Alloc, Some others =>
          match CaptureConsensus.getNextHeight (CaptureConsensus.valueOf (CaptureConsensus.END c))
                                               (nextHeight w) with
          | (Some h, n') =>
              Some (mkWorld (<[i := Fetching h (CaptureConsensus.RETRY_BACKOFF_MS c)]> (workers w))
                            n' others (tracker w) (commitLock w) (commitRejected w)
                            (sinkCalls w) (sleeps w))
          | (None, n') =>
              Some (mkWorld (<[i := Finished]> (workers w))
                            n' others (tracker w) (commitLock w) (commitRejected w)
                            (sinkCalls w) (sleeps w))
          end
      | _, _ => None
      end
  | Some (Fetching h b) =>
      match ev with
      | RpcFail => Some (catch i h b w)
      | SinkFail =>
          Some (catch i h b (mkWorld (workers w) (nextHeight w) (allocationLock w) (tracker w)
                                     (commitLock w) (commitRejected w)
                                     (sinkCalls w ++ [(h, Thrown)]) (sleeps w)))
      | RpcOk =>
          Some (mkWorld (<[i := Committing h b]> (workers w)) (nextHeight w) (allocationLock w)
                        (tracker w) (commitLock w ++ [i]) (commitRejected w)
                        (sinkCalls w ++ [(h, Normal)]) (sleeps w))
      | _ => None
      end
  | Some (Committing h b) =>
      match ev, first i (commitLock w) with
      | Commit, Some others =>
          if commitRejected w then
            Some (mkWorld (<[i := Committed h b Thrown]> (workers w)) (nextHeight w)
                          (allocationLock w) (tracker w) others true
                          (sinkCalls w) (sleeps w))
          else
            match markCompleted h (tracker w) with
            | (OutOfFuel, _) => None
            | (r, t') =>
                Some (mkWorld (<[i := Committed h b r]> (workers w)) (nextHeight w)
                              (allocationLock w) t' others
                              (match r with Normal => false | _ => true end)
                              (sinkCalls w) (sleeps w))
            end
      | _, _ => None
      end
  | Some (Committed h b r) =>
      match ev, r with
      | Resume, Normal =>
          Some (mkWorld (<[i := Allocating]> (workers w)) (nextHeight w)
                        (allocationLock w ++ [i]) (tracker w) (commitLock w)
                        (commitRejected w) (sinkCalls w) (sleeps w))
      | Resume, Thrown => Some (catch i h b w)
      | _, _ => None
      end
  | Some (Sleeping h b) =>
      match ev with
      | Wake =>
          Some (mkWorld (<[i := Fetching h (Z.min (b * 2) (CaptureConsensus.RETRY_MAX_BACKOFF_MS c))]>
                           (workers w))
                        (nextHeight w) (allocationLock w) (tracker w) (commitLock w)
                        (commitRejected w) (sinkCalls w) (sleeps w))
      | _ => None
      end
  | _ => None
  end.

Fixpoint exec (c : CaptureConsensus.Config) (sched : list (nat * event)) (w : World)
  : option World :=
  match sched with
  | [] => Some w
  | (i, ev) :: sched' =>
      match worker c i ev w with
      | Some w' => exec c sched' w'
      | None => None
      end
  end.

Definition isFinished (ws : wstate) : bool :=
  match ws with Finished => true | _ => false end.

Definition joined (w : World) : promise :=
  if forallb isFinished (workers w) then Resolved else Pending.

(** The pool as [Promise.all(Array.from({ length: BLOCK_CONCURRENCY }, () =>
    worker()))] leaves it: every worker has chained its first callback. *)
Definition initWorld (c : CaptureConsensus.Config) (d : Db) : World :=
  let resumeFrom := getLastProcessedBlockHeight d in
  let s := scanStart (CaptureConsensus.valueOf (CaptureConsensus.START c)) resumeFrom in
  let n := Z.to_nat (CaptureConsensus.BLOCK_CONCURRENCY c) in
  mkWorld (replicate n Allocating) s (seq 0 n) (initTracker s d) [] false [] [].

Inductive outcome :=
| Threw (message : string)
| Ran (p : promise) (w : World).

(** [main] (lines 142-226), [getApi] and [openDb] having returned, under a
    schedule. *)
Definition main (c : CaptureConsensus.Config) (d : Db) (sched : list (nat * event))
  : option outcome :=
  let rpcEndpoints := true in
  if negb rpcEndpoints || negb (CaptureConsensus.truthy (CaptureConsensus.START c))
     || negb (CaptureConsensus.truthy (CaptureConsensus.END c)) then
    Some (Threw CaptureConsensus.required)
  else
    match exec c sched (initWorld c d) with
    | Some w => Some (Ran (joined w) w)
    | None => None
    end.

(** The height a worker holds. *)
Definition heightOf (ws : wstate) : option Z :=
  match ws with
  | Fetching h _ | Committing h _ | Committed h _ _ | Sleeping h _ => Some h
  | Allocating | Finished => None
  end.

(** The worker cannot be through with its height before a completion
    notice for it has run. *)
Definition unreported (ws : wstate) : bool :=
  match ws with
  | Fetching _ _ | Committing _ _ | Sleeping _ _ | Committed _ _ Thrown => true
  | _ => false
  end.

End CaptureOrdered.

(** Every worker of the lock-based capture that awaits [markCompleted] has
    had its height processed. *)
Definition sunkLocked (w : CaptureOrdered.World) : Prop :=
  ∀ (i : nat) h b,
    CaptureOrdered.workers w !! i = Some (CaptureOrdered.Committing h b) →
    (h, Normal) ∈ CaptureOrdered.sinkCalls w.

Module CO := CaptureOrdered.
Module CC := CaptureConsensus.

(** * Further notions for the naive consensus capture *)

(** [n] successive calls of the counter [getNextHeight] of
    [capture-consensus.ts]: the results and the counter left behind. *)
Fixpoint drainCounter (e : Z) (n : nat) (next : Z) : list (option Z) * Z :=
  match n with
  | O => ([], next)
  | S n' =>
      let '(r, next1) := CC.getNextHeight e next in
      let '(rs, next2) := drainCounter e n' next1 in
      (r :: rs, next2)
  end.

(** The world in which [main] starts its schedule. *)
Definition naiveInit (c : CC.Config) (d : Db) : CC.World :=
  let resumeFrom := getLastProcessedBlockHeight d in
  let s := scanStart (CC.valueOf (CC.START c)) resumeFrom in
  let '(ws, n) := CC.spawn c (Z.to_nat (CC.BLOCK_CONCURRENCY c)) s in
  CC.mkWorld ws n d [] [].

(** The height a worker of the naive capture holds. *)
Definition naiveHeightOf (st : CC.wstate) : option Z :=
  match st with
  | CC.Fetching h _ | CC.Sleeping h _ => Some h
  | CC.Finished => None
  end.

(** The values a naive run has written so far: multiples of 100 within the
    range, the last of them being the checkpoint. *)
Definition hundreds (s e : Z) (d : Db) (db : Db) : Prop :=
  ∃ ws, writeLog db = writeLog d ++ ws ∧
        (∀ v, v ∈ ws → Z.rem v 100 = 0 ∧ s ≤ v ≤ e) ∧
        lastProcessed db = from_option Some (lastProcessed d) (last ws).

(** The bookkeeping of a naive run over [s..e]: the counter, the heights
    held, the heights done, the store. *)
Record naiveInv (s e : Z) (d : Db) (n : nat) (w : CC.World) : Prop := {
  nv_len : length (CC.workers w) = n;
  nv_next : s ≤ CC.nextHeight w ≤ Z.max s (e + 1);
  nv_held : ∀ (i : nat) st h,
      CC.workers w !! i = Some st → naiveHeightOf st = Some h → s ≤ h < CC.nextHeight w;
  nv_unique : ∀ (i j : nat) si sj h,
      CC.workers w !! i = Some si → CC.workers w !! j = Some sj →
      naiveHeightOf si = Some h → naiveHeightOf sj = Some h → i = j;
  nv_cover : ∀ h, s ≤ h < CC.nextHeight w →
      (∃ (i : nat) st, CC.workers w !! i = Some st ∧ naiveHeightOf st = Some h) ∨
      (h, Normal) ∈ CC.sinkCalls w;
  nv_idle : ∀ i : nat, CC.workers w !! i = Some CC.Finished → e < CC.nextHeight w;
  nv_store : hundreds s e d (CC.db w);
  nv_sink : ∀ h r, (h, r) ∈ CC.sinkCalls w → s ≤ h ≤ e
}.

(** * Further notions for the consensus capture with locks *)

Definition isAllocating (st : CO.wstate) : bool :=
  match st with CO.Allocating => true | _ => false end.

Definition awaitsCommit (st : CO.wstate) : bool :=
  match st with CO.Committing _ _ => true | _ => false end.

(** A promise chain holds exactly the workers in the states [P], each
    once. *)
Definition chainOf (P : CO.wstate → bool) (ws : list CO.wstate) (chain : list nat) : Prop :=
  NoDup chain ∧ ∀ i : nat, i ∈ chain ↔ ∃ st, ws !! i = Some st ∧ P st = true.

(** The two promise chains hold the workers whose callbacks are still to
    run. *)
Record chained (w : CO.World) : Prop := {
  ch_alloc : chainOf isAllocating (CO.workers w) (CO.allocationLock w);
  ch_commit : chainOf awaitsCommit (CO.workers w) (CO.commitLock w)
}.

(** The heights handed out in a run over [s..e] with [n] workers. *)
Record allotted (s e : Z) (n : nat) (w : CO.World) : Prop := {
  al_len : length (CO.workers w) = n;
  al_next : s ≤ CO.nextHeight w ≤ Z.max s (e + 1);
  al_held : ∀ (i : nat) st h,
      CO.workers w !! i = Some st → CO.heightOf st = Some h → s ≤ h < CO.nextHeight w;
  al_unique : ∀ (i j : nat) si sj h,
      CO.workers w !! i = Some si → CO.workers w !! j = Some sj →
      CO.heightOf si = Some h → CO.heightOf sj = Some h → i = j;
  al_idle : ∀ i : nat, CO.workers w !! i = Some CO.Finished → e < CO.nextHeight w;
  al_sink : ∀ h r, (h, r) ∈ CO.sinkCalls w → s ≤ h ≤ e;
  al_sleeps : ∀ h b, (h, b) ∈ CO.sleeps w → s ≤ h ≤ e
}.

(** The completion notices [hs] the tracker has received so far, in a run
    from [s] with the store [d]: every height handed out is held or
    reported; while [commitLock] is not rejected no reported height is
    lost, and once it is rejected some worker holds a height it cannot
    report. *)
Record reported (s : Z) (d : Db) (hs : list Z) (w : CO.World) : Prop := {
  rp_tracker : CO.tracker w = markAll hs (initTracker s d);
  rp_sunk : ∀ h, h ∈ hs → (h, Normal) ∈ CO.sinkCalls w;
  rp_cover : ∀ h, s ≤ h < CO.nextHeight w →
      (∃ (i : nat) st, CO.workers w !! i = Some st ∧ CO.heightOf st = Some h) ∨ h ∈ hs;
  rp_done : ∀ (i : nat) h b, CO.workers w !! i = Some (CO.Committed h b Normal) → h ∈ hs;
  rp_waiting : ∀ (i : nat) h b,
      CO.workers w !! i = Some (CO.Committing h b) → (h, Normal) ∈ CO.sinkCalls w;
  rp_intact : CO.commitRejected w = false →
      ∀ j, j ∈ hs → nextToCommit (CO.tracker w) ≤ j → j ∈ completedHeights (CO.tracker w);
  rp_poisoned : CO.commitRejected w = true →
      ∃ (i : nat) st, CO.workers w !! i = Some st ∧ CO.unreported st = true
}.
(** * Proofs

    ** The store and the commit loop *)


Lemma set_cases d h :
  (∃ fs, faults d = true :: fs ∧
         setLastProcessedBlockHeight d h = (Thrown, mkDb (lastProcessed d) (writeLog d) fs)) ∨
  (¬ (∃ fs, faults d = true :: fs) ∧
   setLastProcessedBlockHeight d h = (Normal, mkDb (Some h) (writeLog d ++ [h]) (tail (faults d)))).
Proof.
  unfold setLastProcessedBlockHeight.
  destruct (faults d) as [|[] fs]; [right|left|right]; simpl; eauto;
    split; try reflexivity; intros [fs' ?]; congruence.
Qed.

Lemma reliable_tail d h c d' :
  reliable d → setLastProcessedBlockHeight d h = (c, d') → c = Normal ∧ reliable d'.
Proof.
  unfold reliable. intros Hr Hs.
  destruct (set_cases d h) as [(fs & Hf & E)|[_ E]]; rewrite E in Hs; inversion Hs; subst.
  - exfalso. apply Hr. rewrite Hf. left.
  - split; [done|]. simpl. destruct (faults d); simpl; [done|].
    intros Hin. apply Hr. by right.
Qed.


Lemma flushed_refl t : nextToCommit t ∉ completedHeights t → flushed t Normal t 0.
Proof.
  intros Hout. split.
  - lia.
  - lia.
  - intros j ?; lia.
  - simpl. by rewrite app_nil_r.
  - done.
  - done.
  - done.
  - done.
  - done.
  - intros _ j; split; [intros; split; [done|lia]|tauto].
  - done.
  - done.
Qed.

Lemma commitLoop_flushed fuel : ∀ t c t',
  (size (completedHeights t) ≤ fuel)%nat →
  commitLoop fuel t = (c, t') →
  ∃ k, flushed t c t' k.
Proof.
  induction fuel as [|fuel IH]; intros t c t' Hsz; simpl;
    destruct (decide (nextToCommit t ∈ completedHeights t)) as [Hin|Hout].
  - assert (size (completedHeights t) = 0%nat) as E by lia.
    apply size_empty_inv in E. set_solver.
  - intros [= <- <-]. exists 0. by apply flushed_refl.
  - assert (size (completedHeights t ∖ {[nextToCommit t]}) ≤ fuel)%nat as Hsz'.
    { rewrite size_difference by set_solver. rewrite size_singleton. lia. }
    destruct (set_cases (db t) (nextToCommit t)) as [(fs & Hf & E)|[Hnf E]]; rewrite E.
    + intros [= <- <-]. exists 0. split; simpl.
      * lia.
      * lia.
      * intros j ?; lia.
      * by rewrite app_nil_r.
      * done.
      * set_solver.
      * done.
      * set_solver.
      * intros j Hj [?|?]; apply elem_of_difference; split; try done;
          rewrite elem_of_singleton; lia.
      * done.
      * intros _. split; [done|]. exists fs. by rewrite Hf.
      * intros Hr. exfalso. apply Hr. rewrite Hf. left.
    + intros Hloop. apply IH in Hloop; [|done].
      destruct Hloop as [k [? Hc Hp Hl Hla Hex Hfu Hsu Hke Hno Hth Hre]]; simpl in *.
      exists (k + 1). split; simpl.
      * lia.
      * lia.
      * intros j Hj. destruct (decide (j = nextToCommit t)) as [->|]; [done|].
        specialize (Hp j). set_solver by lia.
      * rewrite Hl, <- app_assoc. f_equal.
        rewrite (seqZ_cons _ (k + 1)) by lia.
        replace (Z.pred (k + 1)) with k by lia.
        replace (Z.succ (nextToCommit t)) with (nextToCommit t + 1) by lia.
        reflexivity.
      * rewrite Hla. repeat case_decide; try lia; try done.
        f_equal; lia.
      * done.
      * done.
      * set_solver.
      * intros j Hj Hr. apply Hke; [|lia]. apply elem_of_difference; split; [done|].
        rewrite elem_of_singleton; lia.
      * intros Hn j. rewrite (Hno Hn j), elem_of_difference, elem_of_singleton.
        split; [intros [[? ?] ?]; split; [done|lia]|intros [? ?]; repeat split; try done; lia].
      * intros Ht. destruct (Hth Ht) as [Hi [fs' Hfs]]. split; [set_solver|].
        destruct (faults (db t)) as [|[] fs0] eqn:Ef; simpl in Hfs.
        -- by destruct (Z.to_nat k).
        -- exfalso. apply Hnf. eauto.
        -- exists fs'. replace (Z.to_nat (k + 1)) with (S (Z.to_nat k)) by lia.
           simpl. by rewrite Hfs.
      * intros Hr. apply Hre. unfold reliable in *. simpl.
        destruct (faults (db t)); simpl; [done|]. intros ?; apply Hr. by right.
  - intros [= <- <-]. exists 0. by apply flushed_refl.
Qed.

Lemma markCompleted_flushed h t c t' :
  markCompleted h t = (c, t') →
  ∃ k, flushed (mkTracker (nextToCommit t) ({[h]} ∪ completedHeights t) (db t)) c t' k.
Proof. unfold markCompleted. intros H. eapply commitLoop_flushed; [|exact H]. done. Qed.

(** The loop of [markCompleted] always has fuel enough. *)
Lemma commitLoop_fuel h t : fst (markCompleted h t) ≠ OutOfFuel.
Proof.
  destruct (markCompleted h t) as [c t'] eqn:E.
  apply markCompleted_flushed in E as [k Hk]. exact (fl_fuel _ _ _ _ Hk).
Qed.

Lemma markAll_snoc hs h t :
  markAll (hs ++ [h]) t = snd (markCompleted h (markAll hs t)).
Proof. unfold markAll. by rewrite fold_left_app. Qed.


Lemma initTracker_tracked s d0 : tracked s d0 [] (initTracker s d0).
Proof.
  split; simpl.
  - lia.
  - intros j ?; lia.
  - set_solver.
  - set_solver.
  - by rewrite Z.sub_diag, app_nil_r.
  - by case_decide.
  - done.
  - intros _ j Hj. by apply elem_of_nil in Hj.
Qed.

Lemma markCompleted_tracked s d0 hs h t :
  tracked s d0 hs t → tracked s d0 (hs ++ [h]) (snd (markCompleted h t)).
Proof.
  intros [Hs Hp Hpe Hex Hl Hla Hre Hal].
  destruct (markCompleted h t) as [c t'] eqn:E. simpl.
  apply markCompleted_flushed in E as [k [? Hc Hfp Hfl Hfla Hfex _ Hsub Hkeep Hno _ Hfre]].
  simpl in *. split.
  - lia.
  - intros j Hj. rewrite elem_of_app. destruct (decide (j < nextToCommit t)).
    + left. apply Hp; lia.
    + specialize (Hfp j). rewrite elem_of_union, elem_of_singleton in Hfp.
      destruct Hfp as [->|]; [lia|right; left|left; by apply Hpe].
  - intros j Hj. apply Hsub in Hj. rewrite elem_of_app.
    apply elem_of_union in Hj as [Hj|Hj]; [right|left; by apply Hpe].
    apply elem_of_singleton in Hj as ->. left.
  - done.
  - rewrite Hfl, Hl, <- app_assoc. f_equal.
    replace (nextToCommit t' - s) with ((nextToCommit t - s) + k) by lia.
    rewrite seqZ_app by lia. do 2 f_equal. lia.
  - rewrite Hfla, Hla. repeat case_decide; try lia; try done; f_equal; lia.
  - intros Hr. by apply Hfre, Hre.
  - intros Hr j Hj Hge. destruct (Hfre (Hre Hr)) as [-> _].
    apply (Hno eq_refl). split; [|lia].
    apply elem_of_app in Hj as [Hj|Hj].
    + apply elem_of_union_r, Hal; [done..|lia].
    + apply list_elem_of_singleton in Hj as ->. set_solver.
Qed.

Lemma markAll_tracked s d0 hs : tracked s d0 hs (markAll hs (initTracker s d0)).
Proof.
  induction hs as [|h hs IH] using rev_ind.
  - apply initTracker_tracked.
  - rewrite markAll_snoc. by apply markCompleted_tracked.
Qed.

(** ** The commit tracker under arbitrary series of calls *)

Lemma seqZ_stepsByOne m n : stepsByOne (seqZ m n).
Proof.
  intros i a b Ha Hb. apply lookup_seqZ in Ha as [-> _], Hb as [-> _]. lia.
Qed.

Lemma seqZ_strictlyIncreasing m n : strictlyIncreasing (seqZ m n).
Proof.
  intros i j a b Hij Ha Hb. apply lookup_seqZ in Ha as [-> _], Hb as [-> _]. lia.
Qed.

(** With a reliable store the cursor stands one past the longest complete
    prefix. *)
Lemma tracked_cursor s d0 hs t k :
  tracked s d0 hs t → reliable d0 →
  s ≤ k → (∀ j, s ≤ j ≤ k → j ∈ hs) → k + 1 ∉ hs →
  nextToCommit t = k + 1.
Proof.
  intros [Hs Hp _ Hex _ _ _ Hal] Hr Hk Hin Hout.
  destruct (decide (nextToCommit t ≤ k)) as [Hle|Hgt].
  - exfalso. apply Hex, Hal; [done| |lia]. apply Hin. lia.
  - destruct (decide (nextToCommit t = k + 1)) as [|Hne]; [done|].
    exfalso. apply Hout, Hp. lia.
Qed.



(** ** The height allocator *)

Lemma heightQueue_seqZ s e : heightQueue s e = seqZ s (e - s + 1).
Proof.
  unfold heightQueue, seqZ.
  replace (Z.to_nat (Z.max (e - s + 1) 0)) with (Z.to_nat (e - s + 1)) by lia.
  apply map_ext. intros i. lia.
Qed.

Lemma drain_all n : ∀ q, (length q ≤ n)%nat →
  drain n q = ((Some <$> q) ++ replicate (n - length q) None, []).
Proof.
  induction n as [|n IH]; intros q Hq.
  - destruct q; simpl in *; [done|lia].
  - destruct q as [|h q]; simpl in *.
    + rewrite (IH []) by (simpl; lia). simpl. by rewrite Nat.sub_0_r.
    + rewrite (IH q) by lia. done.
Qed.

Lemma issued_app rs1 rs2 : issued (rs1 ++ rs2) = issued rs1 ++ issued rs2.
Proof. unfold issued. apply omap_app. Qed.

Lemma issued_Some (q : list Z) : issued (Some <$> q) = q.
Proof. induction q as [|h q IH]; [done|]. unfold issued in *. simpl. by f_equal. Qed.

Lemma issued_None n : issued (replicate n None) = [].
Proof. induction n; [done|]. unfold issued in *. by simpl. Qed.

(** C3 - No double allocation.  [n] calls of [getNextHeight] on the queue
    of the range [s..e], [n] at least the length of the range: the calls
    return [s], [s+1], ..., [e] in this order and then [null] every time; so
    the heights issued are those of the range, each once, and the queue
    ends empty, where a further call returns [null] again. *)
Theorem no_double_allocation (s e : Z) (n : nat) :
  s ≤ e → (Z.to_nat (e - s + 1) ≤ n)%nat →
  let rs := fst (drain n (heightQueue s e)) in
  rs = (Some <$> seqZ s (e - s + 1)) ++ replicate (n - Z.to_nat (e - s + 1)) None ∧
  issued rs = seqZ s (e - s + 1) ∧
  NoDup (issued rs) ∧
  (∀ h, h ∈ issued rs ↔ s ≤ h ≤ e) ∧
  snd (drain n (heightQueue s e)) = [] ∧
  getNextHeight [] = (None, []).
Proof.
  intros Hse Hn rs. subst rs.
  rewrite heightQueue_seqZ, drain_all by (rewrite length_seqZ; lia). simpl.
  rewrite length_seqZ, issued_app, issued_Some, issued_None, app_nil_r.
  split; [done|]. split; [done|]. split; [apply NoDup_seqZ|].
  split; [|done]. intros h. rewrite elem_of_seqZ. lia.
Qed.

Lemma no_double_allocation_witness :
  fst (drain 8 (heightQueue 100 105)) =
  [Some 100; Some 101; Some 102; Some 103; Some 104; Some 105; None; None].
Proof.
  apply (no_double_allocation 100 105 8); [lia|vm_compute; lia].
Defined.

(** ** The transitions of [runScan] *)

Lemma worker_stepped o i ev w w' : worker o i ev w = Some w' ↔ stepped o i w ev w'.
Proof.
  split.
  - unfold worker. destruct (workers w !! i) as [[h b|h b|h b c|h b|]|] eqn:Hw; [| | | |done..].
    + destruct ev; intros [= <-]; by econstructor.
    + destruct ev; try done. unfold runExclusive.
      destruct (mutexQueue w) as [|j waiting] eqn:Hq; [done|].
      case_decide as Hj; [subst j|done].
      destruct (markCompleted h (tracker w)) as [[] t'] eqn:Hm; [| |done];
        intros [= <-]; by econstructor.
    + destruct ev; try done. destruct c; [| |done].
      * destruct (nextJob o (queue w)) as [ws q'] eqn:Hn. intros [= <-].
        replace ws with (nextJob o (queue w)).1 by (by rewrite Hn).
        replace q' with (nextJob o (queue w)).2 by (by rewrite Hn).
        by econstructor.
      * intros [= <-]. by econstructor.
    + destruct ev; try done. intros [= <-]. by econstructor.
  - intros H. unfold worker.
    destruct H as [h b Hw|h b Hw|h b Hw|h b c t' waiting Hw Hq Hm|h b Hw|h b Hw|h b Hw];
      rewrite Hw; try done.
    + rewrite Hq. simpl. rewrite decide_True by done. rewrite Hm.
      pose proof (commitLoop_fuel h (tracker w)) as Hfuel. rewrite Hm in Hfuel.
      by destruct c.
    + by destruct (nextJob o (queue w)).
Qed.

(** Case analysis on a transition of a worker. *)
Ltac stepped_cases H :=
  apply worker_stepped in H;
  destruct H as [h b Hw|h b Hw|h b Hw|h b c t' waiting Hw Hq Hm|h b Hw|h b Hw|h b Hw];
  simpl.

(** Only the commit transition touches the tracker, and it does so through
    [markCompleted] alone. *)
Lemma worker_tracker o i ev w w' :
  worker o i ev w = Some w' →
  (ev ≠ Commit ∧ tracker w' = tracker w) ∨
  (∃ h b, ev = Commit ∧ workers w !! i = Some (Committing h b) ∧
          tracker w' = snd (markCompleted h (tracker w))).
Proof.
  intros H. stepped_cases H; try (left; split; [discriminate|reflexivity]).
  right. exists h, b. by rewrite Hm.
Qed.

Lemma markAll_cons h hs t : markAll (h :: hs) t = markAll hs (snd (markCompleted h t)).
Proof. reflexivity. Qed.

Lemma nextJob_not_committing o q h b : (nextJob o q).1 ≠ Committing h b.
Proof. unfold nextJob. by destruct (getNextHeight q) as [[?|] ?]. Qed.

Lemma sunk_insert (ws : list wstate) (sc sc' : list (Z * completion)) (i : nat) X :
  (∀ (j : nat) h b, ws !! j = Some (Committing h b) → (h, Normal) ∈ sc) →
  (∀ x, x ∈ sc → x ∈ sc') →
  (∀ h b, X = Committing h b → (h, Normal) ∈ sc') →
  ∀ (j : nat) h b, <[i := X]> ws !! j = Some (Committing h b) → (h, Normal) ∈ sc'.
Proof.
  intros Hs Hsub HX j h b Hj. destruct (decide (i = j)) as [->|Hne].
  - apply list_lookup_insert_Some in Hj as [(_ & Hj & _)|[? _]]; [|done].
    by eapply HX.
  - rewrite list_lookup_insert_ne in Hj by done. eapply Hsub, Hs, Hj.
Qed.

Lemma worker_sunk o i ev w w' :
  worker o i ev w = Some w' → sunk w →
  sunk w' ∧ (∀ h, processed h w → processed h w').
Proof.
  intros H Hs. unfold sunk, processed in *.
  stepped_cases H; (split; [eapply sunk_insert; [exact Hs|..]|]);
    try (intros ? ?; done); try (intros ? ? ?; discriminate);
    try (intros ? ?; apply elem_of_app; by left).
  - intros h' b' [= <- <-]. apply elem_of_app. right. left.
  - intros h' b' E. by apply nextJob_not_committing in E.
Qed.

(** A schedule makes a series of [markCompleted] calls, each for a height
    the sink has processed. *)
Lemma exec_markAll o sched : ∀ w w',
  exec o sched w = Some w' → sunk w →
  sunk w' ∧ (∀ h, processed h w → processed h w') ∧
  ∃ hs, tracker w' = markAll hs (tracker w) ∧ ∀ h, h ∈ hs → processed h w'.
Proof.
  induction sched as [|[i ev] sched IH]; intros w w'; simpl.
  - intros [= <-] Hs. repeat split; try done. exists []. split; [done|].
    intros h Hh. by apply elem_of_nil in Hh.
  - destruct (worker o i ev w) as [w1|] eqn:Hst; [|done]. intros Hex Hs.
    destruct (worker_sunk _ _ _ _ _ Hst Hs) as [Hs1 Hmono1].
    destruct (IH _ _ Hex Hs1) as (Hs' & Hmono & hs & Ht & Hhs).
    split; [done|]. split; [by intros h ?; apply Hmono, Hmono1|].
    destruct (worker_tracker _ _ _ _ _ Hst) as [[_ Htr]|(h & b & _ & Hw & Htr)].
    + exists hs. by rewrite Ht, Htr.
    + exists (h :: hs). rewrite markAll_cons, Ht, Htr. split; [done|].
      intros h' Hh'. apply elem_of_cons in Hh' as [->|Hh']; [|by apply Hhs].
      apply Hmono, Hmono1. by eapply Hs.
Qed.


Lemma spawn_not_committing o n : ∀ q (i : nat) h b,
  (spawn o n q).1 !! i ≠ Some (Committing h b).
Proof.
  induction n as [|n IH]; intros q i h b; simpl; [done|].
  destruct (nextJob o q) as [ws q1] eqn:Hn.
  specialize (IH q1). destruct (spawn o n q1) as [rest q2]. simpl in *.
  destruct i as [|i]; simpl; [|apply IH].
  intros [= ->]. by apply (nextJob_not_committing o q h b); rewrite Hn.
Qed.

Lemma initWorld_fields o d :
  let s := scanStart (start o) (getLastProcessedBlockHeight d) in
  let sp := spawn o (Z.to_nat (blockConcurrency o)) (heightQueue s (end_ o)) in
  initWorld o d = mkWorld sp.1 sp.2 (initTracker s d) [] [] [].
Proof. intros s sp. unfold initWorld. fold s. fold sp. by destruct sp. Qed.

Lemma initWorld_sunk o d : sunk (initWorld o d).
Proof.
  rewrite initWorld_fields. intros i h b Hi. simpl in Hi.
  by apply spawn_not_committing in Hi.
Qed.

(** The tracker of a run, at any point, is the tracker after some series of
    [markCompleted] calls for processed heights. *)
Lemma runScan_markAll o d sched w :
  exec o sched (initWorld o d) = Some w →
  ∃ hs, tracker w = markAll hs (initTracker (scanStart (start o) (getLastProcessedBlockHeight d)) d) ∧
        ∀ h, h ∈ hs → processed h w.
Proof.
  intros H. apply exec_markAll in H as (_ & _ & hs & Ht & Hhs); [|apply initWorld_sunk].
  exists hs. split; [|done]. rewrite Ht. by rewrite initWorld_fields.
Qed.

(** ** Start resolution *)

Lemma scanStart_ge start (d : Db) c :
  getLastProcessedBlockHeight d = Some c →
  c ≤ scanStart start (getLastProcessedBlockHeight d).
Proof. intros ->. unfold scanStart. lia. Qed.

Lemma tracked_ckpt_le s d0 hs t :
  tracked s d0 hs t →
  (∀ c, lastProcessed d0 = Some c → c ≤ s) →
  ckpt_le (lastProcessed d0) (lastProcessed (db t)).
Proof.
  intros Ht Hc. rewrite (tr_last _ _ _ _ Ht). pose proof (tr_start _ _ _ _ Ht).
  unfold ckpt_le. destruct (lastProcessed d0) as [c|] eqn:E; [|done].
  case_decide; [lia|]. specialize (Hc c eq_refl). lia.
Qed.

(** C4 - Start resolution.  The scan starts at [max(start, c)] when the
    store holds a checkpoint [c] and at [start] when it holds none; the
    tracker and the queue of the run start there; and whatever the schedule,
    every value the run writes to the store is at least [c], as is the
    checkpoint it leaves. *)
Theorem start_resolution (o : RunScanOptions) (d : Db) :
  let s := scanStart (start o) (getLastProcessedBlockHeight d) in
  (∀ c, getLastProcessedBlockHeight d = Some c → s = Z.max (start o) c) ∧
  (getLastProcessedBlockHeight d = None → s = start o) ∧
  tracker (initWorld o d) = initTracker s d ∧
  (∀ sched w c,
     exec o sched (initWorld o d) = Some w →
     getLastProcessedBlockHeight d = Some c →
     ∃ ws, writeLog (db (tracker w)) = writeLog d ++ ws ∧
           (∀ v, v ∈ ws → c ≤ v) ∧
           ckpt_le (Some c) (lastProcessed (db (tracker w)))).
Proof.
  intros s. repeat split.
  - intros c Hc. subst s. by rewrite Hc.
  - intros Hc. subst s. rewrite Hc. unfold scanStart. lia.
  - by rewrite initWorld_fields.
  - intros sched w c Hex Hc.
    pose proof (scanStart_ge (start o) d c Hc) as Hge. fold s in Hge.
    apply runScan_markAll in Hex as (hs & Ht & _). fold s in Ht.
    pose proof (markAll_tracked s d hs) as Htr. rewrite <- Ht in Htr.
    exists (seqZ s (nextToCommit (tracker w) - s)). split; [apply (tr_log _ _ _ _ Htr)|].
    split.
    + intros v Hv. apply elem_of_seqZ in Hv. lia.
    + unfold getLastProcessedBlockHeight in Hc. rewrite <- Hc.
      apply (tracked_ckpt_le _ _ _ _ Htr). intros c' Hc'. rewrite Hc in Hc'.
      by injection Hc' as <-.
Qed.

(** A run asked to start at 90 over a store that holds the checkpoint 100
    starts at 100 and writes 100 and 101. *)
Lemma start_resolution_witness :
  ∃ ws, writeLog (db (tracker
          (mkWorld [Finished] [] (mkTracker 102 ∅ (mkDb (Some 101) [7; 100; 101] [])) []
                   [(100, Normal); (101, Normal)] []))) = [7] ++ ws ∧
        (∀ v, v ∈ ws → 100 ≤ v) ∧
        ckpt_le (Some 100) (Some 101).
Proof.
  pose proof (start_resolution (mkOptions 90 101 1 1000 10000) (mkDb (Some 100) [7] []))
    as H.
  cbv zeta in H. destruct H as (_ & _ & _ & H).
  apply (H [(0%nat, RpcOk); (0%nat, Commit); (0%nat, Resume);
            (0%nat, RpcOk); (0%nat, Commit); (0%nat, Resume)]).
  - vm_compute. reflexivity.
  - reflexivity.
Defined.

(** ** Duplicate completion notices *)

Lemma commitLoop_idle fuel t :
  nextToCommit t ∉ completedHeights t → commitLoop fuel t = (Normal, t).
Proof. intros H. destruct fuel; simpl; by case_decide. Qed.

Lemma markCompleted_below h t :
  h < nextToCommit t → nextToCommit t ∉ completedHeights t →
  markCompleted h t =
    (Normal, mkTracker (nextToCommit t) ({[h]} ∪ completedHeights t) (db t)).
Proof.
  intros Hlt Hout. unfold markCompleted. apply commitLoop_idle. simpl.
  rewrite elem_of_union, elem_of_singleton. intros [?|?]; [lia|done].
Qed.

Lemma markAll_pending s d0 e hs :
  reliable d0 → NoDup hs → (∀ x, x ∈ hs → s ≤ x ≤ e) →
  pendingInvariant e (markAll hs (initTracker s d0)).
Proof.
  intros Hr. induction hs as [|h hs IH] using rev_ind; intros Hnd Hrange.
  - intros j Hj. simpl in Hj. by apply not_elem_of_empty in Hj.
  - apply NoDup_app in Hnd as (Hnd & Hfresh & _).
    assert (h ∉ hs) as Hh by (intros ?; eapply Hfresh; [done|left]).
    assert (pendingInvariant e (markAll hs (initTracker s d0))) as Hpe.
    { apply IH; [done|]. intros x Hx. apply Hrange, elem_of_app. by left. }
    pose proof (markAll_tracked s d0 hs) as Ht.
    pose proof (markAll_tracked s d0 (hs ++ [h])) as Ht'.
    rewrite markAll_snoc in *.
    destruct (markCompleted h (markAll hs (initTracker s d0))) as [c t'] eqn:E.
    apply markCompleted_flushed in E as [k Hk]. simpl in *.
    destruct (fl_reliable _ _ _ _ Hk (tr_reliable _ _ _ _ Ht Hr)) as [-> _].
    intros j Hj. split; [|apply Hrange, (tr_pending _ _ _ _ Ht' j Hj)].
    pose proof (fl_exit _ _ _ _ Hk) as Hex.
    apply (fl_normal _ _ _ _ Hk eq_refl) in Hj as [Hj Hnot]. simpl in *.
    assert (j ≠ nextToCommit t') by (intros ->; apply Hex, (fl_normal _ _ _ _ Hk eq_refl); done).
    apply elem_of_union in Hj as [Hj|Hj].
    + apply elem_of_singleton in Hj as ->.
      destruct (decide (h < nextToCommit (markAll hs (initTracker s d0)))) as [Hlt|]; [|lia].
      exfalso. apply Hh, (tr_prefix _ _ _ _ Ht). split; [|done].
      apply Hrange, elem_of_app. right. left.
    + apply Hpe in Hj. lia.
Qed.

(** C5 (as amended) - A completion notice for a height below the commit
    cursor moves neither the cursor nor the checkpoint and calls the store
    not at all, but it does put the height into the pending set, where it
    stays.  The invariant of the pending set (members above the cursor and
    at most the end of the run) holds after every series of notices within
    the range in which no height occurs twice, the store being reliable. *)
Theorem duplicate_completion (s : Z) (d0 : Db) (hs : list Z) (h : Z) :
  let t := markAll hs (initTracker s d0) in
  (h < nextToCommit t →
   markCompleted h t =
     (Normal, mkTracker (nextToCommit t) ({[h]} ∪ completedHeights t) (db t))) ∧
  (∀ e, reliable d0 → NoDup hs → (∀ x, x ∈ hs → s ≤ x ≤ e) → pendingInvariant e t).
Proof.
  intros t. split.
  - intros Hlt. apply markCompleted_below; [done|].
    apply (tr_exit _ _ _ _ (markAll_tracked s d0 hs)).
  - intros e. apply markAll_pending.
Qed.

Lemma duplicate_completion_witness :
  markCompleted 5 (markAll [5; 6] (initTracker 5 (mkDb None [] []))) =
    (Normal, mkTracker 7 {[5]} (mkDb (Some 6) [5; 6] [])).
Proof.
  etrans; [apply (duplicate_completion 5 (mkDb None [] []) [5; 6] 5); vm_compute; reflexivity|].
  vm_compute. reflexivity.
Defined.

(** C5 (as stated) fails: after 5 has been flushed, a second notice for 5
    changes the tracker, and the pending set then holds 5, which is below
    the cursor 6. *)
Lemma duplicate_completion_counterexample :
  let t := markAll [5] (initTracker 5 (mkDb None [] [])) in
  5 < nextToCommit t ∧ pendingInvariant 9 t ∧
  snd (markCompleted 5 t) ≠ t ∧ ¬ pendingInvariant 9 (snd (markCompleted 5 t)).
Proof.
  cbv zeta.
  assert (markAll [5] (initTracker 5 (mkDb None [] [])) =
          mkTracker 6 ∅ (mkDb (Some 5) [5] [])) as -> by (vm_compute; reflexivity).
  assert (markCompleted 5 (mkTracker 6 ∅ (mkDb (Some 5) [5] [])) =
          (Normal, mkTracker 6 {[5]} (mkDb (Some 5) [5] []))) as -> by (vm_compute; reflexivity).
  simpl. split; [lia|]. split; [|split].
  - intros j Hj. simpl in Hj. by apply not_elem_of_empty in Hj.
  - intros E. assert (5 ∈ (∅ : gset Z)) as Hin; [|by apply not_elem_of_empty in Hin].
    replace (∅ : gset Z) with (completedHeights (mkTracker 6 ∅ (mkDb (Some 5) [5] []))) by done.
    rewrite <- E. simpl. by apply elem_of_singleton.
  - intros Hinv. specialize (Hinv 5). simpl in Hinv.
    assert (6 < 5 ≤ 9) by (apply Hinv; by apply elem_of_singleton). lia.
Qed.

(** ** The commit cursor *)

Lemma flushed_ckpt_le t c t' k :
  flushed t c t' k →
  (∀ v, lastProcessed (db t) = Some v → v ≤ nextToCommit t) →
  ckpt_le (lastProcessed (db t)) (lastProcessed (db t')).
Proof.
  intros Hk Hv. rewrite (fl_last _ _ _ _ Hk).
  pose proof (fl_cursor _ _ _ _ Hk). pose proof (fl_nonneg _ _ _ _ Hk).
  unfold ckpt_le. destruct (lastProcessed (db t)) as [v|] eqn:E; [|done].
  case_decide; [lia|]. specialize (Hv v eq_refl). lia.
Qed.

(** C7 - Commit cursor monotonicity.  In a run (the scan start resolved
    from the store), after any series [hs] of completion notices: the values
    written so far are [s], [s+1], ..., one for each worker of the cursor from
    [s], each one more than the one before, hence strictly increasing; one
    more notice writes [k >= 0] further consecutive values and moves the
    cursor up by exactly [k]; the checkpoint never decreases, neither from the
    one found at the start nor from one notice to the next; and no transition
    of a worker other than the commit changes the tracker or the store. *)
Theorem commit_cursor_monotone (start : Z) (d0 : Db) (hs : list Z) (h : Z) :
  let s := scanStart start (getLastProcessedBlockHeight d0) in
  let t := markAll hs (initTracker s d0) in
  let t' := snd (markCompleted h t) in
  (∃ ws, writeLog (db t) = writeLog d0 ++ ws ∧
         nextToCommit t = s + Z.of_nat (length ws) ∧
         stepsByOne ws ∧ strictlyIncreasing ws ∧
         (∀ v, v ∈ ws → s ≤ v < nextToCommit t)) ∧
  (∃ k, 0 ≤ k ∧ nextToCommit t' = nextToCommit t + k ∧
        writeLog (db t') = writeLog (db t) ++ seqZ (nextToCommit t) k) ∧
  ckpt_le (lastProcessed d0) (lastProcessed (db t)) ∧
  ckpt_le (lastProcessed (db t)) (lastProcessed (db t')) ∧
  (∀ o i ev w w', worker o i ev w = Some w' → ev ≠ Commit → tracker w' = tracker w).
Proof.
  intros s t t'.
  pose proof (markAll_tracked s d0 hs) as Ht. fold t in Ht.
  pose proof (tr_start _ _ _ _ Ht) as Hs.
  assert (∀ c, lastProcessed d0 = Some c → c ≤ s) as Hc.
  { intros c Hc. by apply scanStart_ge. }
  destruct (markCompleted h t) as [c t1] eqn:E.
  apply markCompleted_flushed in E as [k Hk]. subst t'. simpl.
  split; [|split; [|split; [|split]]].
  - exists (seqZ s (nextToCommit t - s)).
    split; [apply (tr_log _ _ _ _ Ht)|].
    split; [rewrite length_seqZ; lia|].
    split; [apply seqZ_stepsByOne|]. split; [apply seqZ_strictlyIncreasing|].
    intros v Hv. apply elem_of_seqZ in Hv. lia.
  - exists k. split; [apply (fl_nonneg _ _ _ _ Hk)|].
    split; [apply (fl_cursor _ _ _ _ Hk)|apply (fl_log _ _ _ _ Hk)].
  - by apply (tracked_ckpt_le _ _ _ _ Ht).
  - apply (flushed_ckpt_le _ _ _ _ Hk). simpl. intros v Hv.
    rewrite (tr_last _ _ _ _ Ht) in Hv. case_decide.
    + apply Hc in Hv. lia.
    + injection Hv as <-. lia.
  - intros o i ev w w' Hst Hev.
    destruct (worker_tracker _ _ _ _ _ Hst) as [[_ ?]|(? & ? & ? & _)]; done.
Qed.

Lemma commit_cursor_monotone_witness :
  tracker (mkWorld [Sleeping 7 1000] [] (initTracker 7 (mkDb None [] [])) [] [] [(7, 1000)]) =
  tracker (mkWorld [Fetching 7 1000] [] (initTracker 7 (mkDb None [] [])) [] [] []).
Proof.
  pose proof (commit_cursor_monotone 7 (mkDb None [] []) [] 7) as H.
  cbv zeta in H. destruct H as (_ & _ & _ & _ & H).
  apply (H (mkOptions 7 7 1 1000 10000) 0%nat RpcFail); [reflexivity|discriminate].
Defined.

(** ** A failing checkpoint write *)





(** ** The empty range *)

Lemma heightQueue_empty s e : e < s → heightQueue s e = [].
Proof. intros H. rewrite heightQueue_seqZ. apply seqZ_nil. lia. Qed.

Lemma spawn_empty o n : spawn o n [] = (replicate n Finished, []).
Proof. induction n as [|n IH]; [done|]. simpl. by rewrite IH. Qed.

Lemma drain_empty n : drain n [] = (replicate n None, []).
Proof. induction n as [|n IH]; [done|]. simpl. by rewrite IH. Qed.

Lemma joined_replicate n q t mq sc sl :
  joined (mkWorld (replicate n Finished) q t mq sc sl) = Resolved.
Proof.
  unfold joined. simpl.
  replace (forallb isFinished (replicate n Finished)) with true; [done|].
  induction n; simpl; done.
Qed.

Lemma worker_all_finished o i ev w n :
  workers w = replicate n Finished → worker o i ev w = None.
Proof.
  intros Hw. unfold worker. rewrite Hw.
  destruct (replicate n Finished !! i) as [ws|] eqn:E; [|done].
  apply lookup_replicate in E as [-> _]. done.
Qed.

(** C8 - Empty range.  When the resolved start is above the end, the queue
    is empty from the beginning and every call of [getNextHeight] returns
    [null]; each of the [blockConcurrency] workers is created and returns at
    once; the event sink is not called, no worker sleeps, the tracker and the
    store stay as they were; the promise of [runScan] is fulfilled through
    the join over these workers; and no transition is enabled, so this is
    the only outcome. *)
Theorem empty_range (o : RunScanOptions) (d : Db) :
  let s := scanStart (start o) (getLastProcessedBlockHeight d) in
  let w := initWorld o d in
  end_ o < s →
  heightQueue s (end_ o) = [] ∧
  (∀ n, drain n (heightQueue s (end_ o)) = (replicate n None, [])) ∧
  workers w = replicate (Z.to_nat (blockConcurrency o)) Finished ∧
  queue w = [] ∧ mutexQueue w = [] ∧ sinkCalls w = [] ∧ sleeps w = [] ∧
  tracker w = initTracker s d ∧
  db (tracker w) = d ∧
  runScan o d [] = Some (Resolved, w) ∧
  (∀ i ev, worker o i ev w = None) ∧
  (∀ sched p w', runScan o d sched = Some (p, w') → sched = [] ∧ p = Resolved ∧ w' = w).
Proof.
  intros s w Hlt.
  assert (heightQueue s (end_ o) = []) as Hq by (by apply heightQueue_empty).
  assert (w = mkWorld (replicate (Z.to_nat (blockConcurrency o)) Finished) []
                      (initTracker s d) [] [] []) as Hw.
  { subst w. rewrite initWorld_fields. fold s. rewrite Hq, spawn_empty. done. }
  assert (∀ i ev, worker o i ev w = None) as Hstuck.
  { intros i ev. eapply worker_all_finished. by rewrite Hw. }
  assert (runScan o d [] = Some (Resolved, w)) as Hrun.
  { unfold runScan. simpl. fold w. f_equal. f_equal. rewrite Hw. apply joined_replicate. }
  split; [done|]. split; [intros n; rewrite Hq; apply drain_empty|].
  rewrite Hw at 1 2 3 4 5 6 7. simpl.
  repeat (split; [done|]).
  intros sched p w'. destruct sched as [|[i ev] sched].
  - rewrite Hrun. by intros [= <- <-].
  - unfold runScan. simpl. fold w. by rewrite Hstuck.
Qed.

(** A run over 10..9 with four workers. *)
Lemma empty_range_witness :
  runScan (mkOptions 10 9 4 1000 10000) (mkDb None [] []) [] =
    Some (Resolved, mkWorld [Finished; Finished; Finished; Finished] []
                            (initTracker 10 (mkDb None [] [])) [] [] []).
Proof.
  pose proof (empty_range (mkOptions 10 9 4 1000 10000) (mkDb None [] [])) as H.
  cbv zeta in H. destruct H as (_ & _ & _ & _ & _ & _ & _ & _ & _ & H & _).
  - vm_compute. reflexivity.
  - exact H.
Defined.

(** ** The naive consensus capture *)

(** C10 - Zero-height configuration rejection.  [main] throws the
    missing-configuration error, whatever the store and the schedule and
    before a worker exists, exactly when the start or the end height is
    unset, not numeric, or 0. *)
Theorem zero_height_rejected (c : CaptureConsensus.Config) (d : Db)
    (sched : list (nat * event)) :
  let bad v := v = CaptureConsensus.Unset ∨ v = CaptureConsensus.NotNumeric ∨
               v = CaptureConsensus.Numeral 0 in
  (bad (CaptureConsensus.CONSENSUS_START_HEIGHT c) ∨
   bad (CaptureConsensus.CONSENSUS_END_HEIGHT c) →
   CaptureConsensus.main c d sched = Some (CaptureConsensus.Threw CaptureConsensus.required)) ∧
  (CaptureConsensus.main c d sched = Some (CaptureConsensus.Threw CaptureConsensus.required) →
   bad (CaptureConsensus.CONSENSUS_START_HEIGHT c) ∨
   bad (CaptureConsensus.CONSENSUS_END_HEIGHT c)).
Proof.
  intros bad. unfold CaptureConsensus.main, CaptureConsensus.START, CaptureConsensus.END.
  destruct c as [vs ve rb rm bc]. simpl. split.
  - intros [ [-> | [-> | ->] ] | [-> | [-> | ->] ] ]; simpl; try done;
      destruct (CaptureConsensus.truthy (CaptureConsensus.Number vs)); done.
  - destruct vs as [| |zs]; simpl; try (intros _; left; unfold bad; tauto).
    destruct (Z.eqb_spec zs 0) as [->|Hs]; simpl; [intros _; left; unfold bad; tauto|].
    destruct ve as [| |ze]; simpl; try (intros _; right; unfold bad; tauto).
    destruct (Z.eqb_spec ze 0) as [->|He]; simpl; [intros _; right; unfold bad; tauto|].
    destruct (CaptureConsensus.spawn _ _ _) as [ws n].
    destruct (CaptureConsensus.exec _ _ _); done.
Qed.

Lemma zero_height_rejected_witness :
  CaptureConsensus.main
    (CaptureConsensus.mkConfig (CaptureConsensus.Numeral 0) (CaptureConsensus.Numeral 100)
                               1000 10000 8)
    (mkDb None [] []) [] =
  Some (CaptureConsensus.Threw CaptureConsensus.required).
Proof.
  apply (zero_height_rejected
           (CaptureConsensus.mkConfig (CaptureConsensus.Numeral 0)
                                      (CaptureConsensus.Numeral 100) 1000 10000 8)).
  left. right. right. reflexivity.
Defined.

(** C9 - Naive-variant checkpoint unsafety.  In a run of [runScan] every
    value written to the store is a height [v] such that the event sink has
    returned for every height from the start to [v], whatever the schedule.
    The naive script has a schedule without this property: with the range
    99..100 and two workers, the block source answers the worker that holds
    100 first; the checkpoint 100 is written while the event sink has not
    been called for 99; and a run resumed from this store would start at
    100. *)
Theorem naive_checkpoint_unsafe :
  (∀ o d sched w,
     exec o sched (initWorld o d) = Some w →
     ∃ ws, writeLog (db (tracker w)) = writeLog d ++ ws ∧
           ∀ v, v ∈ ws →
                ∀ j, scanStart (start o) (getLastProcessedBlockHeight d) ≤ j ≤ v →
                     processed j w) ∧
  (let c := CaptureConsensus.mkConfig (CaptureConsensus.Numeral 99)
                                      (CaptureConsensus.Numeral 100) 1000 10000 2 in
   let d := mkDb None [] [] in
   ∃ w, CaptureConsensus.main c d [(1%nat, RpcOk)] = Some (CaptureConsensus.Ran Pending w) ∧
        CaptureConsensus.workers w =
          [CaptureConsensus.Fetching 99 1000; CaptureConsensus.Finished] ∧
        writeLog (CaptureConsensus.db w) = [100] ∧
        lastProcessed (CaptureConsensus.db w) = Some 100 ∧
        CaptureConsensus.sinkCalls w = [(100, Normal)] ∧
        (∀ r, (99, r) ∉ CaptureConsensus.sinkCalls w) ∧
        scanStart 99 (getLastProcessedBlockHeight (CaptureConsensus.db w)) = 100).
Proof.
  split.
  - intros o d sched w Hex.
    apply runScan_markAll in Hex as (hs & Ht & Hhs).
    pose proof (markAll_tracked (scanStart (start o) (getLastProcessedBlockHeight d)) d hs)
      as Htr.
    rewrite <- Ht in Htr. eexists. split; [apply (tr_log _ _ _ _ Htr)|].
    intros v Hv j Hj. apply elem_of_seqZ in Hv.
    apply Hhs, (tr_prefix _ _ _ _ Htr). lia.
  - eexists. split; [vm_compute; reflexivity|]. simpl.
    repeat (split; [reflexivity|]). split; [|reflexivity].
    intros r Hr. apply list_elem_of_singleton in Hr. discriminate.
Qed.

Lemma naive_checkpoint_unsafe_witness :
  let w := mkWorld [Fetching 7 1000] [] (mkTracker 7 ∅ (mkDb (Some 6) [5; 6] [])) []
                   [(5, Normal); (6, Normal)] [] in
  ∃ ws, writeLog (db (tracker w)) = writeLog (mkDb None [] []) ++ ws ∧
        ∀ v, v ∈ ws →
             ∀ j, scanStart 5 (getLastProcessedBlockHeight (mkDb None [] [])) ≤ j ≤ v →
                  processed j w.
Proof.
  intros w.
  apply (proj1 naive_checkpoint_unsafe (mkOptions 5 7 1 1000 10000) (mkDb None [] [])
           [(0%nat, RpcOk); (0%nat, Commit); (0%nat, Resume);
            (0%nat, RpcOk); (0%nat, Commit); (0%nat, Resume)] w).
  vm_compute. reflexivity.
Defined.

(** ** Backoff *)

Lemma delaysOf_app h sl1 sl2 :
  delaysOf h (sl1 ++ sl2) = delaysOf h sl1 ++ delaysOf h sl2.
Proof. unfold delaysOf. by rewrite filter_app, map_app. Qed.

Lemma delaysOf_snoc_eq h b sl : delaysOf h (sl ++ [(h, b)]) = delaysOf h sl ++ [b].
Proof.
  rewrite delaysOf_app. f_equal. unfold delaysOf.
  rewrite filter_cons_True by done. done.
Qed.

Lemma delaysOf_snoc_ne h h' b sl : h' ≠ h → delaysOf h' (sl ++ [(h, b)]) = delaysOf h' sl.
Proof.
  intros Hne. rewrite delaysOf_app. unfold delaysOf at 2.
  rewrite filter_cons_False by (simpl; congruence). simpl. by rewrite app_nil_r.
Qed.

Section Backoff.

Context (o : RunScanOptions).

Lemma backoffSeq_S n : backoffSeq o (S n) = backoffSeq o n ++ [backoffAt o n].
Proof. unfold backoffSeq. by rewrite seq_S, map_app. Qed.

Lemma wellDelayed_ext sl sl' si :
  (∀ h, heightOf si = Some h → delaysOf h sl' = delaysOf h sl) →
  wellDelayed o sl si → wellDelayed o sl' si.
Proof.
  intros Hext. destruct si as [h b|h b|h b c|h b|]; simpl; [| | | |done];
    intros (n & Hn & Hb); exists n; (split; [|done]);
    by rewrite (Hext h eq_refl).
Qed.

Lemma wellDelayed_delays sl si h :
  heightOf si = Some h → wellDelayed o sl si → ∃ n, delaysOf h sl = backoffSeq o n.
Proof.
  destruct si as [h' b|h' b|h' b c|h' b|]; simpl; [| | | |done];
    intros [= ->] (n & Hn & _); eauto.
Qed.

(** A worker changes state and keeps its height. *)
Lemma pooled_update ws q sl sl' (i : nat) st st' h :
  pooled o ws q sl → ws !! i = Some st →
  heightOf st = Some h → heightOf st' = Some h →
  (∀ h', h' ≠ h → delaysOf h' sl' = delaysOf h' sl) →
  wellDelayed o sl' st' →
  pooled o (<[i := st']> ws) q sl'.
Proof.
  intros [Hu Hd Hn Hw Hq Hde] Hi Hh Hh' Hsl Hst'.
  assert (∀ (j : nat) sj, j ≠ i → ws !! j = Some sj → heightOf sj ≠ Some h) as Hother.
  { intros j sj Hne Hj E. apply Hne. by eapply Hu. }
  split.
  - intros i1 j1 si sj h1 Hi1 Hj1 Hsi Hsj.
    destruct (decide (i1 = i)) as [->|Hne1], (decide (j1 = i)) as [->|Hne2]; [done|..].
    + rewrite list_lookup_insert_ne in Hj1 by done.
      apply list_lookup_insert_Some in Hi1 as [(_ & <- & _)|[? _]]; [|done].
      exfalso. eapply Hother; [exact Hne2|exact Hj1|congruence].
    + rewrite list_lookup_insert_ne in Hi1 by done.
      apply list_lookup_insert_Some in Hj1 as [(_ & <- & _)|[? _]]; [|done].
      exfalso. eapply Hother; [exact Hne1|exact Hi1|congruence].
    + rewrite list_lookup_insert_ne in Hi1, Hj1 by done. by eapply Hu.
  - intros i1 si h1 Hi1 Hsi. destruct (decide (i1 = i)) as [->|Hne1].
    + apply list_lookup_insert_Some in Hi1 as [(_ & <- & _)|[? _]]; [|done].
      eapply Hd; [exact Hi|congruence].
    + rewrite list_lookup_insert_ne in Hi1 by done. by eapply Hd.
  - done.
  - intros i1 si Hi1. destruct (decide (i1 = i)) as [->|Hne1].
    + apply list_lookup_insert_Some in Hi1 as [(_ & <- & _)|[? _]]; done.
    + rewrite list_lookup_insert_ne in Hi1 by done.
      eapply wellDelayed_ext; [|by eapply Hw].
      intros h1 Hh1. apply Hsl. intros ->. by eapply Hother.
  - intros h1 Hh1. rewrite Hsl; [by apply Hq|]. intros ->. by eapply Hd.
  - intros h1. destruct (decide (h1 = h)) as [->|Hne].
    + by eapply wellDelayed_delays.
    + rewrite Hsl by done. apply Hde.
Qed.

(** A worker is through with its height and takes the next one. *)
Lemma pooled_next ws q sl (i : nat) :
  pooled o ws q sl →
  pooled o (<[i := (nextJob o q).1]> ws) (nextJob o q).2 sl.
Proof.
  intros [Hu Hd Hn Hw Hq Hde]. unfold nextJob.
  destruct q as [|h q]; simpl.
  - split; try done.
    + intros i1 j1 si sj h1 Hi1 Hj1 Hsi Hsj.
      apply list_lookup_insert_Some in Hi1 as [(-> & <- & _)|[? Hi1]]; [done|].
      apply list_lookup_insert_Some in Hj1 as [(-> & <- & _)|[? Hj1]]; [done|].
      by eapply Hu.
    + intros i1 si h1 _ _. apply not_elem_of_nil.
    + intros i1 si Hi1.
      apply list_lookup_insert_Some in Hi1 as [(-> & <- & _)|[? Hi1]]; [done|].
      by eapply Hw.
  - apply NoDup_cons in Hn as [Hhq Hn].
    assert (∀ (j : nat) sj, ws !! j = Some sj → heightOf sj ≠ Some h) as Hfresh.
    { intros j sj Hj E. eapply Hd; [exact Hj|exact E|left]. }
    split.
    + intros i1 j1 si sj h1 Hi1 Hj1 Hsi Hsj.
      apply list_lookup_insert_Some in Hi1 as [(-> & <- & _)|[? Hi1]];
        apply list_lookup_insert_Some in Hj1 as [(-> & <- & _)|[? Hj1]]; try done.
      * simpl in Hsi. injection Hsi as <-. by apply Hfresh in Hj1.
      * simpl in Hsj. injection Hsj as <-. by apply Hfresh in Hi1.
      * by eapply Hu.
    + intros i1 si h1 Hi1 Hsi.
      apply list_lookup_insert_Some in Hi1 as [(-> & <- & _)|[? Hi1]].
      * simpl in Hsi. by injection Hsi as <-.
      * intros Hin. eapply Hd; [exact Hi1|exact Hsi|by right].
    + done.
    + intros i1 si Hi1.
      apply list_lookup_insert_Some in Hi1 as [(-> & <- & _)|[? Hi1]]; [|by eapply Hw].
      exists 0%nat. split; [|done]. apply Hq. left.
    + intros h1 Hh1. apply Hq. by right.
    + done.
Qed.

Lemma worker_pooled i ev w w' :
  worker o i ev w = Some w' →
  pooled o (workers w) (queue w) (sleeps w) →
  pooled o (workers w') (queue w') (sleeps w').
Proof.
  intros H Hp. stepped_cases H.
  - destruct (po_worker _ _ _ _ Hp _ _ Hw) as (n & Hn & Hb).
    eapply pooled_update; [done..| |].
    + intros h' Hne. by apply delaysOf_snoc_ne.
    + exists n. by rewrite delaysOf_snoc_eq, backoffSeq_S, Hn, Hb.
  - destruct (po_worker _ _ _ _ Hp _ _ Hw) as (n & Hn & Hb).
    eapply pooled_update; [done..| |].
    + intros h' Hne. by apply delaysOf_snoc_ne.
    + exists n. by rewrite delaysOf_snoc_eq, backoffSeq_S, Hn, Hb.
  - eapply pooled_update; [done..|]. exact (po_worker _ _ _ _ Hp _ _ Hw).
  - eapply pooled_update; [done..|]. exact (po_worker _ _ _ _ Hp _ _ Hw).
  - by apply pooled_next.
  - destruct (po_worker _ _ _ _ Hp _ _ Hw) as (n & Hn & Hb).
    eapply pooled_update; [done..| |].
    + intros h' Hne. by apply delaysOf_snoc_ne.
    + exists n. by rewrite delaysOf_snoc_eq, backoffSeq_S, Hn, Hb.
  - destruct (po_worker _ _ _ _ Hp _ _ Hw) as (n & Hn & Hb).
    eapply pooled_update; [done..|].
    exists (S n). split; [done|]. simpl. by rewrite Hb.
Qed.

Lemma exec_pooled sched : ∀ w w',
  exec o sched w = Some w' →
  pooled o (workers w) (queue w) (sleeps w) →
  pooled o (workers w') (queue w') (sleeps w').
Proof.
  induction sched as [|[i ev] sched IH]; intros w w'; simpl.
  - by intros [= <-].
  - destruct (worker o i ev w) as [w1|] eqn:Hst; [|done]. intros Hex Hp.
    eapply IH; [exact Hex|]. by eapply worker_pooled.
Qed.

(** The pool as created: the first heights of the queue, one per worker,
    and workers that returned at once if the queue was shorter. *)
Lemma spawn_closed n : ∀ q,
  spawn o n q =
    (((λ h, Fetching h (retryBackoffMs o)) <$> take n q) ++
       replicate (n - length q) Finished,
     drop n q).
Proof.
  induction n as [|n IH]; intros q; [done|].
  simpl. unfold nextJob. destruct q as [|h q]; simpl.
  - by rewrite spawn_empty.
  - by rewrite (IH q).
Qed.

Lemma spawn_lookup n q (i : nat) si h :
  (spawn o n q).1 !! i = Some si → heightOf si = Some h →
  q !! i = Some h ∧ (i < n)%nat.
Proof.
  rewrite spawn_closed. simpl. intros Hi Hh.
  apply lookup_app_Some in Hi as [Hi|[_ Hi]].
  - apply list_lookup_fmap_Some in Hi as (h' & -> & Hi). simpl in Hh.
    injection Hh as ->. apply lookup_take_Some in Hi. done.
  - apply lookup_replicate in Hi as [-> _]. done.
Qed.

Lemma spawn_pooled n q : NoDup q → pooled o (spawn o n q).1 (spawn o n q).2 [].
Proof.
  intros Hnd. split.
  - intros i j si sj h Hi Hj Hsi Hsj.
    destruct (spawn_lookup _ _ _ _ _ Hi Hsi) as [Hqi _].
    destruct (spawn_lookup _ _ _ _ _ Hj Hsj) as [Hqj _].
    by eapply NoDup_lookup.
  - intros i si h Hi Hsi Hin.
    destruct (spawn_lookup _ _ _ _ _ Hi Hsi) as [Hqi Hlt].
    rewrite spawn_closed in Hin. simpl in Hin.
    apply list_elem_of_lookup in Hin as [k Hk]. rewrite lookup_drop in Hk.
    assert (i = (n + k)%nat) by (by eapply NoDup_lookup). lia.
  - rewrite spawn_closed. simpl. eapply sublist_NoDup; [exact Hnd|apply sublist_drop].
  - intros i si Hi. rewrite spawn_closed in Hi. simpl in Hi.
    apply lookup_app_Some in Hi as [Hi|[_ Hi]].
    + apply list_lookup_fmap_Some in Hi as (h' & -> & Hi). by exists 0%nat.
    + apply lookup_replicate in Hi as [-> _]. done.
  - done.
  - intros h. by exists 0%nat.
Qed.

Lemma initWorld_pooled d :
  pooled o (workers (initWorld o d)) (queue (initWorld o d)) (sleeps (initWorld o d)).
Proof.
  rewrite initWorld_fields. simpl. apply spawn_pooled.
  rewrite heightQueue_seqZ. apply NoDup_seqZ.
Qed.

Lemma backoffAt_closed n :
  retryBackoffMs o ≤ retryMaxBackoffMs o → 0 ≤ retryMaxBackoffMs o →
  backoffAt o n = Z.min (retryBackoffMs o * 2 ^ Z.of_nat n) (retryMaxBackoffMs o).
Proof.
  intros Hle Hmax. induction n as [|n IH].
  - simpl. lia.
  - simpl backoffAt. rewrite IH.
    replace (Z.of_nat (S n)) with (Z.succ (Z.of_nat n)) by lia.
    rewrite Z.pow_succ_r by lia. lia.
Qed.

Lemma backoffSeq_length n : length (backoffSeq o n) = n.
Proof. unfold backoffSeq. by rewrite length_map, length_seq. Qed.

End Backoff.

(** C6 (as amended) - Backoff growth and reset.  At any point of a run the
    sleeps for a height [h], in order, are the first delays of the backoff
    sequence: the first is the base delay as configured, not capped, each
    later one is the smaller of twice the one before and the maximum; a
    worker that holds [h] carries the next delay of that sequence; a worker
    that takes a new height starts again from the base delay.  When the base
    delay is at most the maximum and the maximum is not negative, the [n]-th
    delay is [min(base * 2^n, max)]. *)
Theorem backoff_growth_and_reset (o : RunScanOptions) (d : Db)
    (sched : list (nat * event)) (w : World) (h : Z) :
  exec o sched (initWorld o d) = Some w →
  (∃ n, delaysOf h (sleeps w) = backoffSeq o n) ∧
  (∀ (i : nat) b,
     workers w !! i = Some (Fetching h b) ∨ workers w !! i = Some (Committing h b) ∨
     (∃ c, workers w !! i = Some (Committed h b c)) →
     b = backoffAt o (length (delaysOf h (sleeps w)))) ∧
  backoffAt o 0 = retryBackoffMs o ∧
  (∀ n, backoffAt o (S n) = Z.min (backoffAt o n * 2) (retryMaxBackoffMs o)) ∧
  (∀ q h' q', getNextHeight q = (Some h', q') →
              nextJob o q = (Fetching h' (retryBackoffMs o), q')) ∧
  (retryBackoffMs o ≤ retryMaxBackoffMs o → 0 ≤ retryMaxBackoffMs o →
   ∀ n, backoffAt o n = Z.min (retryBackoffMs o * 2 ^ Z.of_nat n) (retryMaxBackoffMs o)).
Proof.
  intros Hex.
  pose proof (exec_pooled _ _ _ _ Hex (initWorld_pooled o d)) as Hp.
  split; [apply (po_delays _ _ _ _ Hp)|].
  split.
  { intros i b [Hi|[Hi|[c Hi]]]; destruct (po_worker _ _ _ _ Hp _ _ Hi) as (n & Hn & ->);
      by rewrite Hn, backoffSeq_length. }
  split; [done|]. split; [done|]. split.
  { intros q h' q' Hq. unfold nextJob. by rewrite Hq. }
  intros Hle Hmax n. by apply backoffAt_closed.
Qed.

(** Height 100 fails three times and then succeeds; height 101 fails
    once. *)
Lemma backoff_growth_and_reset_witness :
  let o := mkOptions 100 101 1 1000 10000 in
  let w := mkWorld [Sleeping 101 1000] [] (mkTracker 101 ∅ (mkDb (Some 100) [100] [])) []
                   [(100, Normal); (101, Thrown)]
                   [(100, 1000); (100, 2000); (100, 4000); (101, 1000)] in
  (∃ n, delaysOf 100 (sleeps w) = backoffSeq o n) ∧
  (∃ n, delaysOf 101 (sleeps w) = backoffSeq o n) ∧
  backoffAt o 5 = Z.min (1000 * 2 ^ 5) 10000.
Proof.
  intros o w.
  assert (exec o [(0%nat, RpcFail); (0%nat, Wake); (0%nat, RpcFail); (0%nat, Wake);
                  (0%nat, RpcFail); (0%nat, Wake); (0%nat, RpcOk); (0%nat, Commit);
                  (0%nat, Resume); (0%nat, SinkFail)]
               (initWorld o (mkDb None [] [])) = Some w) as Hex
    by (vm_compute; reflexivity).
  split; [exact (proj1 (backoff_growth_and_reset _ _ _ _ 100 Hex))|].
  split; [exact (proj1 (backoff_growth_and_reset _ _ _ _ 101 Hex))|].
  destruct (backoff_growth_and_reset _ _ _ _ 100 Hex) as (_ & _ & _ & _ & _ & Hclosed).
  apply (Hclosed ltac:(simpl; lia) ltac:(simpl; lia) 5%nat).
Defined.

(** C6 (as stated) fails when the base delay is above the maximum: with a
    base of 20000 ms and a maximum of 10000 ms the first sleep for height 5
    lasts 20000 ms, where [min(base * 2^0, max)] is 10000. *)
Lemma backoff_cap_counterexample :
  let o := mkOptions 5 5 1 20000 10000 in
  ∃ w, exec o [(0%nat, RpcFail); (0%nat, Wake); (0%nat, RpcFail)]
            (initWorld o (mkDb None [] [])) = Some w ∧
       delaysOf 5 (sleeps w) = [20000; 10000] ∧
       Z.min (retryBackoffMs o * 2 ^ 0) (retryMaxBackoffMs o) = 10000 ∧
       delaysOf 5 (sleeps w) ≠
         map (fun n => Z.min (retryBackoffMs o * 2 ^ Z.of_nat n) (retryMaxBackoffMs o))
             (seq 0 2).
Proof.
  eexists. split; [vm_compute; reflexivity|]. split; [vm_compute; reflexivity|].
  split; [vm_compute; reflexivity|]. vm_compute. discriminate.
Qed.

(** ** A failed write in the middle of a flush *)

(** What retrying a failed checkpoint write can cost.  Two workers, the range 5..6, a store
    whose second write throws.  Height 6 completes first and waits in the
    pending set.  The notice for height 5 writes 5, deletes 6 from the set,
    and the write of 6 throws.  The worker that holds 5 takes the exception
    for a failure of 5 and does 5 again; nobody reports 6 again.  Every
    height has been processed and the run is over, with the checkpoint at
    5.  (No height below an unprocessed one is ever written, so a resumed
    run is still sound; it repeats work.) *)
Lemma failed_write_drops_pending :
  let o := mkOptions 5 6 2 1000 10000 in
  let d := mkDb None [] [false; true] in
  ∃ w,
    runScan o d [(1%nat, RpcOk); (1%nat, Commit); (1%nat, Resume);
                 (0%nat, RpcOk); (0%nat, Commit); (0%nat, Resume); (0%nat, Wake);
                 (0%nat, RpcOk); (0%nat, Commit); (0%nat, Resume)]
      = Some (Resolved, w) ∧
    processed 5 w ∧ processed 6 w ∧
    lastProcessed (db (tracker w)) = Some 5 ∧
    nextToCommit (tracker w) = 6 ∧
    elements (completedHeights (tracker w)) = [5].
Proof.
  eexists. split; [vm_compute; reflexivity|]. unfold processed. simpl.
  split; [set_solver|]. split; [set_solver|]. split; [done|]. split; [done|].
  vm_compute. reflexivity.
Qed.

(** ** The scenario of the specification *)

(** The range 100..105, two workers, height 103 failing twice before it
    succeeds, the heights 104 and 105 completing meanwhile: the run ends
    with the checkpoint at 105, the six heights written in order, the event
    sink called once for each height, and the delays 1000 and 2000 for
    height 103. *)
Lemma end_to_end_scenario :
  let o := mkOptions 100 105 2 1000 10000 in
  runScan o (mkDb None [] [])
    [(0%nat, RpcOk); (0%nat, Commit); (0%nat, Resume);
     (1%nat, RpcOk); (1%nat, Commit); (1%nat, Resume);
     (1%nat, RpcFail);
     (0%nat, RpcOk); (0%nat, Commit); (0%nat, Resume);
     (1%nat, Wake); (1%nat, RpcFail);
     (0%nat, RpcOk); (0%nat, Commit); (0%nat, Resume);
     (0%nat, RpcOk); (0%nat, Commit); (0%nat, Resume);
     (1%nat, Wake); (1%nat, RpcOk); (1%nat, Commit); (1%nat, Resume)] =
  Some (Resolved,
        mkWorld [Finished; Finished] []
                (mkTracker 106 ∅ (mkDb (Some 105) [100; 101; 102; 103; 104; 105] [])) []
                [(100, Normal); (101, Normal); (102, Normal); (104, Normal);
                 (105, Normal); (103, Normal)]
                [(103, 1000); (103, 2000)]).
Proof. vm_compute. reflexivity. Qed.

(** ** Completion of a run *)

Lemma held_insert (ws : list wstate) (i : nat) st st' h :
  ws !! i = Some st → heightOf st' = heightOf st →
  held (<[i := st']> ws) h ↔ held ws h.
Proof.
  intros Hi Hh. split; intros (j & sj & Hj & Hsj).
  - destruct (decide (i = j)) as [<-|Hne].
    + apply list_lookup_insert_Some in Hj as [(_ & <- & _)|[? _]]; [|done].
      exists i, st. split; [done|congruence].
    + rewrite list_lookup_insert_ne in Hj by done. by exists j, sj.
  - destruct (decide (i = j)) as [<-|Hne].
    + exists i, st'. split.
      * apply list_lookup_insert_eq. by eapply lookup_lt_Some.
      * assert (sj = st) as -> by congruence. congruence.
    + exists j, sj. by rewrite list_lookup_insert_ne.
Qed.

(** A worker changes state, keeps its height, and neither returns nor comes
    back from [markCompleted]. *)
Lemma progress_update s e ws q hs (i : nat) st st' :
  progress s e ws q hs → ws !! i = Some st →
  heightOf st' = heightOf st →
  st' ≠ Finished → (∀ h b c, st' ≠ Committed h b c) →
  progress s e (<[i := st']> ws) q hs.
Proof.
  intros [Hc Hq Hh Hr Hd Hi] Hlook Hsame Hnf Hnc. split; try done.
  - intros h Hrange. destruct (Hc h Hrange) as [?|[?|?]]; [by left| |by right; right].
    right. left. by apply (held_insert ws i st st').
  - intros h Hheld. apply Hh. by apply (held_insert ws i st st') in Hheld.
  - intros j h b c Hj. destruct (decide (i = j)) as [<-|Hne].
    + apply list_lookup_insert_Some in Hj as [(_ & E & _)|[? _]]; [|done].
      by apply Hnc in E.
    + rewrite list_lookup_insert_ne in Hj by done. by eapply Hd.
  - intros j Hj. destruct (decide (i = j)) as [<-|Hne].
    + apply list_lookup_insert_Some in Hj as [(_ & E & _)|[? _]]; done.
    + rewrite list_lookup_insert_ne in Hj by done. by eapply Hi.
Qed.

(** A worker comes back from [markCompleted], which returned normally. *)
Lemma progress_commit s e ws q hs (i : nat) h b :
  progress s e ws q hs → ws !! i = Some (Committing h b) →
  progress s e (<[i := Committed h b Normal]> ws) q (hs ++ [h]).
Proof.
  intros [Hc Hq Hh Hr Hd Hi] Hlook.
  assert (held ws h) as Hheld by (by exists i, (Committing h b)).
  split; try done.
  - intros h0 Hrange. destruct (Hc h0 Hrange) as [?|[?|?]]; [by left| |].
    + right. left. by apply (held_insert ws i (Committing h b)).
    + right. right. apply elem_of_app. by left.
  - intros h0 Hh0. apply Hh. by apply (held_insert ws i (Committing h b)) in Hh0.
  - intros h0 Hh0. apply elem_of_app in Hh0 as [?|Hh0]; [by apply Hr|].
    apply list_elem_of_singleton in Hh0 as ->. by apply Hh.
  - intros j h0 b0 c Hj. destruct (decide (i = j)) as [<-|Hne].
    + apply list_lookup_insert_Some in Hj as [(_ & E & _)|[? _]]; [|done].
      injection E as <- <- <-. split; [done|]. apply elem_of_app. right. left.
    + rewrite list_lookup_insert_ne in Hj by done.
      destruct (Hd _ _ _ _ Hj) as [-> ?]. split; [done|]. apply elem_of_app. by left.
  - intros j Hj. destruct (decide (i = j)) as [<-|Hne].
    + apply list_lookup_insert_Some in Hj as [(_ & E & _)|[? _]]; done.
    + rewrite list_lookup_insert_ne in Hj by done. by eapply Hi.
Qed.

(** A worker is through with its height and takes the next one. *)
Lemma progress_next o s e ws q hs (i : nat) h b :
  progress s e ws q hs → ws !! i = Some (Committed h b Normal) →
  progress s e (<[i := (nextJob o q).1]> ws) (nextJob o q).2 hs.
Proof.
  intros [Hc Hq Hh Hr Hd Hi] Hlook.
  destruct (Hd _ _ _ _ Hlook) as [_ Hrep].
  assert (i < length ws)%nat as Hlt by (by eapply lookup_lt_Some).
  assert (∀ st' h0, held (<[i := st']> ws) h0 → heightOf st' = Some h0 ∨ held ws h0) as Hback.
  { intros st' h0 (j & sj & Hj & Hsj). destruct (decide (i = j)) as [<-|Hne].
    - apply list_lookup_insert_Some in Hj as [(_ & <- & _)|[? _]]; [by left|done].
    - rewrite list_lookup_insert_ne in Hj by done. right. by exists j, sj. }
  assert (∀ st' h0, held ws h0 → h0 ≠ h → held (<[i := st']> ws) h0) as Hkeep.
  { intros st' h0 (j & sj & Hj & Hsj) Hne. exists j, sj. split; [|done].
    rewrite list_lookup_insert_ne; [done|]. intros <-.
    rewrite Hlook in Hj. injection Hj as <-. simpl in Hsj. congruence. }
  unfold nextJob. destruct q as [|h' q]; simpl.
  - split; try done.
    + intros h0 Hrange. destruct (Hc h0 Hrange) as [?|[?|?]]; [by left| |by right; right].
      destruct (decide (h0 = h)) as [->|]; [by right; right|].
      right. left. by apply Hkeep.
    + intros h0 Hh0. apply Hback in Hh0 as [?|?]; [done|by apply Hh].
    + intros j h0 b0 c Hj. destruct (decide (i = j)) as [<-|Hne].
      * apply list_lookup_insert_Some in Hj as [(_ & E & _)|[? _]]; done.
      * rewrite list_lookup_insert_ne in Hj by done. by eapply Hd.
  - split.
    + intros h0 Hrange. destruct (Hc h0 Hrange) as [Hin|[?|?]]; [| |by right; right].
      * apply elem_of_cons in Hin as [->|?]; [|by left].
        right. left. exists i, (Fetching h' (retryBackoffMs o)).
        split; [by apply list_lookup_insert_eq|done].
      * destruct (decide (h0 = h)) as [->|]; [by right; right|].
        right. left. by apply Hkeep.
    + intros h0 Hh0. apply Hq. by right.
    + intros h0 Hh0. apply Hback in Hh0 as [E|?]; [|by apply Hh].
      simpl in E. injection E as <-. apply Hq. left.
    + done.
    + intros j h0 b0 c Hj. destruct (decide (i = j)) as [<-|Hne].
      * apply list_lookup_insert_Some in Hj as [(_ & E & _)|[? _]]; done.
      * rewrite list_lookup_insert_ne in Hj by done. by eapply Hd.
    + intros j Hj. destruct (decide (i = j)) as [<-|Hne].
      * apply list_lookup_insert_Some in Hj as [(_ & E & _)|[? _]]; done.
      * rewrite list_lookup_insert_ne in Hj by done. by apply Hi in Hj.
Qed.

Lemma worker_progress o s e d i ev w w' hs :
  worker o i ev w = Some w' →
  tracker w = markAll hs (initTracker s d) → reliable (db (tracker w)) →
  sunk w → (∀ h, h ∈ hs → processed h w) →
  progress s e (workers w) (queue w) hs →
  ∃ hs', tracker w' = markAll hs' (initTracker s d) ∧ reliable (db (tracker w')) ∧
         sunk w' ∧ (∀ h, h ∈ hs' → processed h w') ∧
         progress s e (workers w') (queue w') hs'.
Proof.
  intros H Ht Hr Hs Hpr Hp.
  destruct (worker_sunk _ _ _ _ _ H Hs) as [Hs' Hmono].
  assert (∀ h, h ∈ hs → processed h w') as Hpr' by (intros h Hh; by apply Hmono, Hpr).
  stepped_cases H.
  - exists hs. repeat (split; [done|]). by eapply progress_update.
  - exists hs. repeat (split; [done|]). by eapply progress_update.
  - exists hs. repeat (split; [done|]). by eapply progress_update.
  - exists (hs ++ [h]). rewrite markAll_snoc, <- Ht, Hm. simpl.
    apply markCompleted_flushed in Hm as [k Hk].
    destruct (fl_reliable _ _ _ _ Hk Hr) as [-> Hr'].
    repeat (split; [done|]). split; [|by apply progress_commit].
    intros h0 Hh0. apply elem_of_app in Hh0 as [?|Hh0]; [by apply Hpr'|].
    apply list_elem_of_singleton in Hh0 as ->. apply Hmono. by eapply Hs.
  - exists hs. repeat (split; [done|]). by eapply progress_next.
  - by destruct (pg_done _ _ _ _ _ Hp _ _ _ _ Hw).
  - exists hs. repeat (split; [done|]). by eapply progress_update.
Qed.

Lemma exec_progress o s e d sched : ∀ w w' hs,
  exec o sched w = Some w' →
  tracker w = markAll hs (initTracker s d) → reliable (db (tracker w)) →
  sunk w → (∀ h, h ∈ hs → processed h w) →
  progress s e (workers w) (queue w) hs →
  ∃ hs', tracker w' = markAll hs' (initTracker s d) ∧
         (∀ h, h ∈ hs' → processed h w') ∧
         progress s e (workers w') (queue w') hs'.
Proof.
  induction sched as [|[i ev] sched IH]; intros w w' hs; simpl.
  - intros [= <-] Ht _ _ Hpr Hp. by exists hs.
  - destruct (worker o i ev w) as [w1|] eqn:Hst; [|done]. intros Hex Ht Hr Hs Hpr Hp.
    destruct (worker_progress _ _ _ _ _ _ _ _ _ Hst Ht Hr Hs Hpr Hp)
      as (hs1 & Ht1 & Hr1 & Hs1 & Hpr1 & Hp1).
    by eapply IH.
Qed.

Lemma spawn_progress o s e n :
  progress s e (spawn o n (heightQueue s e)).1 (spawn o n (heightQueue s e)).2 [].
Proof.
  assert (∀ h, h ∈ heightQueue s e ↔ s ≤ h ≤ e) as Hrange.
  { intros h. rewrite heightQueue_seqZ, elem_of_seqZ. lia. }
  split.
  - intros h Hh. apply Hrange in Hh.
    rewrite <- (take_drop n (heightQueue s e)) in Hh.
    apply elem_of_app in Hh as [Hh|Hh].
    + right. left. apply list_elem_of_lookup in Hh as [k Hk].
      exists k, (Fetching h (retryBackoffMs o)). split; [|done].
      rewrite spawn_closed. simpl. apply lookup_app_l_Some.
      by rewrite list_lookup_fmap, Hk.
    + left. by rewrite spawn_closed.
  - intros h Hh. rewrite spawn_closed in Hh. simpl in Hh. apply Hrange.
    eapply elem_of_sublist; [exact Hh|apply sublist_drop].
  - intros h (i & st & Hi & Hst).
    destruct (spawn_lookup _ _ _ _ _ _ Hi Hst) as [Hq _].
    apply Hrange. by eapply list_elem_of_lookup_2.
  - intros h Hh. by apply elem_of_nil in Hh.
  - intros i h b c Hi. rewrite spawn_closed in Hi. simpl in Hi.
    apply lookup_app_Some in Hi as [Hi|[_ Hi]].
    + by apply list_lookup_fmap_Some in Hi as (h' & ? & _).
    + by apply lookup_replicate in Hi as [? _].
  - intros i Hi. rewrite spawn_closed in *. simpl in *.
    apply lookup_app_Some in Hi as [Hi|[_ Hi]].
    + by apply list_lookup_fmap_Some in Hi as (h' & ? & _).
    + apply lookup_replicate in Hi as [_ Hlt]. apply drop_ge. lia.
Qed.

Lemma joined_resolved w (i : nat) st :
  joined w = Resolved → workers w !! i = Some st → st = Finished.
Proof.
  unfold joined. destruct (forallb isFinished (workers w)) eqn:E; [|done].
  intros _ Hi. rewrite forallb_forall in E.
  assert (isFinished st = true) as Hf.
  { apply E. apply list_elem_of_In. by eapply list_elem_of_lookup_2. }
  by destruct st.
Qed.

Lemma exec_length o sched : ∀ w w',
  exec o sched w = Some w' → length (workers w') = length (workers w).
Proof.
  induction sched as [|[i ev] sched IH]; intros w w'; simpl.
  - by intros [= <-].
  - destruct (worker o i ev w) as [w1|] eqn:Hst; [|done]. intros Hex.
    rewrite (IH _ _ Hex). stepped_cases Hst; by rewrite length_insert.
Qed.

Lemma spawn_length o n q : length (spawn o n q).1 = n.
Proof.
  rewrite spawn_closed. simpl. rewrite length_app, length_fmap, length_take, length_replicate.
  lia.
Qed.

(** X1 - A finished run has checkpointed everything.  When a run over a
    non-empty range with at least one worker and a reliable store is over,
    the event sink has returned for every height of the range, the heights
    have been written to the store in order, and the checkpoint is the end
    of the range. *)
Theorem runScan_complete (o : RunScanOptions) (d : Db) (sched : list (nat * event))
    (w : World) :
  let s := scanStart (start o) (getLastProcessedBlockHeight d) in
  reliable d → 0 < blockConcurrency o → s ≤ end_ o →
  runScan o d sched = Some (Resolved, w) →
  lastProcessed (db (tracker w)) = Some (end_ o) ∧
  writeLog (db (tracker w)) = writeLog d ++ seqZ s (end_ o - s + 1) ∧
  (∀ h, s ≤ h ≤ end_ o → processed h w).
Proof.
  intros s Hr Hn Hse. unfold runScan.
  destruct (exec o sched (initWorld o d)) as [w'|] eqn:Hex; [|done].
  intros [= Hj ->].
  pose proof (exec_length _ _ _ _ Hex) as Hlen.
  rewrite initWorld_fields in Hex, Hlen. fold s in Hex, Hlen. simpl in Hlen.
  rewrite spawn_length in Hlen.
  apply (exec_progress o s (end_ o) d _ _ _ []) in Hex
    as (hs & Ht & Hpr & [Hc Hq Hh Hrep Hd Hi]); simpl; try done.
  - assert (∀ h, ¬ held (workers w) h) as Hnone.
    { intros h (i & st & Hlook & Hst).
      rewrite (joined_resolved _ _ _ Hj Hlook) in Hst. done. }
    assert (queue w = []) as Hempty.
    { destruct (workers w) as [|st ws] eqn:Hws; [simpl in Hlen; lia|].
      apply (Hi 0%nat). simpl. f_equal.
      apply (joined_resolved w 0 st Hj). by rewrite Hws. }
    assert (∀ h, s ≤ h ≤ end_ o → h ∈ hs) as Hall.
    { intros h Hrange. destruct (Hc h Hrange) as [Hin|[Hheld|?]]; [|by apply Hnone in Hheld|done].
      rewrite Hempty in Hin. by apply elem_of_nil in Hin. }
    pose proof (markAll_tracked s d hs) as Htr. rewrite <- Ht in Htr.
    assert (nextToCommit (tracker w) = end_ o + 1) as Hcur.
    { apply (tracked_cursor _ _ _ _ _ Htr Hr Hse Hall).
      intros Hin. apply Hrep in Hin. lia. }
    split; [|split].
    + rewrite (tr_last _ _ _ _ Htr). case_decide; [lia|]. f_equal. lia.
    + rewrite (tr_log _ _ _ _ Htr). do 2 f_equal. lia.
    + intros h Hrange. by apply Hpr, Hall.
  - intros i h b Hlook. simpl in Hlook. by apply spawn_not_committing in Hlook.
  - intros h Hh. by apply elem_of_nil in Hh.
  - apply spawn_progress.
Qed.

Lemma runScan_complete_witness :
  let o := mkOptions 5 6 2 1000 10000 in
  let w := mkWorld [Finished; Finished] [] (mkTracker 7 ∅ (mkDb (Some 6) [5; 6] [])) []
                   [(6, Normal); (5, Thrown); (5, Normal)] [(5, 1000)] in
  lastProcessed (db (tracker w)) = Some 6 ∧
  writeLog (db (tracker w)) = [5; 6] ∧
  (∀ h, 5 ≤ h ≤ 6 → processed h w).
Proof.
  intros o w.
  assert (reliable (mkDb None [] [])) as Hrel by (unfold reliable; simpl; apply not_elem_of_nil).
  apply (runScan_complete o (mkDb None [] [])
           [(1%nat, RpcOk); (0%nat, SinkFail); (0%nat, Wake); (0%nat, RpcOk);
            (1%nat, Commit); (0%nat, Commit); (1%nat, Resume); (0%nat, Resume)] w Hrel).
  - reflexivity.
  - vm_compute. discriminate.
  - vm_compute. reflexivity.
Defined.

(** * More on [runScan]

    ** Reachable worlds *)

Lemma exec_reachable o d sched : ∀ w w',
  reachable o d w → exec o sched w = Some w' → reachable o d w'.
Proof.
  induction sched as [|[i ev] sched IH]; intros w w' Hr; simpl.
  - by intros [= <-].
  - destruct (worker o i ev w) as [w1|] eqn:Hst; [|done]. intros Hex.
    eapply IH; [|exact Hex]. by eapply reach_step.
Qed.

Lemma reachable_exec o d w :
  reachable o d w → ∃ sched, exec o sched (initWorld o d) = Some w.
Proof.
  induction 1 as [|w i ev w' _ [sched Hex] Hst].
  - by exists [].
  - exists (sched ++ [(i, ev)]).
    revert Hex. generalize (initWorld o d). induction sched as [|[j e] sched IH]; intros w0; simpl.
    + intros [= ->]. by rewrite Hst.
    + destruct (worker o j e w0); [apply IH|done].
Qed.

Lemma reachable_pooled o d w :
  reachable o d w → pooled o (workers w) (queue w) (sleeps w).
Proof.
  induction 1 as [|w i ev w' _ IH Hst]; [apply initWorld_pooled|].
  by eapply worker_pooled.
Qed.

Lemma reachable_markAll o d w :
  reachable o d w →
  sunk w ∧
  ∃ hs, tracker w = markAll hs (initTracker (scanStart (start o) (getLastProcessedBlockHeight d)) d) ∧
        ∀ h, h ∈ hs → processed h w.
Proof.
  intros Hr. apply reachable_exec in Hr as [sched Hex].
  apply exec_markAll in Hex as (Hs & _ & hs & Ht & Hhs); [|apply initWorld_sunk].
  split; [done|]. exists hs. split; [|done]. rewrite Ht. by rewrite initWorld_fields.
Qed.

(** ** The commit mutex *)

Lemma spawn_states o n q (i : nat) st :
  (spawn o n q).1 !! i = Some st → (∃ h, st = Fetching h (retryBackoffMs o)) ∨ st = Finished.
Proof.
  rewrite spawn_closed. simpl. intros Hi.
  apply lookup_app_Some in Hi as [Hi|[_ Hi]].
  - apply list_lookup_fmap_Some in Hi as (h & -> & _). left. by exists h.
  - apply lookup_replicate in Hi as [-> _]. by right.
Qed.

Lemma initWorld_queued o d : queued (initWorld o d).
Proof.
  rewrite initWorld_fields. split; simpl.
  - apply NoDup_nil_2.
  - intros i. split; [by intros ?%elem_of_nil|].
    intros (h & b & Hi). by apply spawn_states in Hi as [[? ?]|?].
  - intros i h b Hi. by apply spawn_states in Hi as [[? ?]|?].
Qed.

Lemma lookup_insert_is (ws : list wstate) (i j : nat) st st' :
  <[i := st']> ws !! j = Some st → (i = j ∧ st = st') ∨ (i ≠ j ∧ ws !! j = Some st).
Proof.
  intros H. apply list_lookup_insert_Some in H as [(-> & <- & _)|[? ?]]; [by left|by right].
Qed.

(** A worker that is not at the mutex changes state without going there. *)
Lemma queued_retag w w' (i : nat) st st' :
  queued w → workers w !! i = Some st →
  workers w' = <[i := st']> (workers w) → mutexQueue w' = mutexQueue w →
  isCommitting st = false → isCommitting st' = false → outOfFuel st' = false →
  queued w'.
Proof.
  intros [Hnd Hc Hf] Hi Hws Hmq Hst Hst' Hfu.
  assert (i < length (workers w))%nat as Hlt by (by eapply lookup_lt_Some).
  split; rewrite ?Hmq, ?Hws.
  - done.
  - intros j. rewrite Hc. destruct (decide (j = i)) as [->|Hne].
    + rewrite Hi, list_lookup_insert_eq by done.
      split; intros (h & b & [= ->]); done.
    + by rewrite list_lookup_insert_ne.
  - intros j h b Hj. apply lookup_insert_is in Hj as [[_ E]|[_ Hj]].
    + by rewrite <- E in Hfu.
    + by eapply Hf.
Qed.

Lemma worker_queued o i ev w w' :
  worker o i ev w = Some w' → queued w → queued w'.
Proof.
  intros H Hqu.
  assert (i < length (workers w))%nat as Hlt.
  { apply worker_stepped in H. destruct H; by eapply lookup_lt_Some. }
  stepped_cases H;
    try (by eapply queued_retag; [exact Hqu|exact Hw|reflexivity|reflexivity|..]).
  - destruct Hqu as [Hnd Hc Hf]. split; simpl.
    + apply NoDup_app. split; [done|]. split; [|apply NoDup_singleton].
      intros j Hj ->%list_elem_of_singleton. apply Hc in Hj as (h0 & b0 & Hj).
      by rewrite Hw in Hj.
    + intros j. rewrite elem_of_app, list_elem_of_singleton, Hc.
      destruct (decide (j = i)) as [->|Hne].
      * rewrite list_lookup_insert_eq by done. split; [intros _|by right]. by exists h, b.
      * rewrite list_lookup_insert_ne by done. naive_solver.
    + intros j h0 b0 Hj. apply lookup_insert_is in Hj as [[_ E]|[_ Hj]]; [done|].
      by eapply Hf.
  - destruct Hqu as [Hnd Hc Hf]. rewrite Hq in Hnd. apply NoDup_cons in Hnd as [Hni Hnd].
    split; simpl.
    + done.
    + intros j. destruct (decide (j = i)) as [->|Hne].
      * rewrite list_lookup_insert_eq by done. split; [done|]. by intros (h0 & b0 & [=]).
      * rewrite list_lookup_insert_ne by done. rewrite <- Hc, Hq, elem_of_cons. naive_solver.
    + intros j h0 b0 Hj. apply lookup_insert_is in Hj as [[_ E]|[_ Hj]]; [|by eapply Hf].
      injection E as _ _ <-.
      pose proof (commitLoop_fuel h (tracker w)) as Hfu. by rewrite Hm in Hfu.
  - eapply queued_retag; [exact Hqu|exact Hw|reflexivity|reflexivity|done|..].
    + unfold nextJob. by destruct (getNextHeight (queue w)) as [[?|] ?].
    + unfold nextJob. by destruct (getNextHeight (queue w)) as [[?|] ?].
Qed.

Lemma reachable_queued o d w : reachable o d w → queued w.
Proof.
  induction 1 as [|w i ev w' _ IH Hst]; [apply initWorld_queued|].
  by eapply worker_queued.
Qed.

Lemma pending_worker (ws : list wstate) :
  forallb isFinished ws = false → ∃ (i : nat) st, ws !! i = Some st ∧ st ≠ Finished.
Proof.
  induction ws as [|st ws IH]; [done|]. simpl.
  destruct st; simpl; try (intros _; by eexists 0%nat, _).
  intros H. destruct (IH H) as (i & st & Hi & Hst). by exists (S i), st.
Qed.

(** X2 - Never stuck.  At any point of a run: the mutex queue holds each
    worker that waits to commit exactly once and nobody else; the first in
    the queue can always run its commit, whether or not an earlier commit
    threw; and the run is over exactly when no transition is left, so a run
    that is not over can always go on. *)
Theorem never_stuck (o : RunScanOptions) (d : Db) (w : World) :
  reachable o d w →
  NoDup (mutexQueue w) ∧
  (∀ i : nat, i ∈ mutexQueue w ↔ ∃ h b, workers w !! i = Some (Committing h b)) ∧
  (∀ (i : nat) waiting, mutexQueue w = i :: waiting → ∃ w', worker o i Commit w = Some w') ∧
  (joined w = Pending → ∃ i ev w', worker o i ev w = Some w') ∧
  (joined w = Resolved → ∀ i ev, worker o i ev w = None).
Proof.
  intros Hr. destruct (reachable_queued _ _ _ Hr) as [Hnd Hc Hf].
  assert (∀ (i : nat) waiting, mutexQueue w = i :: waiting →
            ∃ w', worker o i Commit w = Some w') as Hhead.
  { intros i waiting Hq.
    assert (i ∈ mutexQueue w) as Hin by (rewrite Hq; left).
    apply Hc in Hin as (h & b & Hi).
    destruct (markCompleted h (tracker w)) as [c t'] eqn:Hm.
    eexists. apply worker_stepped. by eapply st_commit. }
  split; [done|]. split; [done|]. split; [done|]. split.
  - unfold joined. destruct (forallb isFinished (workers w)) eqn:E; [done|]. intros _.
    apply pending_worker in E as (i & st & Hi & Hst).
    destruct st as [h b|h b|h b c|h b|]; [| | | |done].
    + exists i, RpcFail. eexists. apply worker_stepped. by eapply st_rpc_fail.
    + assert (i ∈ mutexQueue w) as Hin by (apply Hc; eauto).
      destruct (mutexQueue w) as [|j waiting] eqn:Hq; [by apply elem_of_nil in Hin|].
      destruct (Hhead j waiting eq_refl) as [w' Hw']. by exists j, Commit, w'.
    + exists i, Resume. destruct c.
      * eexists. apply worker_stepped. by eapply st_resume.
      * eexists. apply worker_stepped. by eapply st_resume_thrown.
      * by apply Hf in Hi.
    + exists i, Wake. eexists. apply worker_stepped. by eapply st_wake.
  - intros Hj i ev. unfold worker.
    destruct (workers w !! i) as [st|] eqn:Hi; [|done].
    by rewrite (joined_resolved _ _ _ Hj Hi).
Qed.

Lemma never_stuck_witness :
  let o := mkOptions 5 6 2 1000 10000 in
  let w := mkWorld [Committing 5 1000; Committing 6 1000] []
                   (initTracker 5 (mkDb None [] [])) [1%nat; 0%nat]
                   [(6, Normal); (5, Normal)] [] in
  ∃ w', worker o 1 Commit w = Some w'.
Proof.
  intros o w.
  assert (reachable o (mkDb None [] []) w) as Hr.
  { apply (exec_reachable o _ [(1%nat, RpcOk); (0%nat, RpcOk)] (initWorld o (mkDb None [] [])));
      [apply reach_init|vm_compute; reflexivity]. }
  destruct (never_stuck o _ w Hr) as (_ & _ & H & _).
  apply (H 1%nat [0%nat]). reflexivity.
Defined.

(** ** The order of the completion notices *)

Lemma normalHeights_app sc1 sc2 :
  normalHeights (sc1 ++ sc2) = normalHeights sc1 ++ normalHeights sc2.
Proof. unfold normalHeights. apply omap_app. Qed.

Lemma waitingHeights_cons (ws : list wstate) (j : nat) mq :
  waitingHeights ws (j :: mq) =
    match ws !! j ≫= heightOf with
    | Some h => h :: waitingHeights ws mq
    | None => waitingHeights ws mq
    end.
Proof. reflexivity. Qed.

Lemma waitingHeights_insert (ws : list wstate) (mq : list nat) (i : nat) st :
  i ∉ mq → waitingHeights (<[i := st]> ws) mq = waitingHeights ws mq.
Proof.
  induction mq as [|j mq IH]; [done|]. intros Hi.
  apply not_elem_of_cons in Hi as [Hne Hi].
  rewrite !waitingHeights_cons, list_lookup_insert_ne by done. by rewrite IH.
Qed.

Lemma waitingHeights_app ws mq1 mq2 :
  waitingHeights ws (mq1 ++ mq2) = waitingHeights ws mq1 ++ waitingHeights ws mq2.
Proof. unfold waitingHeights. apply omap_app. Qed.

Lemma reachable_fifo o d w :
  reachable o d w →
  ∃ hs, tracker w = markAll hs (initTracker (scanStart (start o) (getLastProcessedBlockHeight d)) d) ∧
        normalHeights (sinkCalls w) = hs ++ waitingHeights (workers w) (mutexQueue w).
Proof.
  induction 1 as [|w i ev w' Hr (hs & Ht & Hn) Hst].
  - exists []. by rewrite initWorld_fields.
  - destruct (reachable_queued _ _ _ Hr) as [Hnd Hc Hf].
    assert (i < length (workers w))%nat as Hlt.
    { apply worker_stepped in Hst. destruct Hst; by eapply lookup_lt_Some. }
    assert (∀ st, workers w !! i = Some st → isCommitting st = false → i ∉ mutexQueue w)
      as Hout.
    { intros st Hi Hst' Hin. apply Hc in Hin as (h & b & Hi'). rewrite Hi in Hi'.
      by injection Hi' as ->. }
    stepped_cases Hst.
    + exists hs. split; [done|]. rewrite waitingHeights_insert; [done|by eapply Hout].
    + exists hs. split; [done|]. rewrite normalHeights_app, app_nil_r.
      rewrite waitingHeights_insert; [done|by eapply Hout].
    + exists hs. split; [done|].
      rewrite normalHeights_app, waitingHeights_app, Hn, <- app_assoc. f_equal.
      rewrite waitingHeights_insert by (by eapply Hout). f_equal.
      rewrite waitingHeights_cons, list_lookup_insert_eq by done. done.
    + exists (hs ++ [h]). rewrite markAll_snoc, <- Ht, Hm. split; [done|].
      rewrite Hq in Hnd, Hn. apply NoDup_cons in Hnd as [Hni _].
      rewrite waitingHeights_insert by done. rewrite Hn, <- app_assoc. f_equal.
      rewrite waitingHeights_cons, Hw. done.
    + exists hs. split; [done|]. rewrite waitingHeights_insert; [done|by eapply Hout].
    + exists hs. split; [done|]. rewrite waitingHeights_insert; [done|by eapply Hout].
    + exists hs. split; [done|]. rewrite waitingHeights_insert; [done|by eapply Hout].
Qed.

(** X3 - The mutex is first in, first out.  At any point of a run the
    completion notices the tracker has received are, in the same order, the
    first of the heights for which the event sink has returned; the
    remaining ones are those of the workers waiting at the mutex, in the
    order of the queue. *)
Theorem mutex_fifo (o : RunScanOptions) (d : Db) (w : World) :
  reachable o d w →
  ∃ hs, tracker w = markAll hs (initTracker (scanStart (start o) (getLastProcessedBlockHeight d)) d) ∧
        normalHeights (sinkCalls w) = hs ++ waitingHeights (workers w) (mutexQueue w) ∧
        hs `prefix_of` normalHeights (sinkCalls w) ∧
        length (waitingHeights (workers w) (mutexQueue w)) = length (mutexQueue w).
Proof.
  intros Hr. destruct (reachable_fifo _ _ _ Hr) as (hs & Ht & Hn).
  exists hs. split; [done|]. split; [done|]. split; [rewrite Hn; by eexists|].
  destruct (reachable_queued _ _ _ Hr) as [_ Hc _].
  assert (∀ i : nat, i ∈ mutexQueue w → ∃ h b, workers w !! i = Some (Committing h b)) as Hc'.
  { intros i. apply Hc. }
  clear Hc Hn. induction (mutexQueue w) as [|j mq IH]; [done|].
  destruct (Hc' j) as (h & b & Hj); [left|].
  rewrite waitingHeights_cons, Hj. simpl. f_equal.
  apply IH. intros i Hi. apply Hc'. by right.
Qed.

Lemma mutex_fifo_witness :
  let o := mkOptions 5 7 3 1000 10000 in
  let w := mkWorld [Committing 5 1000; Committed 6 1000 Normal; Committing 7 1000] []
                   (mkTracker 5 {[6]} (mkDb None [] [])) [2%nat; 0%nat]
                   [(6, Normal); (7, Normal); (5, Normal)] [] in
  ∃ hs, tracker w = markAll hs (initTracker 5 (mkDb None [] [])) ∧
        normalHeights (sinkCalls w) = hs ++ [7; 5].
Proof.
  intros o w.
  assert (reachable o (mkDb None [] []) w) as Hr.
  { apply (exec_reachable o _ [(1%nat, RpcOk); (2%nat, RpcOk); (0%nat, RpcOk); (1%nat, Commit)]
             (initWorld o (mkDb None [] []))); [apply reach_init|vm_compute; reflexivity]. }
  destruct (mutex_fifo o _ w Hr) as (hs & Ht & Hn & _).
  exists hs. split; [exact Ht|exact Hn].
Defined.

(** ** Range and uniqueness *)

Lemma held_insert_back (ws : list wstate) (i : nat) st' h :
  held (<[i := st']> ws) h → heightOf st' = Some h ∨ held ws h.
Proof.
  intros (j & sj & Hj & Hsj). apply lookup_insert_is in Hj as [[_ ->]|[_ Hj]]; [by left|].
  right. by exists j, sj.
Qed.

Lemma initWorld_ranged o d :
  ranged (scanStart (start o) (getLastProcessedBlockHeight d)) (end_ o) (initWorld o d).
Proof.
  rewrite initWorld_fields.
  pose proof (spawn_progress o (scanStart (start o) (getLastProcessedBlockHeight d)) (end_ o)
                (Z.to_nat (blockConcurrency o))) as [_ Hq Hh _ _ _].
  split; simpl; [done|done|..]; intros ? ? Hin; by apply elem_of_nil in Hin.
Qed.

Lemma worker_ranged o s e i ev w w' :
  worker o i ev w = Some w' → ranged s e w → ranged s e w'.
Proof.
  intros H [Rq Rh Rs Rsl].
  assert (∀ st h, workers w !! i = Some st → heightOf st = Some h → s ≤ h ≤ e) as Hmine.
  { intros st h Hi Hst. apply Rh. by exists i, st. }
  assert (∀ st st', workers w !! i = Some st → heightOf st' = heightOf st →
            ∀ h, held (<[i := st']> (workers w)) h → s ≤ h ≤ e) as Hsame.
  { intros st st' Hi Heq h Hheld. apply held_insert_back in Hheld as [E|?]; [|by apply Rh].
    eapply Hmine; [exact Hi|congruence]. }
  stepped_cases H.
  - split; simpl; [done|by apply (Hsame _ _ Hw)|done|].
    intros h0 b0 Hin. apply elem_of_app in Hin as [?|Hin]; [by eapply Rsl|].
    apply list_elem_of_singleton in Hin as [= -> ->]. by eapply Hmine.
  - split; simpl; [done|by apply (Hsame _ _ Hw)| |].
    + intros h0 c0 Hin. apply elem_of_app in Hin as [?|Hin]; [by eapply Rs|].
      apply list_elem_of_singleton in Hin as [= -> ->]. by eapply Hmine.
    + intros h0 b0 Hin. apply elem_of_app in Hin as [?|Hin]; [by eapply Rsl|].
      apply list_elem_of_singleton in Hin as [= -> ->]. by eapply Hmine.
  - split; simpl; [done|by apply (Hsame _ _ Hw)| |done].
    intros h0 c0 Hin. apply elem_of_app in Hin as [?|Hin]; [by eapply Rs|].
    apply list_elem_of_singleton in Hin as [= -> ->]. by eapply Hmine.
  - split; simpl; [done|by apply (Hsame _ _ Hw)|done|done].
  - unfold nextJob. destruct (queue w) as [|h' q'] eqn:Hqu; simpl.
    + split; simpl; [by intros ? ?%elem_of_nil| |done|done].
      intros h0 Hheld. apply held_insert_back in Hheld as [?|?]; [done|by apply Rh].
    + split; simpl; [| |done|done].
      * intros h0 Hin. apply Rq. by right.
      * intros h0 Hheld. apply held_insert_back in Hheld as [E|?]; [|by apply Rh].
        simpl in E. injection E as <-. apply Rq. left.
  - split; simpl; [done|by apply (Hsame _ _ Hw)|done|].
    intros h0 b0 Hin. apply elem_of_app in Hin as [?|Hin]; [by eapply Rsl|].
    apply list_elem_of_singleton in Hin as [= -> ->]. by eapply Hmine.
  - split; simpl; [done|by apply (Hsame _ _ Hw)|done|done].
Qed.

Lemma reachable_ranged o d w :
  reachable o d w →
  ranged (scanStart (start o) (getLastProcessedBlockHeight d)) (end_ o) w.
Proof.
  induction 1 as [|w i ev w' _ IH Hst]; [apply initWorld_ranged|].
  by eapply worker_ranged.
Qed.

(** X4 - Nothing outside the range.  At any point of a run, whatever the
    store does: the heights queued or held by workers, those the event sink
    was called with and those slept for all lie in [scanStart..end]; so do
    the values written to the store, and the commit cursor is at most
    [end + 1]. *)
Theorem stays_in_range (o : RunScanOptions) (d : Db) (w : World) :
  let s := scanStart (start o) (getLastProcessedBlockHeight d) in
  reachable o d w →
  (∀ h, h ∈ queue w → s ≤ h ≤ end_ o) ∧
  (∀ (i : nat) st h, workers w !! i = Some st → heightOf st = Some h → s ≤ h ≤ end_ o) ∧
  (∀ h c, (h, c) ∈ sinkCalls w → s ≤ h ≤ end_ o) ∧
  (∀ h b, (h, b) ∈ sleeps w → s ≤ h ≤ end_ o) ∧
  (∃ ws, writeLog (db (tracker w)) = writeLog d ++ ws ∧ ∀ v, v ∈ ws → s ≤ v ≤ end_ o) ∧
  s ≤ nextToCommit (tracker w) ≤ Z.max s (end_ o + 1).
Proof.
  intros s Hr. destruct (reachable_ranged _ _ _ Hr) as [Hq Hh Hs Hsl]. fold s in Hq, Hh, Hs, Hsl.
  destruct (reachable_markAll _ _ _ Hr) as (_ & hs & Ht & Hhs). fold s in Ht.
  pose proof (markAll_tracked s d hs) as Htr. rewrite <- Ht in Htr.
  assert (∀ v, s ≤ v < nextToCommit (tracker w) → s ≤ v ≤ end_ o) as Hbelow.
  { intros v Hv. eapply Hs. apply Hhs, (tr_prefix _ _ _ _ Htr). done. }
  split; [done|]. split; [intros i st h Hi Hst; apply Hh; by exists i, st|].
  split; [done|]. split; [done|]. split.
  - eexists. split; [apply (tr_log _ _ _ _ Htr)|].
    intros v Hv. apply elem_of_seqZ in Hv. apply Hbelow. lia.
  - pose proof (tr_start _ _ _ _ Htr) as Hge. split; [done|].
    destruct (decide (nextToCommit (tracker w) = s)) as [->|Hne]; [lia|].
    assert (s ≤ nextToCommit (tracker w) - 1 ≤ end_ o) by (apply Hbelow; lia). lia.
Qed.

Lemma stays_in_range_witness :
  let o := mkOptions 5 6 2 1000 10000 in
  let w := mkWorld [Sleeping 5 1000; Committing 6 1000] []
                   (initTracker 5 (mkDb None [] [])) [1%nat]
                   [(6, Normal)] [(5, 1000)] in
  (∀ h c, (h, c) ∈ sinkCalls w → 5 ≤ h ≤ 6) ∧
  5 ≤ nextToCommit (tracker w) ≤ Z.max 5 (6 + 1).
Proof.
  intros o w.
  assert (reachable o (mkDb None [] []) w) as Hr.
  { apply (exec_reachable o _ [(1%nat, RpcOk); (0%nat, RpcFail)] (initWorld o (mkDb None [] [])));
      [apply reach_init|vm_compute; reflexivity]. }
  destruct (stays_in_range o _ w Hr) as (_ & _ & H & _ & _ & Hc). split; [exact H|exact Hc].
Defined.

(** X5 - One worker per height.  At any point of a run no height is held by
    two workers, no height is both held and still queued, the queue has no
    height twice; and the pool starts with the first heights of the range
    handed out in order, one per worker, the workers beyond the length of
    the range having returned at once. *)
Theorem one_worker_per_height (o : RunScanOptions) (d : Db) (w : World) :
  let s := scanStart (start o) (getLastProcessedBlockHeight d) in
  let n := Z.to_nat (blockConcurrency o) in
  reachable o d w →
  (∀ (i j : nat) si sj h,
     workers w !! i = Some si → workers w !! j = Some sj →
     heightOf si = Some h → heightOf sj = Some h → i = j) ∧
  (∀ (i : nat) si h, workers w !! i = Some si → heightOf si = Some h → h ∉ queue w) ∧
  NoDup (queue w) ∧
  length (workers w) = n ∧
  workers (initWorld o d) =
    ((λ h, Fetching h (retryBackoffMs o)) <$> take n (heightQueue s (end_ o))) ++
    replicate (n - length (heightQueue s (end_ o))) Finished ∧
  queue (initWorld o d) = drop n (heightQueue s (end_ o)).
Proof.
  intros s n Hr. destruct (reachable_pooled _ _ _ Hr) as [Hu Hd Hnd _ _ _].
  split; [done|]. split; [done|]. split; [done|]. split.
  - apply reachable_exec in Hr as [sched Hex].
    rewrite (exec_length _ _ _ _ Hex), initWorld_fields. simpl. apply spawn_length.
  - rewrite initWorld_fields. fold s n. by rewrite spawn_closed.
Qed.

Lemma one_worker_per_height_witness :
  let o := mkOptions 5 9 2 1000 10000 in
  let w := mkWorld [Fetching 7 1000; Fetching 6 1000] [8; 9]
                   (mkTracker 6 ∅ (mkDb (Some 5) [5] [])) []
                   [(5, Normal)] [] in
  NoDup (queue w) ∧ length (workers w) = 2%nat.
Proof.
  intros o w.
  assert (reachable o (mkDb None [] []) w) as Hr.
  { apply (exec_reachable o _ [(0%nat, RpcOk); (0%nat, Commit); (0%nat, Resume)]
             (initWorld o (mkDb None [] []))); [apply reach_init|vm_compute; reflexivity]. }
  destruct (one_worker_per_height o _ w Hr) as (_ & _ & H1 & H2 & _). split; [exact H1|exact H2].
Defined.

(** ** The tracker: gaps, failed writes, order of arrival *)

Lemma markCompleted_other h t :
  nextToCommit t ∉ completedHeights t → h ≠ nextToCommit t →
  markCompleted h t =
    (Normal, mkTracker (nextToCommit t) ({[h]} ∪ completedHeights t) (db t)).
Proof.
  intros Hout Hne. unfold markCompleted. apply commitLoop_idle. simpl.
  rewrite elem_of_union, elem_of_singleton. intros [?|?]; [congruence|done].
Qed.

Lemma markAll_gap hs : ∀ t,
  nextToCommit t ∉ completedHeights t → nextToCommit t ∉ hs →
  markAll hs t =
    mkTracker (nextToCommit t) (list_to_set hs ∪ completedHeights t) (db t).
Proof.
  induction hs as [|h hs IH]; intros t Hout Hhs.
  - simpl. destruct t as [n c d]. simpl. f_equal. set_solver.
  - apply not_elem_of_cons in Hhs as [Hne Hhs].
    rewrite markAll_cons, markCompleted_other by done. simpl.
    rewrite IH; simpl; [|set_solver|done]. f_equal. set_solver.
Qed.

Lemma markCompleted_cursor_advances t c t' :
  markCompleted (nextToCommit t) t = (c, t') → c = Normal →
  nextToCommit t < nextToCommit t'.
Proof.
  intros Hm ->. apply markCompleted_flushed in Hm as [k Hk].
  pose proof (fl_nonneg _ _ _ _ Hk). pose proof (fl_cursor _ _ _ _ Hk) as Hc.
  pose proof (fl_exit _ _ _ _ Hk) as Hex. simpl in *.
  destruct (decide (k = 0)) as [->|]; [|lia]. exfalso. apply Hex.
  apply (fl_normal _ _ _ _ Hk eq_refl). simpl. split; [|lia].
  apply elem_of_union_l, elem_of_singleton. lia.
Qed.

(** X6 - A gap holds the checkpoint back.  After any series of completion
    notices, further notices none of which is for the height at the commit
    cursor change neither the cursor nor the store (the store is not called:
    checkpoint, log and fault script stay as they are); they only join the
    pending set.  A notice for the height at the cursor, with a store that
    does not throw, moves the cursor past that height. *)
Theorem gap_holds_checkpoint (s : Z) (d0 : Db) (hs0 hs : list Z) :
  let t := markAll hs0 (initTracker s d0) in
  (nextToCommit t ∉ hs →
   markAll hs t =
     mkTracker (nextToCommit t) (list_to_set hs ∪ completedHeights t) (db t)) ∧
  (reliable d0 →
   nextToCommit t < nextToCommit (snd (markCompleted (nextToCommit t) t)) ∧
   ckpt_le (Some (nextToCommit t))
           (lastProcessed (db (snd (markCompleted (nextToCommit t) t))))).
Proof.
  intros t. pose proof (markAll_tracked s d0 hs0) as Ht. fold t in Ht. split.
  - apply markAll_gap. apply (tr_exit _ _ _ _ Ht).
  - intros Hr. destruct (markCompleted (nextToCommit t) t) as [c t'] eqn:Hm. simpl.
    pose proof Hm as Hfl. apply markCompleted_flushed in Hfl as [k Hk].
    destruct (fl_reliable _ _ _ _ Hk (tr_reliable _ _ _ _ Ht Hr)) as [-> _].
    pose proof (markCompleted_cursor_advances _ _ _ Hm eq_refl) as Hadv.
    split; [done|]. rewrite (fl_last _ _ _ _ Hk).
    pose proof (fl_cursor _ _ _ _ Hk) as Hc. simpl in Hc.
    case_decide; [lia|]. simpl. lia.
Qed.

Lemma gap_holds_checkpoint_witness :
  markAll [8; 7; 9] (markAll [5] (initTracker 5 (mkDb None [] []))) =
    mkTracker 6 (list_to_set [8; 7; 9] ∪ ∅) (mkDb (Some 5) [5] []).
Proof.
  etrans; [apply (gap_holds_checkpoint 5 (mkDb None [] []) [5] [8; 7; 9])|].
  - vm_compute. set_solver.
  - vm_compute. reflexivity.
Defined.

(** X7 - A failed write loses a height.  When a completion notice ends with
    the store throwing, the height the write was for (the one at the cursor
    afterwards) had been reported - it is the height of the notice or was
    pending - and is now neither in the pending set nor written; the values
    written before it in this call stay written.  From then on, whatever is
    reported, as long as that very height is not reported again the cursor
    and the store do not change. *)
Theorem failed_write_loses_height (s : Z) (d0 : Db) (hs0 : list Z) (h : Z) (t' : Tracker) :
  let t := markAll hs0 (initTracker s d0) in
  markCompleted h t = (Thrown, t') →
  (nextToCommit t' = h ∨ nextToCommit t' ∈ completedHeights t) ∧
  (nextToCommit t' ∉ completedHeights t') ∧
  (writeLog (db t') =
     writeLog (db t) ++ seqZ (nextToCommit t) (nextToCommit t' - nextToCommit t)) ∧
  (nextToCommit t' ∉ seqZ (nextToCommit t) (nextToCommit t' - nextToCommit t)) ∧
  (∀ hs, nextToCommit t' ∉ hs →
         nextToCommit (markAll hs t') = nextToCommit t' ∧ db (markAll hs t') = db t').
Proof.
  intros t Hm. apply markCompleted_flushed in Hm as [k Hk].
  destruct (fl_thrown _ _ _ _ Hk eq_refl) as [Hin _]. simpl in Hin.
  pose proof (fl_exit _ _ _ _ Hk) as Hex. pose proof (fl_cursor _ _ _ _ Hk) as Hc.
  simpl in Hc. split; [|split; [done|split; [|split]]].
  - apply elem_of_union in Hin as [Hin|Hin]; [left; by apply elem_of_singleton in Hin|by right].
  - rewrite (fl_log _ _ _ _ Hk). simpl. do 2 f_equal. lia.
  - rewrite elem_of_seqZ. lia.
  - intros hs Hhs. by rewrite markAll_gap.
Qed.

Lemma failed_write_loses_height_witness :
  let t' := mkTracker 6 ∅ (mkDb (Some 5) [5] []) in
  nextToCommit (markAll [5; 7; 8] t') = 6 ∧ db (markAll [5; 7; 8] t') = db t'.
Proof.
  intros t'.
  apply (failed_write_loses_height 5 (mkDb None [] [false; true]) [6] 5 t').
  - vm_compute. reflexivity.
  - vm_compute. set_solver.
Defined.

(** X8 - The order of arrival does not matter.  With a store that does not
    throw, two series of completion notices for the same heights, in any
    order and with any repetitions, leave the same cursor, the same
    checkpoint and the same log of writes, and the same pending heights
    above the cursor. *)
Theorem order_of_arrival_irrelevant (s : Z) (d0 : Db) (hs1 hs2 : list Z) :
  let t1 := markAll hs1 (initTracker s d0) in
  let t2 := markAll hs2 (initTracker s d0) in
  reliable d0 → (∀ h, h ∈ hs1 ↔ h ∈ hs2) →
  nextToCommit t1 = nextToCommit t2 ∧
  lastProcessed (db t1) = lastProcessed (db t2) ∧
  writeLog (db t1) = writeLog (db t2) ∧
  (∀ j, nextToCommit t1 ≤ j → j ∈ completedHeights t1 ↔ j ∈ completedHeights t2).
Proof.
  intros t1 t2 Hr Hsame.
  pose proof (markAll_tracked s d0 hs1) as H1. fold t1 in H1.
  pose proof (markAll_tracked s d0 hs2) as H2. fold t2 in H2.
  assert (∀ hs hs' t t', tracked s d0 hs t → tracked s d0 hs' t' →
            (∀ h, h ∈ hs → h ∈ hs') → nextToCommit t ≤ nextToCommit t') as Hle.
  { intros hs hs' t t' Ht Ht' Hsub.
    destruct (decide (nextToCommit t ≤ nextToCommit t')) as [|Hgt]; [done|].
    exfalso. apply (tr_exit _ _ _ _ Ht'). apply (tr_all _ _ _ _ Ht' Hr); [|lia].
    apply Hsub, (tr_prefix _ _ _ _ Ht). pose proof (tr_start _ _ _ _ Ht'). lia. }
  assert (nextToCommit t1 = nextToCommit t2) as Hc.
  { apply Z.le_antisymm; eapply Hle; try done; intros h; apply Hsame. }
  split; [done|]. split; [|split].
  - by rewrite (tr_last _ _ _ _ H1), (tr_last _ _ _ _ H2), Hc.
  - by rewrite (tr_log _ _ _ _ H1), (tr_log _ _ _ _ H2), Hc.
  - intros j Hj. split; intros Hin.
    + apply (tr_all _ _ _ _ H2 Hr); [|lia]. apply Hsame, (tr_pending _ _ _ _ H1), Hin.
    + apply (tr_all _ _ _ _ H1 Hr); [|lia]. apply Hsame, (tr_pending _ _ _ _ H2), Hin.
Qed.

Lemma order_of_arrival_irrelevant_witness :
  nextToCommit (markAll [7; 5; 6; 9] (initTracker 5 (mkDb None [] []))) =
  nextToCommit (markAll [5; 6; 9; 7; 5] (initTracker 5 (mkDb None [] []))).
Proof.
  apply (order_of_arrival_irrelevant 5 (mkDb None [] []) [7; 5; 6; 9] [5; 6; 9; 7; 5]).
  - unfold reliable. simpl. apply not_elem_of_nil.
  - intros h. rewrite !elem_of_cons, !elem_of_nil. tauto.
Defined.

(** ** One successful call of the event sink per height *)

Lemma elem_of_normalHeights h sc : h ∈ normalHeights sc ↔ (h, Normal) ∈ sc.
Proof.
  unfold normalHeights. rewrite list_elem_of_omap. split.
  - intros ([h' c] & Hin & E). simpl in E. destruct c; try done. by injection E as ->.
  - intros Hin. by exists (h, Normal).
Qed.

Lemma initWorld_once o d : reliable d → once (initWorld o d).
Proof.
  intros Hr. rewrite initWorld_fields. split; simpl.
  - apply NoDup_nil_2.
  - by intros h ?%elem_of_nil.
  - intros i st h _ _ _. apply not_elem_of_nil.
  - done.
  - intros i h b c Hi. by apply spawn_states in Hi as [[? ?]|?].
Qed.

(** A worker that is still to call the sink changes state and keeps its
    height. *)
Lemma once_retag w w' (i : nat) st st' :
  once w → workers w !! i = Some st →
  workers w' = <[i := st']> (workers w) → queue w' = queue w →
  tracker w' = tracker w →
  normalHeights (sinkCalls w') = normalHeights (sinkCalls w) →
  heightOf st' = heightOf st → beforeSink st = true → beforeSink st' = true →
  once w'.
Proof.
  intros [Hnd Hqu Hfr Hre Hno] Hi Hws Hq Ht Hn Hh Hst Hst'.
  split; rewrite ?Hws, ?Hq, ?Ht, ?Hn; try done.
  - intros j sj h Hj Hsj Hb. apply lookup_insert_is in Hj as [[_ ->]|[_ Hj]].
    + eapply Hfr; [exact Hi|congruence|done].
    + by eapply Hfr.
  - intros j h b c Hj. apply lookup_insert_is in Hj as [[_ E]|[_ Hj]].
    + by rewrite <- E in Hst'.
    + by eapply Hno.
Qed.

Lemma worker_once o i ev w w' :
  worker o i ev w = Some w' →
  pooled o (workers w) (queue w) (sleeps w) → once w → once w'.
Proof.
  intros H Hp Hon. pose proof Hon as [Hnd Hqu Hfr Hre Hno].
  stepped_cases H.
  - by eapply once_retag; [exact Hon|exact Hw|..].
  - eapply once_retag; [exact Hon|exact Hw|done..| |done|done|done].
    simpl. by rewrite normalHeights_app, app_nil_r.
  - assert (h ∉ normalHeights (sinkCalls w)) as Hnew by (by eapply Hfr).
    split; simpl; rewrite ?normalHeights_app; simpl.
    + apply NoDup_app. split; [done|]. split; [|apply NoDup_singleton].
      intros h0 Hin ->%list_elem_of_singleton. done.
    + intros h0 Hin. apply elem_of_app in Hin as [?|Hin]; [by apply Hqu|].
      apply list_elem_of_singleton in Hin as ->. by eapply (po_disjoint _ _ _ _ Hp).
    + intros j sj h0 Hj Hsj Hb. apply lookup_insert_is in Hj as [[_ ->]|[Hne Hj]]; [done|].
      rewrite elem_of_app, list_elem_of_singleton. intros [Hin| ->].
      * by eapply Hfr.
      * apply Hne. by eapply (po_unique _ _ _ _ Hp).
    + done.
    + intros j h0 b0 c0 Hj. apply lookup_insert_is in Hj as [[_ ?]|[_ Hj]]; [done|].
      by eapply Hno.
  - apply markCompleted_flushed in Hm as [k Hk].
    destruct (fl_reliable _ _ _ _ Hk Hre) as [-> Hre'].
    split; simpl; try done.
    + intros j sj h0 Hj Hsj Hb. apply lookup_insert_is in Hj as [[_ ->]|[_ Hj]]; [done|].
      by eapply Hfr.
    + intros j h0 b0 c0 Hj. apply lookup_insert_is in Hj as [[_ E]|[_ Hj]].
      * by injection E as _ _ <-.
      * by eapply Hno.
  - unfold nextJob. destruct (queue w) as [|h' q'] eqn:Hq'; simpl.
    + split; simpl; try done.
      * intros j sj h0 Hj Hsj Hb. apply lookup_insert_is in Hj as [[_ ->]|[_ Hj]]; [done|].
        by eapply Hfr.
      * intros j h0 b0 c0 Hj. apply lookup_insert_is in Hj as [[_ ?]|[_ Hj]]; [done|].
        by eapply Hno.
    + split; simpl; try done.
      * intros h0 Hin Hq0. apply (Hqu h0 Hin). by right.
      * intros j sj h0 Hj Hsj Hb. apply lookup_insert_is in Hj as [[_ ->]|[_ Hj]].
        -- simpl in Hsj. injection Hsj as <-. intros Hin. apply (Hqu h' Hin). left.
        -- by eapply Hfr.
      * intros j h0 b0 c0 Hj. apply lookup_insert_is in Hj as [[_ ?]|[_ Hj]]; [done|].
        by eapply Hno.
  - by apply Hno in Hw.
  - by eapply once_retag; [exact Hon|exact Hw|..].
Qed.

Lemma reachable_once o d w : reliable d → reachable o d w → once w.
Proof.
  intros Hr. induction 1 as [|w i ev w' Hreach IH Hst]; [by apply initWorld_once|].
  eapply worker_once; [exact Hst|by eapply reachable_pooled|done].
Qed.

(** What has been reported when the run is over. *)
Lemma resolved_covers o d w :
  let s := scanStart (start o) (getLastProcessedBlockHeight d) in
  reliable d → 0 < blockConcurrency o → reachable o d w → joined w = Resolved →
  ∃ hs, tracker w = markAll hs (initTracker s d) ∧
        (∀ h, h ∈ hs → processed h w) ∧
        (∀ h, s ≤ h ≤ end_ o → h ∈ hs) ∧
        (∀ h, h ∈ hs → s ≤ h ≤ end_ o).
Proof.
  intros s Hr Hn Hreach Hj. apply reachable_exec in Hreach as [sched Hex].
  pose proof (exec_length _ _ _ _ Hex) as Hlen.
  rewrite initWorld_fields in Hex, Hlen. fold s in Hex, Hlen. simpl in Hlen.
  rewrite spawn_length in Hlen.
  apply (exec_progress o s (end_ o) d _ _ _ []) in Hex
    as (hs & Ht & Hpr & [Hc Hq Hh Hrep Hd Hi]); simpl; try done.
  - exists hs. split; [done|]. split; [done|]. split; [|done].
    assert (queue w = []) as Hempty.
    { destruct (workers w) as [|st ws] eqn:Hws; [simpl in Hlen; lia|].
      apply (Hi 0%nat). simpl. f_equal.
      apply (joined_resolved w 0 st Hj). by rewrite Hws. }
    intros h Hrange. destruct (Hc h Hrange) as [Hin|[(i & st & Hlook & Hst)|?]]; [| |done].
    + rewrite Hempty in Hin. by apply elem_of_nil in Hin.
    + by rewrite (joined_resolved _ _ _ Hj Hlook) in Hst.
  - intros i h b Hlook. simpl in Hlook. by apply spawn_not_committing in Hlook.
  - intros h Hh. by apply elem_of_nil in Hh.
  - apply spawn_progress.
Qed.

(** X9 - One successful call of the event sink per height.  With a store
    that does not throw, at any point of a run the event sink has returned
    at most once for any height and no commit has thrown; and when the run
    is over (at least one worker), the heights for which the sink has
    returned are exactly those of the range, each once. *)
Theorem processed_exactly_once (o : RunScanOptions) (d : Db) (w : World) :
  let s := scanStart (start o) (getLastProcessedBlockHeight d) in
  reliable d → reachable o d w →
  NoDup (normalHeights (sinkCalls w)) ∧
  (∀ (i : nat) h b c, workers w !! i = Some (Committed h b c) → c = Normal) ∧
  (0 < blockConcurrency o → joined w = Resolved →
   normalHeights (sinkCalls w) ≡ₚ seqZ s (end_ o - s + 1)).
Proof.
  intros s Hr Hreach. destruct (reachable_once _ _ _ Hr Hreach) as [Hnd _ _ _ Hno].
  split; [done|]. split; [done|]. intros Hn Hj.
  destruct (resolved_covers _ _ _ Hr Hn Hreach Hj) as (hs & _ & Hpr & Hall & _). fold s in Hall.
  destruct (reachable_ranged _ _ _ Hreach) as [_ _ Hs _]. fold s in Hs.
  apply NoDup_Permutation; [done|apply NoDup_seqZ|].
  intros h. rewrite elem_of_normalHeights, elem_of_seqZ. split.
  - intros Hin. apply Hs in Hin. lia.
  - intros Hin. apply Hpr, Hall. lia.
Qed.

Lemma processed_exactly_once_witness :
  let o := mkOptions 5 6 2 1000 10000 in
  let w := mkWorld [Finished; Finished] [] (mkTracker 7 ∅ (mkDb (Some 6) [5; 6] [])) []
                   [(6, Normal); (5, Thrown); (5, Normal)] [(5, 1000)] in
  normalHeights (sinkCalls w) ≡ₚ seqZ 5 (6 - 5 + 1).
Proof.
  intros o w.
  assert (reachable o (mkDb None [] []) w) as Hr.
  { apply (exec_reachable o _
             [(1%nat, RpcOk); (0%nat, SinkFail); (0%nat, Wake); (0%nat, RpcOk);
              (1%nat, Commit); (0%nat, Commit); (1%nat, Resume); (0%nat, Resume)]
             (initWorld o (mkDb None [] []))); [apply reach_init|vm_compute; reflexivity]. }
  assert (reliable (mkDb None [] [])) as Hrel by (unfold reliable; simpl; apply not_elem_of_nil).
  destruct (processed_exactly_once o _ w Hrel Hr) as (_ & _ & H).
  apply H; [simpl; lia|reflexivity].
Defined.

(** ** Bounds on the sleeps *)

Lemma elem_of_delaysOf h b sl : b ∈ delaysOf h sl ↔ (h, b) ∈ sl.
Proof.
  unfold delaysOf. rewrite list_elem_of_In, in_map_iff. split.
  - intros ([h' b'] & <- & Hin). apply list_elem_of_In, list_elem_of_filter in Hin as [E Hin].
    simpl in *. by subst.
  - intros Hin. exists (h, b). split; [done|].
    apply list_elem_of_In, list_elem_of_filter. done.
Qed.

Lemma elem_of_backoffSeq o n b : b ∈ backoffSeq o n → ∃ k, b = backoffAt o k.
Proof.
  unfold backoffSeq. rewrite list_elem_of_In, in_map_iff. intros (k & <- & _). by exists k.
Qed.

Lemma backoffAt_bounds o n :
  0 ≤ retryBackoffMs o → 0 ≤ retryMaxBackoffMs o →
  0 ≤ backoffAt o n ≤ Z.max (retryBackoffMs o) (retryMaxBackoffMs o).
Proof. intros Hb Hm. induction n as [|n IH]; simpl; lia. Qed.

Lemma backoffAt_zero o n :
  retryBackoffMs o = 0 → 0 ≤ retryMaxBackoffMs o → backoffAt o n = 0.
Proof. intros Hb Hm. induction n as [|n IH]; simpl; lia. Qed.

Lemma backoffAt_mono o n :
  0 ≤ retryBackoffMs o ≤ retryMaxBackoffMs o → backoffAt o n ≤ backoffAt o (S n).
Proof.
  intros Hb.
  assert (0 ≤ backoffAt o n ≤ retryMaxBackoffMs o); [|simpl; lia].
  induction n as [|n IH]; simpl; lia.
Qed.

Lemma lookup_map_seq (f : nat → Z) n : ∀ a k b,
  map f (seq a n) !! k = Some b → b = f (a + k)%nat.
Proof.
  induction n as [|n IH]; intros a k b; simpl; [done|].
  destruct k as [|k]; simpl.
  - intros [= <-]. f_equal. lia.
  - intros H. apply IH in H. rewrite H. f_equal. lia.
Qed.

Lemma backoffSeq_lookup o n k b : backoffSeq o n !! k = Some b → b = backoffAt o k.
Proof. unfold backoffSeq. intros H. by apply lookup_map_seq in H. Qed.

(** X10 - Bounds on the sleeps.  With a base delay and a maximum that are not
    negative, every sleep of a run lasts between 0 and the larger of the
    two; with a base delay of 0 every sleep lasts 0 ms, so a failing height
    is retried without any pause; with a base delay between 0 and the
    maximum the successive delays of a height never shrink, and the [k]-th
    of them is the maximum as soon as [max <= base * 2^k]. *)
Theorem sleep_bounds (o : RunScanOptions) (d : Db) (w : World) (h b : Z) :
  reachable o d w → (h, b) ∈ sleeps w →
  0 ≤ retryBackoffMs o → 0 ≤ retryMaxBackoffMs o →
  0 ≤ b ≤ Z.max (retryBackoffMs o) (retryMaxBackoffMs o) ∧
  (retryBackoffMs o = 0 → b = 0) ∧
  (retryBackoffMs o ≤ retryMaxBackoffMs o →
   (∀ (k : nat) b1 b2,
      delaysOf h (sleeps w) !! k = Some b1 → delaysOf h (sleeps w) !! S k = Some b2 →
      b1 ≤ b2) ∧
   (∀ (k : nat) b',
      retryMaxBackoffMs o ≤ retryBackoffMs o * 2 ^ Z.of_nat k →
      delaysOf h (sleeps w) !! k = Some b' → b' = retryMaxBackoffMs o)).
Proof.
  intros Hr Hin Hb Hm.
  destruct (po_delays _ _ _ _ (reachable_pooled _ _ _ Hr) h) as [n Hn].
  apply elem_of_delaysOf in Hin. rewrite Hn in *.
  apply elem_of_backoffSeq in Hin as [k ->].
  split; [by apply backoffAt_bounds|]. split; [intros; by apply backoffAt_zero|].
  intros Hle. split.
  - intros m b1 b2 H1 H2. apply backoffSeq_lookup in H1 as ->, H2 as ->.
    by apply backoffAt_mono.
  - intros m b' Hsat H1. apply backoffSeq_lookup in H1 as ->.
    rewrite backoffAt_closed by done. lia.
Qed.

Lemma sleep_bounds_witness :
  let o := mkOptions 5 5 1 3000 10000 in
  let w := mkWorld [Sleeping 5 10000] [] (initTracker 5 (mkDb None [] [])) [] []
                   [(5, 3000); (5, 6000); (5, 10000)] in
  0 ≤ 10000 ≤ Z.max 3000 10000.
Proof.
  intros o w.
  assert (reachable o (mkDb None [] []) w) as Hr.
  { apply (exec_reachable o _
             [(0%nat, RpcFail); (0%nat, Wake); (0%nat, RpcFail); (0%nat, Wake); (0%nat, RpcFail)]
             (initWorld o (mkDb None [] []))); [apply reach_init|vm_compute; reflexivity]. }
  apply (sleep_bounds o _ w 5 10000 Hr); [|simpl; lia|simpl; lia].
  simpl. set_solver.
Defined.

(** * The consensus capture with locks *)

Lemma CO_lookup_insert_is (ws : list CO.wstate) (i j : nat) st st' :
  <[i := st']> ws !! j = Some st → (i = j ∧ st = st') ∨ (i ≠ j ∧ ws !! j = Some st).
Proof.
  intros H. apply list_lookup_insert_Some in H as [(-> & <- & _)|[? ?]]; [by left|by right].
Qed.

(** A worker that holds a height it has not reported keeps it through a
    change of state of worker [j] that does the same for [j]. *)
Lemma CO_unreported_insert (ws : list CO.wstate) (j : nat) stj X (i : nat) st h :
  ws !! j = Some stj →
  (CO.unreported stj = true → CO.unreported X = true ∧ CO.heightOf X = CO.heightOf stj) →
  ws !! i = Some st → CO.unreported st = true → CO.heightOf st = Some h →
  ∃ st', <[j := X]> ws !! i = Some st' ∧ CO.unreported st' = true ∧ CO.heightOf st' = Some h.
Proof.
  intros Hj HX Hi Hst Hh. destruct (decide (j = i)) as [->|Hne].
  - rewrite Hi in Hj. injection Hj as <-. destruct (HX Hst) as [HX1 HX2].
    exists X. split; [|split; [done|congruence]].
    apply list_lookup_insert_eq. by eapply lookup_lt_Some.
  - exists st. by rewrite list_lookup_insert_ne.
Qed.

(** Once [commitLock] is rejected, a transition leaves it rejected, leaves
    the tracker alone, and lets no worker get rid of an unreported height. *)
Lemma CO_worker_rejected c j ev w w' :
  CO.worker c j ev w = Some w' → CO.commitRejected w = true →
  CO.commitRejected w' = true ∧ CO.tracker w' = CO.tracker w ∧
  ∀ (i : nat) st h,
    CO.workers w !! i = Some st → CO.unreported st = true → CO.heightOf st = Some h →
    ∃ st', CO.workers w' !! i = Some st' ∧ CO.unreported st' = true ∧ CO.heightOf st' = Some h.
Proof.
  unfold CO.worker. intros H Hrej.
  destruct (CO.workers w !! j) as [[|h b|h b|h b r|h b|]|] eqn:Hj; [| | | | |done..].
  - destruct ev; try done. destruct (CO.first j (CO.allocationLock w)); [|done].
    destruct (CaptureConsensus.getNextHeight _ _) as [[h|] n']; injection H as <-; simpl;
      (split; [done|split; [done|]]); intros i st h0; by apply CO_unreported_insert with (stj := CO.Allocating).
  - destruct ev; try done; injection H as <-; simpl; (split; [done|split; [done|]]);
      intros i st h0; by apply CO_unreported_insert with (stj := CO.Fetching h b).
  - destruct ev; try done. destruct (CO.first j (CO.commitLock w)); [|done].
    rewrite Hrej in H. injection H as <-. simpl. split; [done|split; [done|]].
    intros i st h0. by apply CO_unreported_insert with (stj := CO.Committing h b).
  - destruct ev; try done. destruct r; try done; injection H as <-; simpl;
      (split; [done|split; [done|]]); intros i st h0.
    + by apply CO_unreported_insert with (stj := CO.Committed h b Normal).
    + by apply CO_unreported_insert with (stj := CO.Committed h b Thrown).
  - destruct ev; try done. injection H as <-. simpl. split; [done|split; [done|]].
    intros i st h0. by apply CO_unreported_insert with (stj := CO.Sleeping h b).
Qed.

Lemma CO_exec_rejected c sched : ∀ w w',
  CO.exec c sched w = Some w' → CO.commitRejected w = true →
  CO.commitRejected w' = true ∧ CO.tracker w' = CO.tracker w ∧
  ∀ (i : nat) st h,
    CO.workers w !! i = Some st → CO.unreported st = true → CO.heightOf st = Some h →
    ∃ st', CO.workers w' !! i = Some st' ∧ CO.unreported st' = true ∧ CO.heightOf st' = Some h.
Proof.
  induction sched as [|[j ev] sched IH]; intros w w'; simpl.
  - intros [= <-] Hrej. split; [done|split; [done|]]. intros i st h Hi Hst Hh. by exists st.
  - destruct (CO.worker c j ev w) as [w1|] eqn:Hst; [|done]. intros Hex Hrej.
    destruct (CO_worker_rejected _ _ _ _ _ Hst Hrej) as (Hrej1 & Ht1 & Hkeep1).
    destruct (IH _ _ Hex Hrej1) as (Hrej' & Ht' & Hkeep').
    split; [done|]. split; [congruence|].
    intros i st h Hi Hun Hh. destruct (Hkeep1 _ _ _ Hi Hun Hh) as (st1 & Hi1 & Hun1 & Hh1).
    by eapply Hkeep'.
Qed.

Lemma CO_joined_pending w (i : nat) st :
  CO.workers w !! i = Some st → CO.unreported st = true → CO.joined w = Pending.
Proof.
  intros Hi Hst. unfold CO.joined.
  destruct (forallb CO.isFinished (CO.workers w)) eqn:E; [|done].
  rewrite forallb_forall in E.
  assert (CO.isFinished st = true) as Hf.
  { apply E. apply list_elem_of_In. by eapply list_elem_of_lookup_2. }
  by destruct st.
Qed.

(** X11 - A failed write blocks the lock-based capture for good.  When the
    callback of [markCompleted] throws, [commitLock] is left rejected: the
    worker whose notice it was takes the exception, and from then on,
    whatever the schedule, no callback chained on [commitLock] is run, the
    tracker and the store stay as the failed call left them, every worker
    that holds an unreported height keeps it (it retries it for ever), and
    the promise of [main] stays pending. *)
Theorem commit_lock_poisoned (c : CaptureConsensus.Config) (w : CO.World) (i : nat)
    (h b : Z) (t' : Tracker) (others : list nat) :
  CO.workers w !! i = Some (CO.Committing h b) →
  CO.commitLock w = i :: others →
  CO.commitRejected w = false →
  markCompleted h (CO.tracker w) = (Thrown, t') →
  ∃ w1, CO.worker c i CO.Commit w = Some w1 ∧
        CO.workers w1 = <[i := CO.Committed h b Thrown]> (CO.workers w) ∧
        CO.commitRejected w1 = true ∧ CO.tracker w1 = t' ∧
        ∀ sched w', CO.exec c sched w1 = Some w' →
          CO.tracker w' = t' ∧ CO.commitRejected w' = true ∧
          CO.joined w' = Pending ∧
          (∃ st', CO.workers w' !! i = Some st' ∧ CO.unreported st' = true ∧
                  CO.heightOf st' = Some h) ∧
          (∀ (j : nat) st hj,
             CO.workers w1 !! j = Some st → CO.unreported st = true →
             CO.heightOf st = Some hj →
             ∃ st', CO.workers w' !! j = Some st' ∧ CO.unreported st' = true ∧
                    CO.heightOf st' = Some hj).
Proof.
  intros Hi Hq Hrej Hm. eexists. split.
  { unfold CO.worker. rewrite Hi, Hq. simpl. rewrite decide_True by done.
    rewrite Hrej, Hm. reflexivity. }
  simpl. split; [done|]. split; [done|]. split; [done|].
  intros sched w' Hex.
  apply CO_exec_rejected in Hex as (Hrej' & Ht' & Hkeep); [|done]. simpl in *.
  assert (i < length (CO.workers w))%nat as Hlt by (by eapply lookup_lt_Some).
  destruct (Hkeep i (CO.Committed h b Thrown) h) as (st' & Hi' & Hun' & Hh'); try done.
  { by apply list_lookup_insert_eq. }
  split; [done|]. split; [done|]. split; [by eapply CO_joined_pending|].
  split; [by exists st'|done].
Qed.

Lemma commit_lock_poisoned_witness :
  let c := CaptureConsensus.mkConfig (CaptureConsensus.Numeral 5) (CaptureConsensus.Numeral 6)
                                     1000 10000 2 in
  let w := CO.mkWorld [CO.Committing 5 1000; CO.Committing 6 1000] 7 []
                      (initTracker 5 (mkDb None [] [true])) [0%nat; 1%nat] false
                      [(5, Normal); (6, Normal)] [] in
  ∃ w1, CO.worker c 0 CO.Commit w = Some w1 ∧ CO.commitRejected w1 = true.
Proof.
  intros c w.
  destruct (commit_lock_poisoned c w 0 5 1000 (mkTracker 5 ∅ (mkDb None [] [])) [1%nat])
    as (w1 & H1 & _ & H2 & _);
    [reflexivity|reflexivity|reflexivity|vm_compute; reflexivity|].
  by exists w1.
Defined.

Lemma CO_sunk_insert (ws : list CO.wstate) (sc sc' : list (Z * completion)) (i : nat) X :
  (∀ (j : nat) h b, ws !! j = Some (CO.Committing h b) → (h, Normal) ∈ sc) →
  (∀ x, x ∈ sc → x ∈ sc') →
  (∀ h b, X = CO.Committing h b → (h, Normal) ∈ sc') →
  ∀ (j : nat) h b, <[i := X]> ws !! j = Some (CO.Committing h b) → (h, Normal) ∈ sc'.
Proof.
  intros Hs Hsub HX j h b Hj. apply CO_lookup_insert_is in Hj as [[_ E]|[_ Hj]].
  - by eapply HX.
  - eapply Hsub, Hs, Hj.
Qed.

(** A transition applies [markCompleted] to the tracker, for a processed
    height, or leaves the tracker alone. *)
Lemma CO_worker_tracker c j ev w w' :
  CO.worker c j ev w = Some w' → sunkLocked w →
  sunkLocked w' ∧
  (∀ x, x ∈ CO.sinkCalls w → x ∈ CO.sinkCalls w') ∧
  (CO.tracker w' = CO.tracker w ∨
   ∃ h, (h, Normal) ∈ CO.sinkCalls w ∧ CO.tracker w' = snd (markCompleted h (CO.tracker w))).
Proof.
  unfold CO.worker, sunkLocked. intros H Hs.
  destruct (CO.workers w !! j) as [[|h b|h b|h b r|h b|]|] eqn:Hj; [| | | | |done..].
  - destruct ev; try done. destruct (CO.first j (CO.allocationLock w)); [|done].
    destruct (CaptureConsensus.getNextHeight _ _) as [[h|] n']; injection H as <-; simpl;
      (split; [eapply CO_sunk_insert; [exact Hs|done|done]|split; [done|by left]]).
  - destruct ev; try done; injection H as <-; simpl.
    + split; [|split; [|by left]].
      * eapply CO_sunk_insert; [exact Hs|intros x ?; apply elem_of_app; by left|].
        intros h0 b0 [= <- <-]. apply elem_of_app. right. left.
      * intros x ?. apply elem_of_app. by left.
    + split; [eapply CO_sunk_insert; [exact Hs|done|done]|split; [done|by left]].
    + split; [|split; [|by left]].
      * eapply CO_sunk_insert; [exact Hs|intros x ?; apply elem_of_app; by left|done].
      * intros x ?. apply elem_of_app. by left.
  - destruct ev; try done. destruct (CO.first j (CO.commitLock w)); [|done].
    destruct (CO.commitRejected w).
    + injection H as <-. simpl.
      split; [eapply CO_sunk_insert; [exact Hs|done|done]|split; [done|by left]].
    + destruct (markCompleted h (CO.tracker w)) as [[] t'] eqn:Hm; [| |done];
        injection H as <-; simpl;
        (split; [eapply CO_sunk_insert; [exact Hs|done|done]|split; [done|]]);
        right; exists h; (split; [by eapply Hs|by rewrite Hm]).
  - destruct ev; try done. destruct r; try done; injection H as <-; simpl;
      (split; [eapply CO_sunk_insert; [exact Hs|done|done]|split; [done|by left]]).
  - destruct ev; try done. injection H as <-. simpl.
    split; [eapply CO_sunk_insert; [exact Hs|done|done]|split; [done|by left]].
Qed.

Lemma CO_exec_markAll c sched : ∀ w w',
  CO.exec c sched w = Some w' → sunkLocked w →
  (∀ x, x ∈ CO.sinkCalls w → x ∈ CO.sinkCalls w') ∧
  ∃ hs, CO.tracker w' = markAll hs (CO.tracker w) ∧
        ∀ h, h ∈ hs → (h, Normal) ∈ CO.sinkCalls w'.
Proof.
  induction sched as [|[j ev] sched IH]; intros w w'; simpl.
  - intros [= <-] _. split; [done|]. exists []. split; [done|]. by intros h ?%elem_of_nil.
  - destruct (CO.worker c j ev w) as [w1|] eqn:Hst; [|done]. intros Hex Hs.
    destruct (CO_worker_tracker _ _ _ _ _ Hst Hs) as (Hs1 & Hmono1 & Htr).
    destruct (IH _ _ Hex Hs1) as (Hmono & hs & Ht & Hhs).
    split; [by intros x ?; apply Hmono, Hmono1|].
    destruct Htr as [Htr|(h & Hh & Htr)].
    + exists hs. by rewrite Ht, Htr.
    + exists (h :: hs). rewrite markAll_cons, Ht, Htr. split; [done|].
      intros h' Hh'. apply elem_of_cons in Hh' as [->|Hh']; [|by apply Hhs].
      by apply Hmono, Hmono1.
Qed.

(** X12 - Prefix-only commit in the lock-based capture.  Whatever the
    schedule and whatever the store does, the values the lock-based capture
    has written to the store are consecutive heights from the start of the
    scan, each of them a height [v] such that the event sink has returned
    for every height from the start to [v]; and the checkpoint is never
    below the one found at the start. *)
Theorem locked_capture_prefix_commit (c : CaptureConsensus.Config) (d : Db)
    (sched : list (nat * CO.event)) (w : CO.World) :
  let s := scanStart (CaptureConsensus.valueOf (CaptureConsensus.START c))
                     (getLastProcessedBlockHeight d) in
  CO.exec c sched (CO.initWorld c d) = Some w →
  ∃ ws, writeLog (db (CO.tracker w)) = writeLog d ++ ws ∧
        ws = seqZ s (nextToCommit (CO.tracker w) - s) ∧
        (∀ v, v ∈ ws → ∀ j, s ≤ j ≤ v → (j, Normal) ∈ CO.sinkCalls w) ∧
        ckpt_le (lastProcessed d) (lastProcessed (db (CO.tracker w))).
Proof.
  intros s Hex. apply CO_exec_markAll in Hex as (_ & hs & Ht & Hhs).
  - simpl in Ht. fold s in Ht.
    pose proof (markAll_tracked s d hs) as Htr. rewrite <- Ht in Htr.
    eexists. split; [apply (tr_log _ _ _ _ Htr)|]. split; [done|]. split.
    + intros v Hv j Hj. apply elem_of_seqZ in Hv.
      apply Hhs, (tr_prefix _ _ _ _ Htr). lia.
    + apply (tracked_ckpt_le _ _ _ _ Htr). intros c0 Hc0. by apply scanStart_ge.
  - intros i h b Hi. simpl in Hi. by apply lookup_replicate in Hi as [? _].
Qed.

Lemma locked_capture_prefix_commit_witness :
  let c := CaptureConsensus.mkConfig (CaptureConsensus.Numeral 5) (CaptureConsensus.Numeral 6)
                                     1000 10000 2 in
  let w := CO.mkWorld [CO.Committed 5 1000 Normal; CO.Committed 6 1000 Normal] 7 []
                      (mkTracker 7 ∅ (mkDb (Some 6) [5; 6] [])) [] false
                      [(6, Normal); (5, Normal)] [] in
  ∃ ws, writeLog (db (CO.tracker w)) = writeLog (mkDb None [] []) ++ ws ∧
        ws = seqZ 5 (nextToCommit (CO.tracker w) - 5) ∧
        (∀ v, v ∈ ws → ∀ j, 5 ≤ j ≤ v → (j, Normal) ∈ CO.sinkCalls w) ∧
        ckpt_le None (lastProcessed (db (CO.tracker w))).
Proof.
  intros c w.
  apply (locked_capture_prefix_commit c (mkDb None [] [])
           [(0%nat, CO.Alloc); (1%nat, CO.Alloc); (1%nat, CO.RpcOk); (0%nat, CO.RpcOk);
            (1%nat, CO.Commit); (0%nat, CO.Commit)] w).
  vm_compute. reflexivity.
Defined.

(** ** The promise chains and the heights of the capture with locks *)

Lemma chainOf_same P ws chain (j : nat) st X :
  ws !! j = Some st → P st = false → P X = false →
  chainOf P ws chain → chainOf P (<[j := X]> ws) chain.
Proof.
  intros Hj Hst HX [Hnd Hin]. split; [done|]. intros i. rewrite Hin. split.
  - intros (s & Hi & Hs). exists s. split; [|done].
    rewrite list_lookup_insert_ne; [done|]. intros <-. congruence.
  - intros (s & Hi & Hs). apply CO_lookup_insert_is in Hi as [[_ ->]|[_ Hi]]; [congruence|].
    by exists s.
Qed.

Lemma chainOf_pop P ws (j : nat) others X :
  P X = false → chainOf P ws (j :: others) → chainOf P (<[j := X]> ws) others.
Proof.
  intros HX [Hnd Hin]. apply NoDup_cons in Hnd as [Hj Hnd]. split; [done|]. intros i. split.
  - intros Hi. destruct (proj1 (Hin i)) as (s & Hl & Hs); [by right|].
    exists s. split; [|done]. rewrite list_lookup_insert_ne; [done|]. by intros <-.
  - intros (s & Hi & Hs). apply CO_lookup_insert_is in Hi as [[_ ->]|[Hne Hi]]; [congruence|].
    assert (i ∈ j :: others) as Hm by (apply Hin; by exists s).
    apply elem_of_cons in Hm as [->|?]; done.
Qed.

Lemma chainOf_push P ws chain (j : nat) st X :
  ws !! j = Some st → P st = false → P X = true →
  chainOf P ws chain → chainOf P (<[j := X]> ws) (chain ++ [j]).
Proof.
  intros Hj Hst HX [Hnd Hin].
  assert (j ∉ chain) as Hout. { intros (s & Hl & Hs)%Hin. congruence. }
  split.
  - apply NoDup_app. split; [done|]. split; [|apply NoDup_singleton].
    intros i Hi ->%list_elem_of_singleton. done.
  - intros i. rewrite elem_of_app, list_elem_of_singleton, Hin. split.
    + intros [(s & Hi & Hs)| ->].
      * exists s. split; [|done]. rewrite list_lookup_insert_ne; [done|]. intros <-. congruence.
      * exists X. split; [|done]. apply list_lookup_insert_eq. by eapply lookup_lt_Some.
    + intros (s & Hi & Hs). apply CO_lookup_insert_is in Hi as [[-> _]|[_ Hi]]; [by right|].
      left. by exists s.
Qed.

(** The transitions of [CO.worker], one goal each: the counter is past
    [END] or not at [Alloc]; the three events of a worker that fetches;
    [Commit] on a rejected chain, with a callback that returns, with one
    that throws; [Resume] after either; [Wake]. *)
Ltac locked_cases c ev H :=
  unfold CO.worker in H;
  match type of H with
  | context [CO.workers ?w !! ?j] =>
      let h := fresh "h" in
      let b := fresh "b" in
      let r := fresh "r" in
      let j' := fresh "j'" in
      let others := fresh "others" in
      let t' := fresh "t'" in
      destruct (CO.workers w !! j) as [[|h b|h b|h b r|h b|]|] eqn:Hw; [| | | | |done..];
      [ destruct ev; try done;
        destruct (CO.allocationLock w) as [|j' others] eqn:Hlock; [done|]; simpl in H;
        destruct (decide (j' = j)) as [->|]; [|done];
        unfold CC.getNextHeight, CaptureConsensus.getNextHeight in H;
        destruct (Z.ltb_spec (CaptureConsensus.valueOf (CaptureConsensus.END c))
                             (CO.nextHeight w)) as [Hpast|Hin];
        injection H as <-
      | destruct ev; try done; injection H as <-
      | destruct ev; try done;
        destruct (CO.commitLock w) as [|j' others] eqn:Hlock; [done|]; simpl in H;
        destruct (decide (j' = j)) as [->|]; [|done];
        destruct (CO.commitRejected w) eqn:Hrej;
        [ injection H as <-
        | destruct (markCompleted h (CO.tracker w)) as [[] t'] eqn:Hm; [| |done];
          injection H as <- ]
      | destruct ev; try done; destruct r; try done; injection H as <-
      | destruct ev; try done; injection H as <- ]
  end.

Lemma CO_worker_chained c j ev w w' :
  CO.worker c j ev w = Some w' → chained w → chained w'.
Proof.
  intros H [Ha Hc]. locked_cases c ev H; split; simpl; try (rewrite Hlock in * );
    first [ by eapply chainOf_pop
          | by eapply chainOf_push; [exact Hw|..]
          | by eapply chainOf_same; [exact Hw|..] ].
Qed.

Lemma initWorld_chained c d : chained (CO.initWorld c d).
Proof.
  unfold CO.initWorld. split; simpl.
  - split; [apply NoDup_seq|]. intros i. rewrite elem_of_seq. split.
    + intros Hi. exists CO.Allocating. split; [|done]. apply lookup_replicate. split; [done|lia].
    + intros (st & Hi & _). apply lookup_replicate in Hi. lia.
  - split; [apply NoDup_nil_2|]. intros i. split; [by intros ?%elem_of_nil|].
    intros (st & Hi & Hst). apply lookup_replicate in Hi as [-> _]. done.
Qed.

(** A worker changes state and holds what it held or nothing. *)
Lemma allotted_retag s e n w w' (j : nat) st X :
  allotted s e n w → CO.workers w !! j = Some st →
  CO.workers w' = <[j := X]> (CO.workers w) → CO.nextHeight w' = CO.nextHeight w →
  (∀ h, CO.heightOf X = Some h → CO.heightOf st = Some h) →
  (X = CO.Finished → e < CO.nextHeight w) →
  (∀ h r, (h, r) ∈ CO.sinkCalls w' → s ≤ h ≤ e) →
  (∀ h b, (h, b) ∈ CO.sleeps w' → s ≤ h ≤ e) →
  allotted s e n w'.
Proof.
  intros [Hlen Hnext Hheld Huni Hidle Hsink Hsl] Hj Hws Hnx HX Hfin Hsink' Hsl'.
  split; rewrite ?Hws, ?Hnx; try done.
  - by rewrite length_insert.
  - intros i si h Hi Hsi. apply CO_lookup_insert_is in Hi as [[_ ->]|[_ Hi]].
    + eapply Hheld; [exact Hj|by apply HX].
    + by eapply Hheld.
  - intros i1 i2 s1 s2 h H1 H2 Hs1 Hs2.
    apply CO_lookup_insert_is in H1 as [[<- ->]|[Hn1 H1]];
      apply CO_lookup_insert_is in H2 as [[E2 ->]|[Hn2 H2]]; try done.
    + eapply (Huni j i2 st s2 h); [done|done|by apply HX|done].
    + eapply (Huni i1 i2 s1 st h); [done|by rewrite <- E2|done|by apply HX].
    + by eapply Huni.
  - intros i Hi. apply CO_lookup_insert_is in Hi as [[_ E]|[_ Hi]].
    + by apply Hfin.
    + by eapply Hidle.
Qed.

Lemma allotted_range s e n w (i : nat) st h :
  allotted s e n w → CO.workers w !! i = Some st → CO.heightOf st = Some h → s ≤ h ≤ e.
Proof.
  intros Hal Hi Hh. pose proof (al_held _ _ _ _ Hal _ _ _ Hi Hh).
  pose proof (al_next _ _ _ _ Hal). lia.
Qed.

Lemma CO_worker_allotted c s n j ev w w' :
  CO.worker c j ev w = Some w' →
  allotted s (CaptureConsensus.valueOf (CaptureConsensus.END c)) n w →
  allotted s (CaptureConsensus.valueOf (CaptureConsensus.END c)) n w'.
Proof.
  intros H Hal. pose proof Hal as [Hlen Hnext Hheld Huni Hidle Hsink Hsl].
  assert (∀ st h x, CO.workers w !! j = Some st → CO.heightOf st = Some h →
            ∀ h0 r, (h0, r) ∈ CO.sinkCalls w ++ [(h, x)] →
                    s ≤ h0 ≤ CaptureConsensus.valueOf (CaptureConsensus.END c)) as Hsk.
  { intros st h x Hj Hh h0 r Hin. apply elem_of_app in Hin as [?|Hin]; [by eapply Hsink|].
    apply list_elem_of_singleton in Hin as [= -> ->]. by eapply allotted_range. }
  assert (∀ st h x, CO.workers w !! j = Some st → CO.heightOf st = Some h →
            ∀ h0 r, (h0, r) ∈ CO.sleeps w ++ [(h, x)] →
                    s ≤ h0 ≤ CaptureConsensus.valueOf (CaptureConsensus.END c)) as Hsp.
  { intros st h x Hj Hh h0 r Hin. apply elem_of_app in Hin as [?|Hin]; [by eapply Hsl|].
    apply list_elem_of_singleton in Hin as [= -> ->]. by eapply allotted_range. }
  locked_cases c ev H;
    try (eapply allotted_retag; [exact Hal|exact Hw|reflexivity|reflexivity|simpl..];
         first [done | by eapply Hsk | by eapply Hsp]).
  split; simpl; try done.
  - by rewrite length_insert.
  - lia.
  - intros i si h Hi Hsi. apply CO_lookup_insert_is in Hi as [[_ ->]|[_ Hi]].
    + simpl in Hsi. injection Hsi as <-. lia.
    + assert (s ≤ h < CO.nextHeight w) by (by eapply Hheld). lia.
  - intros i1 i2 s1 s2 h H1 H2 Hs1 Hs2.
    apply CO_lookup_insert_is in H1 as [[<- ->]|[Hn1 H1]];
      apply CO_lookup_insert_is in H2 as [[E2 ->]|[Hn2 H2]]; try done.
    + simpl in Hs1. injection Hs1 as <-.
      assert (s ≤ CO.nextHeight w < CO.nextHeight w) by (by eapply Hheld). lia.
    + simpl in Hs2. injection Hs2 as <-.
      assert (s ≤ CO.nextHeight w < CO.nextHeight w) by (by eapply Hheld). lia.
    + by eapply Huni.
  - intros i Hi. apply CO_lookup_insert_is in Hi as [[_ ?]|[_ Hi]]; [done|].
    apply Hidle in Hi. lia.
Qed.

Lemma initWorld_allotted c d :
  allotted (scanStart (CaptureConsensus.valueOf (CaptureConsensus.START c))
                      (getLastProcessedBlockHeight d))
           (CaptureConsensus.valueOf (CaptureConsensus.END c))
           (Z.to_nat (CaptureConsensus.BLOCK_CONCURRENCY c)) (CO.initWorld c d).
Proof.
  unfold CO.initWorld. split; simpl.
  - apply length_replicate.
  - lia.
  - intros i st h Hi Hst. apply lookup_replicate in Hi as [-> _]. done.
  - intros i j si sj h Hi _ Hsi. apply lookup_replicate in Hi as [-> _]. done.
  - intros i Hi. apply lookup_replicate in Hi as [? _]. done.
  - by intros h r ?%elem_of_nil.
  - by intros h b ?%elem_of_nil.
Qed.

(** ** The completion notices of the capture with locks *)

Lemma CO_worker_poisoned c j ev w w' :
  CO.worker c j ev w = Some w' →
  (CO.commitRejected w = true →
   ∃ (i : nat) st, CO.workers w !! i = Some st ∧ CO.unreported st = true) →
  CO.commitRejected w' = true →
  ∃ (i : nat) st, CO.workers w' !! i = Some st ∧ CO.unreported st = true.
Proof.
  intros H Hold Hrej'. destruct (CO.commitRejected w) eqn:Hrej0.
  - destruct (Hold eq_refl) as (i & st & Hi & Hst).
    assert (∃ h, CO.heightOf st = Some h) as [h Hh] by (destruct st; try done; by eexists).
    destruct (CO_worker_rejected _ _ _ _ _ H Hrej0) as (_ & _ & Hkeep).
    destruct (Hkeep _ _ _ Hi Hst Hh) as (st' & Hi' & Hst' & _). by exists i, st'.
  - locked_cases c ev H; simpl in Hrej'; try congruence.
    exists j, (CO.Committed h b Thrown). split; [|done].
    apply list_lookup_insert_eq. by eapply lookup_lt_Some.
Qed.

Lemma cover_insert (ws : list CO.wstate) (j : nat) stj X (hs hs' : list Z) h :
  ws !! j = Some stj →
  (∀ h0, CO.heightOf stj = Some h0 → CO.heightOf X = Some h0 ∨ h0 ∈ hs') →
  (∀ h0, h0 ∈ hs → h0 ∈ hs') →
  (∃ (i : nat) st, ws !! i = Some st ∧ CO.heightOf st = Some h) ∨ h ∈ hs →
  (∃ (i : nat) st, <[j := X]> ws !! i = Some st ∧ CO.heightOf st = Some h) ∨ h ∈ hs'.
Proof.
  intros Hj HX Hsub [(i & st & Hi & Hst)|Hin]; [|right; by apply Hsub].
  destruct (decide (i = j)) as [->|Hne].
  - rewrite Hj in Hi. injection Hi as <-. destruct (HX _ Hst) as [HXh|?]; [|by right].
    left. exists j, X. split; [|done]. apply list_lookup_insert_eq. by eapply lookup_lt_Some.
  - left. exists i, st. by rewrite list_lookup_insert_ne.
Qed.

(** Worker [j] goes from [st] to [X]; the notices go from [hs] to [hs']. *)
Lemma reported_step s d hs hs' w w' (j : nat) st X :
  reported s d hs w → CO.workers w !! j = Some st →
  CO.workers w' = <[j := X]> (CO.workers w) →
  CO.tracker w' = markAll hs' (initTracker s d) →
  (∀ h, h ∈ hs → h ∈ hs') →
  (∀ x, x ∈ CO.sinkCalls w → x ∈ CO.sinkCalls w') →
  (∀ h, h ∈ hs' → h ∈ hs ∨ (h, Normal) ∈ CO.sinkCalls w') →
  CO.nextHeight w ≤ CO.nextHeight w' →
  (∀ h, CO.nextHeight w ≤ h < CO.nextHeight w' → CO.heightOf X = Some h) →
  (∀ h, CO.heightOf st = Some h → CO.heightOf X = Some h ∨ h ∈ hs') →
  (∀ h b, X = CO.Committed h b Normal → h ∈ hs') →
  (∀ h b, X = CO.Committing h b → (h, Normal) ∈ CO.sinkCalls w') →
  (CO.commitRejected w' = false →
   ∀ k, k ∈ hs' → nextToCommit (CO.tracker w') ≤ k → k ∈ completedHeights (CO.tracker w')) →
  (CO.commitRejected w' = true →
   ∃ (i : nat) st', CO.workers w' !! i = Some st' ∧ CO.unreported st' = true) →
  reported s d hs' w'.
Proof.
  intros [Ht Hsunk Hcov Hdone Hwait Hint Hpoi] Hj Hws Ht' Hsub Hmono Hnew Hnx HnX HX Hd' Hw'
         Hint' Hpoi'.
  split; try done.
  - intros h Hh. destruct (Hnew h Hh) as [?|?]; [apply Hmono; by apply Hsunk|done].
  - intros h Hh. rewrite Hws. destruct (decide (h < CO.nextHeight w)) as [Hlt|Hge].
    + eapply cover_insert; [exact Hj|exact HX|exact Hsub|]. apply Hcov. lia.
    + left. exists j, X. split; [|apply HnX; lia].
      apply list_lookup_insert_eq. by eapply lookup_lt_Some.
  - intros i h b. rewrite Hws. intros Hi. apply CO_lookup_insert_is in Hi as [[_ E]|[_ Hi]].
    + by eapply Hd'.
    + apply Hsub. by eapply Hdone.
  - intros i h b. rewrite Hws. intros Hi. apply CO_lookup_insert_is in Hi as [[_ E]|[_ Hi]].
    + by eapply Hw'.
    + apply Hmono. by eapply Hwait.
Qed.

Lemma CO_worker_reported c s d j ev w w' hs :
  CO.worker c j ev w = Some w' → reported s d hs w → ∃ hs', reported s d hs' w'.
Proof.
  intros H Hrp.
  pose proof (CO_worker_poisoned _ _ _ _ _ H (rp_poisoned _ _ _ _ Hrp)) as Hpoi'.
  pose proof Hrp as [Ht Hsunk Hcov Hdone Hwait Hint Hpoi].
  assert (∀ l (x : Z * completion) y, x ∈ l → x ∈ l ++ [y]) as Hleft.
  { intros l x y ?. apply elem_of_app. by left. }
  assert (∀ l (x : Z * completion), x ∈ l ++ [x]) as Hright.
  { intros l x. apply elem_of_app. right. left. }
  locked_cases c ev H;
    try (exists hs;
         eapply reported_step;
           [exact Hrp|exact Hw|reflexivity|exact Ht|done
           |simpl; first [done|intros x; apply Hleft]
           |by left|simpl..];
         first [ done | exact Hpoi' | lia | by (intros; lia)
               | by (intros h0 [= <-]; left)
               | by (intros ? ? [= <- <-]; apply Hright)
               | by (intros ? ? [= <- <-]; eapply Hdone)
               | by (intros h0 [= <-]; right; eapply Hdone) ]).
  - exists hs.
    eapply reported_step; [exact Hrp|exact Hw|reflexivity|exact Ht|done|done|by left|simpl..];
      try done.
    + lia.
    + intros h0 Hh0. f_equal. lia.
  - assert (∀ h0, h0 ∈ hs ++ [h] → h0 ∈ hs ∨ (h0, Normal) ∈ CO.sinkCalls w) as Hnew.
    { intros h0 [?| ->%list_elem_of_singleton]%elem_of_app; [by left|right; by eapply Hwait]. }
    exists (hs ++ [h]).
    eapply reported_step; [exact Hrp|exact Hw|reflexivity|simpl| |done|exact Hnew|simpl..];
      try done.
    + by rewrite markAll_snoc, <- Ht, Hm.
    + intros h0 ?. apply elem_of_app. by left.
    + intros h0 ?. lia.
    + intros h0 ?. by left.
    + intros h0 b0 [= <- <-]. apply elem_of_app. right. left.
    + intros _ k Hk Hle. apply markCompleted_flushed in Hm as [n Hn].
      apply (fl_normal _ _ _ _ Hn eq_refl). simpl.
      pose proof (fl_nonneg _ _ _ _ Hn). pose proof (fl_cursor _ _ _ _ Hn) as Hc. simpl in Hc.
      split; [|lia]. apply elem_of_app in Hk as [Hk| ->%list_elem_of_singleton].
      * apply elem_of_union. right. apply Hint; [done|done|lia].
      * apply elem_of_union. left. by apply elem_of_singleton.
  - assert (∀ h0, h0 ∈ hs ++ [h] → h0 ∈ hs ∨ (h0, Normal) ∈ CO.sinkCalls w) as Hnew.
    { intros h0 [?| ->%list_elem_of_singleton]%elem_of_app; [by left|right; by eapply Hwait]. }
    exists (hs ++ [h]).
    eapply reported_step; [exact Hrp|exact Hw|reflexivity|simpl| |done|exact Hnew|simpl..];
      try done.
    + by rewrite markAll_snoc, <- Ht, Hm.
    + intros h0 ?. apply elem_of_app. by left.
    + intros h0 ?. lia.
    + intros h0 ?. by left.
Qed.

Lemma initWorld_reported c d :
  reported (scanStart (CaptureConsensus.valueOf (CaptureConsensus.START c))
                      (getLastProcessedBlockHeight d)) d [] (CO.initWorld c d).
Proof.
  unfold CO.initWorld. split; simpl; try done.
  - by intros h ?%elem_of_nil.
  - intros h ?. lia.
  - intros i h b Hi. apply lookup_replicate in Hi as [? _]. done.
  - intros i h b Hi. apply lookup_replicate in Hi as [? _]. done.
  - by intros _ k ?%elem_of_nil.
Qed.

Lemma CO_exec_locked c d sched : ∀ w w' hs,
  let s := scanStart (CaptureConsensus.valueOf (CaptureConsensus.START c))
                     (getLastProcessedBlockHeight d) in
  let e := CaptureConsensus.valueOf (CaptureConsensus.END c) in
  let n := Z.to_nat (CaptureConsensus.BLOCK_CONCURRENCY c) in
  CO.exec c sched w = Some w' →
  chained w → allotted s e n w → reported s d hs w →
  chained w' ∧ allotted s e n w' ∧ ∃ hs', reported s d hs' w'.
Proof.
  induction sched as [|[j ev] sched IH]; intros w w' hs s e n; simpl.
  - intros [= <-] ? ? ?. split; [done|]. split; [done|]. by exists hs.
  - destruct (CO.worker c j ev w) as [w1|] eqn:Hst; [|done]. intros Hex Hch Hal Hrp.
    destruct (CO_worker_reported _ _ _ _ _ _ _ _ Hst Hrp) as [hs1 Hrp1].
    eapply (IH _ _ hs1); [exact Hex| | |exact Hrp1].
    + by eapply CO_worker_chained.
    + by eapply CO_worker_allotted.
Qed.

Lemma CO_main_ran c d sched p w :
  CO.main c d sched = Some (CO.Ran p w) →
  CO.exec c sched (CO.initWorld c d) = Some w ∧ p = CO.joined w.
Proof.
  unfold CO.main. simpl.
  destruct (CaptureConsensus.truthy (CaptureConsensus.START c)); [|done].
  destruct (CaptureConsensus.truthy (CaptureConsensus.END c)); [|done]. simpl.
  destruct (CO.exec c sched _) as [w'|]; [|done]. by intros [= <- <-].
Qed.

Lemma CO_joined_resolved w (i : nat) st :
  CO.joined w = Resolved → CO.workers w !! i = Some st → st = CO.Finished.
Proof.
  unfold CO.joined. destruct (forallb CO.isFinished (CO.workers w)) eqn:E; [|done].
  intros _ Hi. rewrite forallb_forall in E.
  assert (CO.isFinished st = true) as Hf.
  { apply E. apply list_elem_of_In. by eapply list_elem_of_lookup_2. }
  by destruct st.
Qed.



(** X14 - A capture with locks that is over has checkpointed everything.
    Whatever the schedule and whatever the store does, when the promise of
    [main] is resolved (at least one worker, a range that is not empty):
    [commitLock] is not rejected, the event sink has returned for every
    height of the range, the heights of the range have been written to the
    store in order, each once, and the checkpoint is [END]. *)
Theorem locked_capture_complete (c : CaptureConsensus.Config) (d : Db)
    (sched : list (nat * CO.event)) (w : CO.World) :
  let s := scanStart (CaptureConsensus.valueOf (CaptureConsensus.START c))
                     (getLastProcessedBlockHeight d) in
  let e := CaptureConsensus.valueOf (CaptureConsensus.END c) in
  CO.main c d sched = Some (CO.Ran Resolved w) →
  0 < CaptureConsensus.BLOCK_CONCURRENCY c → s ≤ e →
  CO.commitRejected w = false ∧
  (∀ h, s ≤ h ≤ e → (h, Normal) ∈ CO.sinkCalls w) ∧
  writeLog (db (CO.tracker w)) = writeLog d ++ seqZ s (e - s + 1) ∧
  lastProcessed (db (CO.tracker w)) = Some e.
Proof.
  intros s e Hmain Hn Hse. apply CO_main_ran in Hmain as [Hex Hj]. symmetry in Hj.
  destruct (CO_exec_locked c d sched _ _ [] Hex (initWorld_chained c d)
              (initWorld_allotted c d) (initWorld_reported c d))
    as (_ & Hal & hs & Hrp). fold s e in Hal, Hrp.
  assert (CO.commitRejected w = false) as Hrej.
  { destruct (CO.commitRejected w) eqn:E; [|done].
    destruct (rp_poisoned _ _ _ _ Hrp E) as (i & st & Hi & Hst).
    by rewrite (CO_joined_resolved _ _ _ Hj Hi) in Hst. }
  assert (e < CO.nextHeight w) as Hpast.
  { pose proof (al_len _ _ _ _ Hal) as Hlen.
    destruct (CO.workers w) as [|st ws] eqn:Hws; [simpl in Hlen; lia|].
    apply (al_idle _ _ _ _ Hal 0%nat). rewrite Hws. simpl. f_equal.
    apply (CO_joined_resolved w 0 st Hj). by rewrite Hws. }
  assert (∀ h, s ≤ h ≤ e → h ∈ hs) as Hall.
  { intros h Hh. destruct (rp_cover _ _ _ _ Hrp h) as [(i & st & Hi & Hst)|?]; [lia| |done].
    by rewrite (CO_joined_resolved _ _ _ Hj Hi) in Hst. }
  assert (∀ h, h ∈ hs → s ≤ h ≤ e) as Hrange.
  { intros h Hh. eapply (al_sink _ _ _ _ Hal), (rp_sunk _ _ _ _ Hrp), Hh. }
  pose proof (markAll_tracked s d hs) as Htr. rewrite <- (rp_tracker _ _ _ _ Hrp) in Htr.
  assert (nextToCommit (CO.tracker w) = e + 1) as Hcur.
  { pose proof (tr_start _ _ _ _ Htr).
    destruct (decide (nextToCommit (CO.tracker w) ≤ e)) as [Hle|Hgt].
    - exfalso. apply (tr_exit _ _ _ _ Htr).
      apply (rp_intact _ _ _ _ Hrp Hrej); [|lia]. apply Hall. lia.
    - destruct (decide (nextToCommit (CO.tracker w) = e + 1)) as [|Hne]; [done|].
      exfalso. assert (e + 1 ∈ hs) as Hin by (apply (tr_prefix _ _ _ _ Htr); lia).
      apply Hrange in Hin. lia. }
  split; [done|]. split; [|split].
  - intros h Hh. by apply (rp_sunk _ _ _ _ Hrp), Hall.
  - rewrite (tr_log _ _ _ _ Htr). do 2 f_equal. lia.
  - rewrite (tr_last _ _ _ _ Htr). case_decide; [lia|]. f_equal. lia.
Qed.

Lemma locked_capture_complete_witness :
  let c := CaptureConsensus.mkConfig (CaptureConsensus.Numeral 5) (CaptureConsensus.Numeral 5)
                                     1000 10000 1 in
  let w := CO.mkWorld [CO.Finished] 6 [] (mkTracker 6 ∅ (mkDb (Some 5) [5] [])) [] false
                      [(5, Normal)] [] in
  lastProcessed (db (CO.tracker w)) = Some 5.
Proof.
  intros c w.
  destruct (locked_capture_complete c (mkDb None [] [])
              [(0%nat, CO.Alloc); (0%nat, CO.RpcOk); (0%nat, CO.Commit); (0%nat, CO.Resume);
               (0%nat, CO.Alloc)] w) as (_ & _ & _ & H).
  - vm_compute. reflexivity.
  - reflexivity.
  - vm_compute. discriminate.
  - exact H.
Defined.

(** * More on the naive consensus capture

    ** The counter *)

Lemma drainCounter_exhausted e n next :
  e < next → drainCounter e n next = (replicate n None, next).
Proof.
  intros Hlt. induction n as [|n IH]; [done|]. simpl. unfold CC.getNextHeight.
  destruct (Z.ltb_spec e next); [|lia]. by rewrite IH.
Qed.

(** X15 - The counter hands out each height once.  [n] calls of the
    [getNextHeight] of [capture-consensus.ts] from the counter value [next],
    [n] at least the number of heights left: the calls return [next],
    [next+1], ..., [END] in this order and then [null] every time, and the
    counter stops at [END + 1]; when the counter is already past [END] every
    call returns [null] and leaves the counter alone. *)
Theorem counter_allocation (e : Z) (n : nat) (next : Z) :
  (next ≤ e + 1 → (Z.to_nat (e - next + 1) ≤ n)%nat →
   drainCounter e n next =
     ((Some <$> seqZ next (e - next + 1)) ++ replicate (n - Z.to_nat (e - next + 1)) None,
      e + 1)) ∧
  (e < next → drainCounter e n next = (replicate n None, next)).
Proof.
  split; [|apply drainCounter_exhausted].
  revert next. induction n as [|n IH]; intros next Hle Hn.
  - assert (next = e + 1) as -> by lia. simpl. by rewrite seqZ_nil by lia.
  - destruct (decide (next = e + 1)) as [->|Hne].
    + rewrite drainCounter_exhausted by lia. rewrite seqZ_nil by lia. simpl.
      replace (Z.to_nat (e - (e + 1) + 1)) with 0%nat by lia. done.
    + simpl. unfold CC.getNextHeight. destruct (Z.ltb_spec e next); [lia|].
      rewrite IH by lia. rewrite (seqZ_cons next) by lia. simpl.
      replace (Z.succ next) with (next + 1) by lia.
      replace (Z.pred (e - next + 1)) with (e - (next + 1) + 1) by lia.
      replace (n - Z.to_nat (e - (next + 1) + 1))%nat
        with (S n - Z.to_nat (e - next + 1))%nat by lia.
      done.
Qed.

Lemma counter_allocation_witness :
  drainCounter 102 5 100 = ([Some 100; Some 101; Some 102; None; None], 103).
Proof.
  apply (counter_allocation 102 5 100); [lia|vm_compute; lia].
Defined.

(** ** The invariant of a naive run *)

Lemma CC_lookup_insert_is (ws : list CC.wstate) (i j : nat) st st' :
  <[i := st']> ws !! j = Some st → (i = j ∧ st = st') ∨ (i ≠ j ∧ ws !! j = Some st).
Proof.
  intros H. apply list_lookup_insert_Some in H as [(-> & <- & _)|[? ?]]; [by left|by right].
Qed.

Lemma checkpoint_cases h d r d' :
  CC.checkpoint h d = (r, d') →
  (writeLog d' = writeLog d ∧ lastProcessed d' = lastProcessed d) ∨
  (Z.rem h 100 = 0 ∧ r = Normal ∧
   writeLog d' = writeLog d ++ [h] ∧ lastProcessed d' = Some h).
Proof.
  unfold CC.checkpoint. destruct (Z.eqb_spec (Z.rem h 100) 0) as [Hrem|_].
  - destruct (set_cases d h) as [(fs & _ & E)|[_ E]]; rewrite E; intros [= <- <-]; simpl.
    + by left.
    + by right.
  - intros [= <- <-]. by left.
Qed.

Lemma hundreds_step s e d db db' h :
  hundreds s e d db → s ≤ h ≤ e →
  (writeLog db' = writeLog db ∧ lastProcessed db' = lastProcessed db) ∨
  (Z.rem h 100 = 0 ∧ writeLog db' = writeLog db ++ [h] ∧ lastProcessed db' = Some h) →
  hundreds s e d db'.
Proof.
  intros (ws & Hl & Hws & Hla) Hh [[El Ela]|(Hrem & El & Ela)].
  - exists ws. by rewrite El, Ela.
  - exists (ws ++ [h]). rewrite El, Hl, Ela, last_snoc, app_assoc. split; [done|]. split; [|done].
    intros v Hv. apply elem_of_app in Hv as [?|Hv]; [by apply Hws|].
    by apply list_elem_of_singleton in Hv as ->.
Qed.

(** A worker changes state and keeps its height. *)
Lemma naive_retag s e d n w w' (j : nat) st st' h :
  naiveInv s e d n w → CC.workers w !! j = Some st →
  naiveHeightOf st = Some h → naiveHeightOf st' = Some h →
  CC.workers w' = <[j := st']> (CC.workers w) → CC.nextHeight w' = CC.nextHeight w →
  hundreds s e d (CC.db w') →
  (∀ x, x ∈ CC.sinkCalls w → x ∈ CC.sinkCalls w') →
  (∀ h0 r, (h0, r) ∈ CC.sinkCalls w' → s ≤ h0 ≤ e) →
  naiveInv s e d n w'.
Proof.
  intros [Hlen Hnext Hheld Huni Hcov Hidle Hst Hsink] Hj Hh Hh' Hws Hnx Hdb Hmono Hsink'.
  assert (j < length (CC.workers w))%nat as Hlt by (by eapply lookup_lt_Some).
  split; rewrite ?Hws, ?Hnx; try done.
  - by rewrite length_insert.
  - intros i si h0 Hi Hsi. apply CC_lookup_insert_is in Hi as [[_ ->]|[_ Hi]].
    + eapply Hheld; [exact Hj|congruence].
    + by eapply Hheld.
  - intros i1 i2 s1 s2 h0 H1 H2 Hs1 Hs2.
    apply CC_lookup_insert_is in H1 as [[<- ->]|[Hn1 H1]];
      apply CC_lookup_insert_is in H2 as [[<- ->]|[Hn2 H2]]; try done.
    + eapply (Huni j i2 st s2 h0); [exact Hj|exact H2|congruence|done].
    + eapply (Huni i1 j s1 st h0); [exact H1|exact Hj|done|congruence].
    + by eapply Huni.
  - intros h0 Hh0. destruct (Hcov h0 Hh0) as [(i & si & Hi & Hsi)|?]; [|right; by apply Hmono].
    left. destruct (decide (i = j)) as [->|Hne].
    + exists j, st'. split; [by apply list_lookup_insert_eq|]. rewrite Hi in Hj. congruence.
    + exists i, si. by rewrite list_lookup_insert_ne.
  - intros i Hi. apply CC_lookup_insert_is in Hi as [[_ E]|[_ Hi]].
    + by rewrite <- E in Hh'.
    + by eapply Hidle.
Qed.

(** A worker is through with its height and takes the next one. *)
Lemma naive_advance c s e d n w w' (j : nat) h b :
  e = CC.valueOf (CC.END c) →
  naiveInv s e d n w → CC.workers w !! j = Some (CC.Fetching h b) →
  CC.workers w' = <[j := (CC.nextJob c (CC.nextHeight w)).1]> (CC.workers w) →
  CC.nextHeight w' = (CC.nextJob c (CC.nextHeight w)).2 →
  hundreds s e d (CC.db w') →
  CC.sinkCalls w' = CC.sinkCalls w ++ [(h, Normal)] →
  naiveInv s e d n w'.
Proof.
  intros -> [Hlen Hnext Hheld Huni Hcov Hidle Hst Hsink] Hj Hws Hnx Hdb Hsc.
  assert (j < length (CC.workers w))%nat as Hlt by (by eapply lookup_lt_Some).
  assert (s ≤ h < CC.nextHeight w) as Hh by (by eapply Hheld).
  assert (∀ h0, s ≤ h0 < CC.nextHeight w →
            (∃ (i : nat) st, i ≠ j ∧ CC.workers w !! i = Some st ∧ naiveHeightOf st = Some h0) ∨
            (h0, Normal) ∈ CC.sinkCalls w') as Hcov'.
  { intros h0 Hh0. rewrite Hsc.
    destruct (Hcov h0 Hh0) as [(i & si & Hi & Hsi)|?]; [|right; apply elem_of_app; by left].
    destruct (decide (i = j)) as [->|Hne]; [|left; by exists i, si].
    right. rewrite Hi in Hj. injection Hj as ->. simpl in Hsi. injection Hsi as <-.
    apply elem_of_app. right. left. }
  assert (∀ h0 r, (h0, r) ∈ CC.sinkCalls w' → s ≤ h0 ≤ CC.valueOf (CC.END c)) as Hsink'.
  { intros h0 r. rewrite Hsc. intros Hin. apply elem_of_app in Hin as [?|Hin]; [by eapply Hsink|].
    apply list_elem_of_singleton in Hin as [= -> ->]. lia. }
  unfold CC.nextJob, CC.getNextHeight in Hws, Hnx.
  destruct (Z.ltb_spec (CC.valueOf (CC.END c)) (CC.nextHeight w)) as [Hpast|Hin];
    simpl in Hws, Hnx; split; rewrite ?Hws, ?Hnx; try done.
  - by rewrite length_insert.
  - intros i si h0 Hi Hsi. apply CC_lookup_insert_is in Hi as [[_ ->]|[_ Hi]]; [done|].
    by eapply Hheld.
  - intros i1 i2 s1 s2 h0 H1 H2 Hs1 Hs2.
    apply CC_lookup_insert_is in H1 as [[<- ->]|[Hn1 H1]]; [done|].
    apply CC_lookup_insert_is in H2 as [[<- ->]|[Hn2 H2]]; [done|].
    by eapply Huni.
  - intros h0 Hh0. destruct (Hcov' h0 Hh0) as [(i & si & Hne & Hi & Hsi)|?]; [|by right].
    left. exists i, si. by rewrite list_lookup_insert_ne.
  - by rewrite length_insert.
  - lia.
  - intros i si h0 Hi Hsi. apply CC_lookup_insert_is in Hi as [[_ ->]|[_ Hi]].
    + simpl in Hsi. injection Hsi as <-. lia.
    + assert (s ≤ h0 < CC.nextHeight w) by (by eapply Hheld). lia.
  - intros i1 i2 s1 s2 h0 H1 H2 Hs1 Hs2.
    apply CC_lookup_insert_is in H1 as [[<- ->]|[Hn1 H1]];
      apply CC_lookup_insert_is in H2 as [[<- ->]|[Hn2 H2]]; try done.
    + simpl in Hs1. injection Hs1 as <-.
      assert (s ≤ CC.nextHeight w < CC.nextHeight w) by (by eapply Hheld). lia.
    + simpl in Hs2. injection Hs2 as <-.
      assert (s ≤ CC.nextHeight w < CC.nextHeight w) by (by eapply Hheld). lia.
    + by eapply Huni.
  - intros h0 Hh0. destruct (decide (h0 = CC.nextHeight w)) as [->|Hne].
    + left. exists j, (CC.Fetching (CC.nextHeight w) (CC.RETRY_BACKOFF_MS c)).
      split; [by apply list_lookup_insert_eq|done].
    + destruct (Hcov' h0) as [(i & si & Hne' & Hi & Hsi)|?]; [lia| |by right].
      left. exists i, si. by rewrite list_lookup_insert_ne.
  - intros i Hi. apply CC_lookup_insert_is in Hi as [[_ ?]|[_ Hi]]; [done|].
    assert (CC.valueOf (CC.END c) < CC.nextHeight w) by (by eapply Hidle). lia.
Qed.

Lemma naive_held_range s e d n w (i : nat) st h :
  naiveInv s e d n w → CC.workers w !! i = Some st → naiveHeightOf st = Some h →
  s ≤ h ≤ e.
Proof.
  intros Hinv Hi Hh. pose proof (nv_held _ _ _ _ _ Hinv _ _ _ Hi Hh).
  pose proof (nv_next _ _ _ _ _ Hinv). lia.
Qed.

Lemma naive_worker_inv c s e d n j ev w w' :
  e = CC.valueOf (CC.END c) →
  CC.worker c j ev w = Some w' → naiveInv s e d n w → naiveInv s e d n w'.
Proof.
  intros He H Hinv. unfold CC.worker in H.
  destruct (CC.workers w !! j) as [[h b|h b|]|] eqn:Hj; [| |done..].
  - assert (s ≤ h ≤ e) as Hh by (by eapply naive_held_range).
    assert (∀ r d', CC.checkpoint h (CC.db w) = (r, d') → hundreds s e d d') as Hdb.
    { intros r d' Hc. eapply hundreds_step; [apply (nv_store _ _ _ _ _ Hinv)|exact Hh|].
      apply checkpoint_cases in Hc as [?|(? & _ & ? & ?)]; [by left|by right]. }
    assert (∀ x, (∀ h0 r, (h0, r) ∈ CC.sinkCalls w ++ [(h, x)] → s ≤ h0 ≤ e)) as Hsk.
    { intros x h0 r Hin. apply elem_of_app in Hin as [?|Hin]; [by eapply (nv_sink _ _ _ _ _ Hinv)|].
      by apply list_elem_of_singleton in Hin as [= -> ->]. }
    destruct ev; try done.
    + destruct (CC.checkpoint h (CC.db w)) as [r d'] eqn:Hc. specialize (Hdb _ _ eq_refl).
      destruct r.
      * destruct (CC.nextJob c (CC.nextHeight w)) as [ws n'] eqn:Hn. injection H as <-.
        eapply naive_advance; [exact He|exact Hinv|exact Hj|simpl..].
        -- by rewrite Hn.
        -- by rewrite Hn.
        -- done.
        -- done.
      * injection H as <-.
        eapply naive_retag with (st' := CC.Sleeping h b); [exact Hinv|exact Hj|done..| |]; simpl.
        -- done.
        -- apply (nv_sink _ _ _ _ _ Hinv).
      * injection H as <-.
        eapply naive_retag with (st' := CC.Sleeping h b); [exact Hinv|exact Hj|done..| |]; simpl.
        -- done.
        -- apply (nv_sink _ _ _ _ _ Hinv).
    + injection H as <-.
      eapply naive_retag with (st' := CC.Sleeping h b); [exact Hinv|exact Hj|done..| | |]; simpl.
      * apply (nv_store _ _ _ _ _ Hinv).
      * done.
      * apply (nv_sink _ _ _ _ _ Hinv).
    + destruct (CC.checkpoint h (CC.db w)) as [r d'] eqn:Hc. specialize (Hdb _ _ eq_refl).
      destruct r; injection H as <-;
        (eapply naive_retag with (st' := CC.Sleeping h b); [exact Hinv|exact Hj|done..| |]; simpl).
      * intros x ?. apply elem_of_app. by left.
      * apply Hsk.
      * done.
      * apply (nv_sink _ _ _ _ _ Hinv).
      * done.
      * apply (nv_sink _ _ _ _ _ Hinv).
  - destruct ev; try done. injection H as <-.
    eapply naive_retag with (st := CC.Sleeping h b)
                            (st' := CC.Fetching h (Z.min (b * 2) (CC.RETRY_MAX_BACKOFF_MS c)));
      [exact Hinv|exact Hj|done..| | |]; simpl.
    + apply (nv_store _ _ _ _ _ Hinv).
    + done.
    + apply (nv_sink _ _ _ _ _ Hinv).
Qed.

Lemma naive_exec_inv c s e d n sched : ∀ w w',
  e = CC.valueOf (CC.END c) →
  CC.exec c sched w = Some w' → naiveInv s e d n w → naiveInv s e d n w'.
Proof.
  induction sched as [|[j ev] sched IH]; intros w w' He; simpl.
  - by intros [= <-].
  - destruct (CC.worker c j ev w) as [w1|] eqn:Hst; [|done]. intros Hex Hinv.
    eapply IH; [done|exact Hex|]. by eapply naive_worker_inv.
Qed.

(** The pool as created from the counter value [next]. *)
Lemma naive_spawn c n : ∀ next,
  let e := CC.valueOf (CC.END c) in
  let sp := CC.spawn c n next in
  length sp.1 = n ∧ next ≤ sp.2 ≤ Z.max next (e + 1) ∧
  (∀ (i : nat) st h, sp.1 !! i = Some st → naiveHeightOf st = Some h → next ≤ h < sp.2) ∧
  (∀ (i j : nat) si sj h, sp.1 !! i = Some si → sp.1 !! j = Some sj →
                          naiveHeightOf si = Some h → naiveHeightOf sj = Some h → i = j) ∧
  (∀ h, next ≤ h < sp.2 → ∃ (i : nat) st, sp.1 !! i = Some st ∧ naiveHeightOf st = Some h) ∧
  (∀ i : nat, sp.1 !! i = Some CC.Finished → e < sp.2).
Proof.
  induction n as [|n IH]; intros next e sp; subst sp.
  - simpl. split; [done|]. split; [lia|]. split; [done|]. split; [done|].
    split; [intros h ?; lia|done].
  - simpl. unfold CC.nextJob, CC.getNextHeight. fold e.
    destruct (Z.ltb_spec e next) as [Hpast|Hin].
    + specialize (IH next). fold e in IH.
      destruct (CC.spawn c n next) as [rest n2]. simpl in *.
      destruct IH as (Hlen & Hn2 & Hheld & Huni & Hcov & Hidle).
      split; [by rewrite Hlen|]. split; [done|]. split; [|split; [|split]].
      * intros [|i] st h Hi Hh; simpl in Hi; [by injection Hi as <-|by eapply Hheld].
      * intros [|i] [|j] si sj h Hi Hj Hsi Hsj; simpl in Hi, Hj; try done.
        -- by injection Hi as <-.
        -- by injection Hj as <-.
        -- f_equal. by eapply Huni.
      * intros h Hh. destruct (Hcov h Hh) as (i & st & Hi & Hst). by exists (S i), st.
      * intros [|i] Hi; simpl in Hi; [lia|by eapply Hidle].
    + specialize (IH (next + 1)). fold e in IH.
      destruct (CC.spawn c n (next + 1)) as [rest n2]. simpl in *.
      destruct IH as (Hlen & Hn2 & Hheld & Huni & Hcov & Hidle).
      split; [by rewrite Hlen|]. split; [lia|]. split; [|split; [|split]].
      * intros [|i] st h Hi Hh; simpl in Hi.
        -- injection Hi as <-. simpl in Hh. injection Hh as <-. lia.
        -- assert (next + 1 ≤ h < n2) by (by eapply Hheld). lia.
      * intros [|i] [|j] si sj h Hi Hj Hsi Hsj; simpl in Hi, Hj; try done.
        -- injection Hi as <-. simpl in Hsi. injection Hsi as <-.
           assert (next + 1 ≤ next < n2) by (by eapply Hheld). lia.
        -- injection Hj as <-. simpl in Hsj. injection Hsj as <-.
           assert (next + 1 ≤ next < n2) by (by eapply Hheld). lia.
        -- f_equal. by eapply Huni.
      * intros h Hh. destruct (decide (h = next)) as [->|Hne].
        -- by exists 0%nat, (CC.Fetching next (CC.RETRY_BACKOFF_MS c)).
        -- destruct (Hcov h) as (i & st & Hi & Hst); [lia|]. by exists (S i), st.
      * intros [|i] Hi; simpl in Hi; [done|by eapply Hidle].
Qed.

Lemma naiveInit_inv c d :
  naiveInv (scanStart (CC.valueOf (CC.START c)) (getLastProcessedBlockHeight d))
           (CC.valueOf (CC.END c)) d (Z.to_nat (CC.BLOCK_CONCURRENCY c)) (naiveInit c d).
Proof.
  unfold naiveInit.
  pose proof (naive_spawn c (Z.to_nat (CC.BLOCK_CONCURRENCY c))
                (scanStart (CC.valueOf (CC.START c)) (getLastProcessedBlockHeight d))) as H.
  simpl in H. destruct (CC.spawn c _ _) as [ws n]. simpl in H.
  destruct H as (Hlen & Hn & Hheld & Huni & Hcov & Hidle).
  split; simpl; try done.
  - intros h Hh. left. by apply Hcov.
  - exists []. rewrite app_nil_r. split; [done|]. split; [|done].
    intros v Hv. by apply elem_of_nil in Hv.
  - intros h r Hin. by apply elem_of_nil in Hin.
Qed.

Lemma main_ran c d sched p w :
  CC.main c d sched = Some (CC.Ran p w) →
  CC.exec c sched (naiveInit c d) = Some w ∧ p = CC.joined w ∧
  CC.truthy (CC.START c) = true ∧ CC.truthy (CC.END c) = true.
Proof.
  unfold CC.main, naiveInit. simpl.
  destruct (CC.truthy (CC.START c)); [|done].
  destruct (CC.truthy (CC.END c)); [|done]. simpl.
  destruct (CC.spawn c _ _) as [ws n].
  destruct (CC.exec c sched _) as [w'|]; [|done]. by intros [= <- <-].
Qed.

Lemma naive_main_inv c d sched p w :
  CC.main c d sched = Some (CC.Ran p w) →
  naiveInv (scanStart (CC.valueOf (CC.START c)) (getLastProcessedBlockHeight d))
           (CC.valueOf (CC.END c)) d (Z.to_nat (CC.BLOCK_CONCURRENCY c)) w.
Proof.
  intros H. apply main_ran in H as (Hex & _ & _ & _).
  eapply naive_exec_inv; [done|exact Hex|apply naiveInit_inv].
Qed.

Lemma CC_joined_resolved w (i : nat) st :
  CC.joined w = Resolved → CC.workers w !! i = Some st → st = CC.Finished.
Proof.
  unfold CC.joined. destruct (forallb CC.isFinished (CC.workers w)) eqn:E; [|done].
  intros _ Hi. rewrite forallb_forall in E.
  assert (CC.isFinished st = true) as Hf.
  { apply E. apply list_elem_of_In. by eapply list_elem_of_lookup_2. }
  by destruct st.
Qed.

(** X16 - The naive capture checkpoints multiples of 100 only.  Whatever the
    schedule, the values a naive run has written to the store are multiples
    of 100 within the range and the checkpoint is the last of them (or the
    one found at the start); so a run over a range without a multiple of 100
    leaves the store as it found it, however many heights it processed. *)
Theorem naive_checkpoints_hundreds (c : CC.Config) (d : Db) (sched : list (nat * event))
    (p : promise) (w : CC.World) :
  let s := scanStart (CC.valueOf (CC.START c)) (getLastProcessedBlockHeight d) in
  let e := CC.valueOf (CC.END c) in
  CC.main c d sched = Some (CC.Ran p w) →
  (∃ ws, writeLog (CC.db w) = writeLog d ++ ws ∧
         (∀ v, v ∈ ws → Z.rem v 100 = 0 ∧ s ≤ v ≤ e) ∧
         lastProcessed (CC.db w) = from_option Some (lastProcessed d) (last ws)) ∧
  ((∀ v, s ≤ v ≤ e → Z.rem v 100 ≠ 0) →
   writeLog (CC.db w) = writeLog d ∧ lastProcessed (CC.db w) = lastProcessed d).
Proof.
  intros s e H. apply naive_main_inv in H. fold s e in H.
  destruct (nv_store _ _ _ _ _ H) as (ws & Hl & Hws & Hla).
  split; [by exists ws|]. intros Hnone.
  destruct ws as [|v ws].
  - by rewrite Hl, app_nil_r, Hla.
  - exfalso. destruct (Hws v) as [Hrem Hv]; [left|]. by apply (Hnone v).
Qed.

Lemma naive_checkpoints_hundreds_witness :
  let c := CC.mkConfig (CC.Numeral 101) (CC.Numeral 102) 1000 10000 1 in
  let w := CC.mkWorld [CC.Finished] 103 (mkDb None [] []) [(101, Normal); (102, Normal)] [] in
  writeLog (CC.db w) = writeLog (mkDb None [] []) ∧
  lastProcessed (CC.db w) = lastProcessed (mkDb None [] []).
Proof.
  intros c w.
  destruct (naive_checkpoints_hundreds c (mkDb None [] []) [(0%nat, RpcOk); (0%nat, RpcOk)]
              Resolved w) as [_ H].
  - vm_compute. reflexivity.
  - apply H. intros v Hv. change (101 ≤ v ≤ 102) in Hv.
    assert (v = 101 ∨ v = 102) as [-> | ->] by lia; vm_compute; discriminate.
Defined.

(** X17 - The naive capture processes every height.  Whatever the schedule, a
    naive run calls the event sink only for heights of the range and no two
    of its workers hold the same height; when the run is over (at least one
    worker), the event sink has returned for every height of the range. *)
Theorem naive_processes_all (c : CC.Config) (d : Db) (sched : list (nat * event))
    (p : promise) (w : CC.World) :
  let s := scanStart (CC.valueOf (CC.START c)) (getLastProcessedBlockHeight d) in
  let e := CC.valueOf (CC.END c) in
  CC.main c d sched = Some (CC.Ran p w) →
  (∀ h r, (h, r) ∈ CC.sinkCalls w → s ≤ h ≤ e) ∧
  (∀ (i j : nat) si sj h,
     CC.workers w !! i = Some si → CC.workers w !! j = Some sj →
     naiveHeightOf si = Some h → naiveHeightOf sj = Some h → i = j) ∧
  (p = Resolved → 0 < CC.BLOCK_CONCURRENCY c →
   ∀ h, s ≤ h ≤ e → (h, Normal) ∈ CC.sinkCalls w).
Proof.
  intros s e H. pose proof (naive_main_inv _ _ _ _ _ H) as Hinv. fold s e in Hinv.
  apply main_ran in H as (_ & Hp & _ & _).
  split; [apply (nv_sink _ _ _ _ _ Hinv)|]. split; [apply (nv_unique _ _ _ _ _ Hinv)|].
  intros -> Hn h Hh. symmetry in Hp.
  assert (e < CC.nextHeight w) as Hpast.
  { pose proof (nv_len _ _ _ _ _ Hinv) as Hlen.
    destruct (CC.workers w) as [|st ws] eqn:Hws; [simpl in Hlen; lia|].
    apply (nv_idle _ _ _ _ _ Hinv 0%nat). rewrite Hws. simpl. f_equal.
    apply (CC_joined_resolved w 0 st Hp). by rewrite Hws. }
  destruct (nv_cover _ _ _ _ _ Hinv h) as [(i & st & Hi & Hst)|?]; [lia| |done].
  by rewrite (CC_joined_resolved _ _ _ Hp Hi) in Hst.
Qed.

Lemma naive_processes_all_witness :
  let c := CC.mkConfig (CC.Numeral 101) (CC.Numeral 102) 1000 10000 1 in
  let w := CC.mkWorld [CC.Finished] 103 (mkDb None [] [])
                      [(101, Thrown); (101, Normal); (102, Normal)] [(101, 1000)] in
  (101, Normal) ∈ CC.sinkCalls w ∧ (102, Normal) ∈ CC.sinkCalls w.
Proof.
  intros c w.
  destruct (naive_processes_all c (mkDb None [] [])
              [(0%nat, SinkFail); (0%nat, Wake); (0%nat, RpcOk); (0%nat, RpcOk)]
              Resolved w) as (_ & _ & H).
  - vm_compute. reflexivity.
  - split; (apply H; [reflexivity|reflexivity|vm_compute; split; discriminate]).
Defined.
